(** * json-link: JSON documents with links, checked against the sources

    The development embeds the JavaScript sources of the library
    (lib/index.js, lib/source.js, lib/git.js) and states the properties
    of the specification over the embedding.

    Strings are [string] (JavaScript strings restricted to one-byte
    code units), the variable context is a finite map from names to
    strings, JavaScript objects and arrays live in a store indexed by
    locations, and promises are modelled by their outcome; the calls
    that [Promise.all] runs together are tasks that take turns, in
    an order the environment decides. *)

From Stdlib Require Import String Ascii List ZArith Lia Bool.
From stdpp Require Import base option gmap strings list.

Local Open Scope Z_scope.
Local Open Scope nat_scope.

(** ** JavaScript string primitives *)

Module JsString.

(** [s[0] == c] on a string: false on the empty string, whose [s[0]]
    is [undefined]. *)
Definition first_is (c : ascii) (s : string) : bool :=
  match s with
  | EmptyString => false
  | String d _ => Ascii.eqb d c
  end.

(** [s.substring(1)]. *)
Definition substring1 (s : string) : string :=
  match s with
  | EmptyString => EmptyString
  | String _ t => t
  end.

(** [s.indexOf(c)] for a one-character needle: the index of the first
    occurrence, or -1. *)
Fixpoint indexOf (c : ascii) (s : string) : Z :=
  match s with
  | EmptyString => (-1)%Z
  | String d t =>
      if Ascii.eqb d c then 0%Z
      else let i := indexOf c t in
           if (i <? 0)%Z then (-1)%Z else (i + 1)%Z
  end.

Fixpoint take (n : nat) (s : string) : string :=
  match n, s with
  | S m, String c t => String c (take m t)
  | _, _ => EmptyString
  end.

Fixpoint drop (n : nat) (s : string) : string :=
  match n, s with
  | S m, String _ t => drop m t
  | _, _ => s
  end.

(** An index argument of [substring]: negative values count as 0 and
    values beyond the length as the length. *)
Definition clamp (s : string) (i : Z) : nat :=
  Nat.min (Z.to_nat i) (String.length s).

(** [s.substring(a, b)]: both indices are clamped and swapped when
    [a > b]. *)
Definition substring (s : string) (a b : Z) : string :=
  let a' := clamp s a in
  let b' := clamp s b in
  take (Nat.max a' b' - Nat.min a' b') (drop (Nat.min a' b') s).

(** [s.substring(a)]. *)
Definition substring_from (s : string) (a : Z) : string :=
  drop (clamp s a) s.

(** [s.split('/')]. *)
Fixpoint split (sep : ascii) (s : string) : list string :=
  match s with
  | EmptyString => [EmptyString]
  | String c t =>
      if Ascii.eqb c sep then EmptyString :: split sep t
      else match split sep t with
           | w :: r => String c w :: r
           | [] => [String c EmptyString]
           end
  end.

(** [parts.join('/')]. *)
Fixpoint join (sep : string) (parts : list string) : string :=
  match parts with
  | [] => EmptyString
  | [p] => p
  | p :: r => p +:+ sep +:+ join sep r
  end.

(** [s.endsWith(suffix)]. *)
Definition endsWith (suffix s : string) : bool :=
  String.eqb (drop (String.length s - String.length suffix) s) suffix
  && (String.length suffix <=? String.length s).

(** The last character of [s] is [c]. *)
Fixpoint last_is (c : ascii) (s : string) : bool :=
  match s with
  | EmptyString => false
  | String d EmptyString => Ascii.eqb d c
  | String _ t => last_is c t
  end.

(** Characters removed by [String.prototype.trim] (white space and
    line terminators, in the one-byte range). *)
Definition is_space (c : ascii) : bool :=
  let n := nat_of_ascii c in
  (n =? 32) || ((9 <=? n) && (n <=? 13)) || (n =? 160).

Fixpoint trim_start (s : string) : string :=
  match s with
  | EmptyString => EmptyString
  | String c t => if is_space c then trim_start t else s
  end.

Fixpoint trim_end (s : string) : string :=
  match s with
  | EmptyString => EmptyString
  | String c t =>
      match trim_end t with
      | EmptyString => if is_space c then EmptyString else String c EmptyString
      | t' => String c t'
      end
  end.

Definition trim (s : string) : string := trim_end (trim_start s).

Fixpoint contains (c : ascii) (s : string) : bool :=
  match s with
  | EmptyString => false
  | String d t => Ascii.eqb d c || contains c t
  end.

End JsString.

(** ** The variable expander: [replace] of lib/index.js

    [replace] is the same function, character for character, in every
    revision of lib/index.js (src/lib/index.js lines 196-212). *)

Module Expander.

(** [.] of a JavaScript regular expression without the [s] flag
    matches everything but a line terminator. *)
Definition is_line_terminator (c : ascii) : bool :=
  let n := nat_of_ascii c in (n =? 10) || (n =? 13).

(** [\w] is [[A-Za-z0-9_]]. *)
Definition is_word_char (c : ascii) : bool :=
  let n := nat_of_ascii c in
  ((48 <=? n) && (n <=? 57)) || ((65 <=? n) && (n <=? 90))
  || ((97 <=? n) && (n <=? 122)) || (n =? 95).

(** The final group, a greedy dot-star followed by [$]: the star runs
    to the first line terminator, and [$] (no [m] flag) holds at the
    very end only, so the rest of the input matches exactly when it
    holds no line terminator. *)
Fixpoint dot_star_eol (s : string) : bool :=
  match s with
  | EmptyString => true
  | String c t => negb (is_line_terminator c) && dot_star_eol t
  end.

(** The group [\w+], greedy: the longest run of word characters and
    what follows it.  A shorter run is never tried with success, since the
    character after it would be a word character and not [}]. *)
Fixpoint span_word (s : string) : string * string :=
  match s with
  | EmptyString => (EmptyString, EmptyString)
  | String c t =>
      if is_word_char c
      then let (w, r) := span_word t in (String c w, r)
      else (EmptyString, s)
  end.

(** The regular expression from its [\$] on (token, trailing group and
    [$]) tried at the head of [s]: the name and the trailing text. *)
Definition match_token (s : string) : option (string * string) :=
  match s with
  | String "$" (String "{" s1) =>
      match span_word s1 with
      | (String c w, String "}" t) =>
          if dot_star_eol t then Some (String c w, t) else None
      | _ => None
      end
  | _ => None
  end.

(** [exec] of the regular expression of [replace] on [str]: a leading
    greedy dot-star group, [\$\{], the group [\w+], [\}], a trailing
    greedy dot-star group, anchored at both ends.  The leading group
    is greedy, so the longest leading text is tried first and the
    match found is the one of the LAST token of the string. *)
Fixpoint exec_var (s : string) : option (string * string * string) :=
  match s with
  | EmptyString => None
  | String c t =>
      match (if is_line_terminator c then None else exec_var t) with
      | Some (leading, name, trailing) => Some (String c leading, name, trailing)
      | None =>
          match match_token s with
          | Some (name, trailing) => Some (EmptyString, name, trailing)
          | None => None
          end
      end
  end.

(** [env[name] || '']: the value bound to [name], or the empty string
    when there is none (or when the value is the empty string).  The
    context is a flat mapping from names to strings. *)
Definition env_get (env : gmap string string) (name : string) : string :=
  match env !! name with
  | Some v => v
  | None => EmptyString
  end.

(** The [while( true )] loop of [replace]; [fuel] bounds the number of
    iterations and [None] means that the loop has not left after
    [fuel] iterations. *)
Fixpoint replace_loop (fuel : nat) (env : gmap string string)
    (result str : string) : option string :=
  match fuel with
  | 0 => None
  | S fuel' =>
      match exec_var str with
      | Some (leading, name, trailing) =>
          replace_loop fuel' env ((result +:+ leading) +:+ env_get env name) trailing
      | None => Some (result +:+ str)
      end
  end.

(** [replace( str, env )].  Two iterations always suffice (lemma
    [replace_loop_step] below), so the last branch is dead. *)
Definition replace (str : string) (env : gmap string string) : string :=
  match replace_loop (S (String.length str)) env EmptyString str with
  | Some r => r
  | None => str
  end.

(** Every character of [s] is a word character. *)
Fixpoint all_word (s : string) : bool :=
  match s with
  | EmptyString => true
  | String c t => is_word_char c && all_word t
  end.

(** A token [${name}] starts at the head of [s]. *)
Definition token_at (s : string) : bool :=
  match s with
  | String "$" (String "{" s1) =>
      match span_word s1 with
      | (String _ _, String "}" _) => true
      | _ => false
      end
  | _ => false
  end.

(** The number of positions of [s] at which a token starts. *)
Fixpoint count_tokens (s : string) : nat :=
  match s with
  | EmptyString => 0
  | String _ t => (if token_at s then 1 else 0) + count_tokens t
  end.

End Expander.

(** ** The regular expression of [replace], declaratively *)

Module RegExp.

Import Expander.

(** [str] is [leading], a token with name [name], and [trailing], as
    the groups of the regular expression allow: no line terminator in
    the two dot-star groups, a non-empty word for the name. *)
Definition splits (str leading name trailing : string) : Prop :=
  str = leading +:+ "${" +:+ name +:+ "}" +:+ trailing
  /\ name <> "" /\ all_word name = true
  /\ dot_star_eol leading = true /\ dot_star_eol trailing = true.

End RegExp.

(** ** Node's [path] module (POSIX flavour)

    The sources call [Path.dirname], [Path.join] and [Path.resolve] of
    Node.js.  They are library code; the definitions below follow the
    algorithm of Node's [path.posix]. *)

Module Path.

Import JsString.

(** One step of [normalizeString]: the stack holds the segments kept
    so far, last one first. *)
Definition normalize_step (allowAboveRoot : bool) (stack : list string)
    (seg : string) : list string :=
  if String.eqb seg "" || String.eqb seg "." then stack
  else if String.eqb seg ".." then
    match stack with
    | top :: rest =>
        if String.eqb top ".."
        then (if allowAboveRoot then seg :: stack else stack)
        else rest
    | [] => if allowAboveRoot then [seg] else []
    end
  else seg :: stack.

(** [normalizeString( path, allowAboveRoot, '/' )]. *)
Definition normalizeString (path : string) (allowAboveRoot : bool) : string :=
  join "/" (rev (fold_left (normalize_step allowAboveRoot) (split "/" path) [])).

(** [path.normalize( p )]. *)
Definition normalize (path : string) : string :=
  match path with
  | EmptyString => "."
  | _ =>
      let isAbsolute := first_is "/" path in
      let trailingSeparator := last_is "/" path in
      let p := normalizeString path (negb isAbsolute) in
      match p with
      | EmptyString =>
          if isAbsolute then "/" else if trailingSeparator then "./" else "."
      | _ =>
          let p := if trailingSeparator then p +:+ "/" else p in
          if isAbsolute then "/" +:+ p else p
      end
  end.

(** [path.join( a, b )]: the non-empty arguments are glued with a
    slash and the result is normalized. *)
Definition join2 (a b : string) : string :=
  match a, b with
  | EmptyString, EmptyString => "."
  | EmptyString, _ => normalize b
  | _, EmptyString => normalize a
  | _, _ => normalize (a +:+ "/" +:+ b)
  end.

(** The scan of [path.dirname] over the characters after the first,
    from the end: trailing slashes are skipped, then the last
    segment; what is left ends with the slash at index [end], and its
    length is that index. *)
Fixpoint skip_slashes (l : list ascii) : list ascii :=
  match l with
  | c :: r => if Ascii.eqb c "/" then skip_slashes r else l
  | [] => []
  end.

Fixpoint skip_segment (l : list ascii) : list ascii :=
  match l with
  | c :: r => if Ascii.eqb c "/" then l else skip_segment r
  | [] => []
  end.

(** [path.dirname( p )]. *)
Definition dirname (path : string) : string :=
  match path with
  | EmptyString => "."
  | String c t =>
      let hasRoot := Ascii.eqb c "/" in
      match skip_segment (skip_slashes (rev (list_ascii_of_string t))) with
      | [] => if hasRoot then "/" else "."
      | rest =>
          let e := length rest in
          if hasRoot && (e =? 1) then "//" else take e path
      end
  end.

(** [path.resolve( a, b )] with the process working directory [cwd]:
    the arguments are taken from the right until an absolute path is
    reached, the working directory being the last resort. *)
Definition resolve_step (acc : string * bool) (p : string) : string * bool :=
  let (resolvedPath, resolvedAbsolute) := acc in
  if resolvedAbsolute then acc
  else match p with
       | EmptyString => acc
       | _ => (p +:+ "/" +:+ resolvedPath, first_is "/" p)
       end.

Definition resolve (cwd : string) (a b : string) : string :=
  let (resolvedPath, resolvedAbsolute) :=
    fold_left resolve_step [b; a; cwd] (EmptyString, false) in
  let p := normalizeString resolvedPath (negb resolvedAbsolute) in
  if resolvedAbsolute then "/" +:+ p
  else match p with
       | EmptyString => "."
       | _ => p
       end.

End Path.

(** ** JavaScript values shared by the modules *)

Module Js.

(** An [Error] object: its class name, its [code] property when it has
    one (Node sets it on system errors: ['ENOENT'], ['EACCES'], ...)
    and its message. *)
Record error := Error {
  err_name : string;
  err_code : option string;
  err_message : string
}.

(** [e.code == 'ENOENT']. *)
Definition code_is (c : string) (e : error) : bool :=
  match err_code e with
  | Some c' => String.eqb c' c
  | None => false
  end.

(** The outcome of a promise: fulfilled with a value, rejected with an
    error, or never settled. *)
Inductive settled (A : Type) : Type :=
| Fulfilled (a : A)
| Rejected (e : error)
| Pending.
Arguments Fulfilled {A} a.
Arguments Rejected {A} e.
Arguments Pending {A}.

(** [await p] followed by the rest of an [async] function. *)
Definition await {A B : Type} (p : settled A) (k : A -> settled B) : settled B :=
  match p with
  | Fulfilled a => k a
  | Rejected e => Rejected e
  | Pending => Pending
  end.

(** The truth value of a string that may be [null] or [undefined]. *)
Definition truthy (s : option string) : bool :=
  match s with
  | Some (String _ _) => true
  | _ => false
  end.

(** A parsed JSON text.  A number is kept as an integer: the code
    passes numbers on and never computes with them. *)
#[warnings="-register-all"]
Inductive json : Type :=
| JNull
| JBool (b : bool)
| JNum (n : Z)
| JStr (s : string)
| JArr (items : list json)
| JObj (fields : list (string * json)).

(** What a child process does, as seen by its listeners, in order. *)
Inductive proc_event : Type :=
| StdoutData (d : string)
| StderrData (d : string)
| CloseEv (code : option Z)
| ErrorEv (e : error).

(** The environment of a run: the working directory of the process,
    the outcome of [FS.readFile] per path, the events of a child
    process per command, arguments and working directory,
    [JSON.parse] ([None] when it throws a [SyntaxError]), and the
    turns the event loop gives to the calls that [Promise.all] has
    started for the items of an array: a list of numbers, each of
    which selects the call that goes on next, for the array that is
    resolved when the store holds the given number of cells. *)
Record world := MkWorld {
  cwd : string;
  fs_readFile : string -> error + string;
  spawn : string -> list string -> string -> list proc_event;
  json_parse : string -> option json;
  schedule : nat -> list nat
}.

(** A world whose event loop serves the calls in the order of the
    items, each to its end before the next, for sixty-four turns. *)
Definition World (cwd : string) (fs_readFile : string -> error + string)
    (spawn : string -> list string -> string -> list proc_event)
    (json_parse : string -> option json) : world :=
  MkWorld cwd fs_readFile spawn json_parse (fun _ => repeat 0 64).

End Js.

(** ** Repository access: src/lib/git.js *)

Module Git.

Import Js JsString.

(** What [git] resolves with. *)
Record git_result := GitResult {
  code : option Z;
  stdout : string;
  stderr : string
}.

(** The listeners installed by [git] (lines 27-32), run over the
    events of the child process: data is appended to the two buffers,
    ['close'] resolves the promise with the exit code and the buffers,
    ['error'] rejects it.  The first of the two settles the promise. *)
Fixpoint git_listen (events : list proc_event) (stdout stderr : string)
    : settled git_result :=
  match events with
  | [] => Pending
  | StdoutData d :: rest => git_listen rest (stdout +:+ d) stderr
  | StderrData d :: rest => git_listen rest stdout (stderr +:+ d)
  | CloseEv c :: _ => Fulfilled (GitResult c stdout stderr)
  | ErrorEv e :: _ => Rejected e
  end.

(** [git( cwd, args )], lines 24-34. *)
Definition git (w : world) (cwd : string) (args : list string)
    : settled git_result :=
  git_listen (spawn w "git" args cwd) EmptyString EmptyString.

(** [isBare( path )], lines 41-48: the [catch] block is empty and the
    function falls through to [return false]. *)
Definition isBare (w : world) (path : string) : settled bool :=
  match git w path ["rev-parse"; "--is-bare-repository"] with
  | Fulfilled r => Fulfilled (String.eqb (trim (stdout r)) "true")
  | Rejected _ => Fulfilled false
  | Pending => Pending
  end.

(** [getRoot( filePath )], lines 56-66; [None] is [null]. *)
Definition getRoot (w : world) (filePath : string) : settled (option string) :=
  let dirPath := Path.dirname filePath in
  match git w dirPath ["rev-parse"; "--show-toplevel"] with
  | Fulfilled r =>
      match stdout r with
      | EmptyString => Fulfilled None
      | out => Fulfilled (Some (trim out))
      end
  | Rejected _ => Fulfilled None
  | Pending => Pending
  end.

(** [read( repoDir, path, commitish )], lines 79-83. *)
Definition read (w : world) (repoDir path : string) (commitish : option string)
    : settled string :=
  let commitish :=
    match commitish with
    | Some (String c t) => String c t
    | _ => "master"
    end in
  await (git w repoDir ["show"; commitish +:+ ":" +:+ path])
        (fun r => Fulfilled (stdout r)).

End Git.

(** ** Source descriptors: lib/source.js

    Two revisions of the file are in src/unnamed/part_001.  [Source] is
    the later one (lines 243-376): it repairs the constructor test and
    the re-basing of the earlier one, makes [parseSource] an [async]
    function and adds [toString].  The earlier one (lines 127-241),
    whose [parseSource] uses [await] without being [async], is
    [SourceV1] below. *)

Module Source.

Import Js JsString.

(** The fields of a [Source]; [None] is [null] or [undefined]. *)
Record t := Make {
  repoPath : option string;
  filePath : string;
  commitish : option string
}.

(** [new Source( repoPath, filePath, commitish )], lines 280-291. *)
Definition new (repoPath : option string) (filePath : string)
    (commitish : option string) : t :=
  let idx := indexOf "#" filePath in
  if (idx >? -1)%Z
  then Make repoPath (substring filePath 0 idx)
            (Some (substring_from filePath (idx + 1)))
  else Make repoPath filePath commitish.

(** [toString()], lines 324-334. *)
Definition toString (s : t) : string :=
  let r := if truthy (repoPath s)
           then "(" +:+ default EmptyString (repoPath s) +:+ "):"
           else EmptyString in
  let r := r +:+ filePath s in
  if truthy (commitish s)
  then r +:+ "#" +:+ default EmptyString (commitish s)
  else r.

(** The argument of [resolve] and of [parseSource]: a [Source] or any
    other value, which the code turns into a string. *)
Inductive ref : Type :=
| RefSource (s : t)
| RefString (s : string).

(** [resolve( ref )], lines 296-303. *)
Definition resolve (this : t) (r : ref) : t :=
  let filePath :=
    match r with
    | RefSource s => filePath s
    | RefString s => s
    end in
  let filePath :=
    if negb (first_is "/" filePath)
    then let dirname := Path.dirname (Source.filePath this) in
         Path.join2 dirname filePath
    else filePath in
  new (repoPath this) filePath (commitish this).

(** [read()], lines 308-322. *)
Definition read (w : world) (this : t) : settled string :=
  if truthy (repoPath this)
  then Git.read w (default EmptyString (repoPath this)) (filePath this)
                (commitish this)
  else match fs_readFile w (filePath this) with
       | inl err => Rejected err
       | inr data => Fulfilled data
       end.

(** [parts.indexOf( p => p.endsWith('.git') )], line 356:
    [Array.prototype.indexOf] compares the elements with the function
    object itself, which no element of [parts] is. *)
Definition indexOf_function (parts : list string) : Z := (-1)%Z.

(** [Source.parseSource( ref, isPath )], lines 345-374. *)
Definition parseSource (w : world) (r : ref) (isPath : bool) : settled t :=
  match r with
  | RefSource s => Fulfilled s
  | RefString ref =>
      if isPath then Fulfilled (new None ref None)
      else
        let parts := split "/" ref in
        let idx := indexOf_function parts in
        let non_bare :=
          await (Git.getRoot w ref) (fun repoPath =>
            if truthy repoPath
            then
              let root := default EmptyString repoPath in
              let filePath := Path.resolve (cwd w) EmptyString ref in
              let filePath :=
                substring_from filePath (Z.of_nat (String.length root)) in
              Fulfilled (new repoPath filePath None)
            else Fulfilled (new None ref None)) in
        if (idx >? -1)%Z
        then
          let repoPath := join "/" (firstn (Z.to_nat idx) parts) in
          await (Git.isBare w repoPath) (fun bare =>
            if bare
            then Fulfilled (new (Some repoPath)
                                (join "/" (skipn (Z.to_nat idx) parts)) None)
            else non_bare)
        else non_bare
  end.

End Source.

(** The earlier revision of lib/source.js (src/unnamed/part_001, lines
    127-241): constructor and [resolve]. *)

Module SourceV1.

Import Js JsString.

(** [new Source( repoPath, filePath, commitish )], lines 164-175: the
    test is [if( idx )], which holds for every index but 0, -1
    included. *)
Definition new (repoPath : option string) (filePath : string)
    (commitish : option string) : Source.t :=
  let idx := indexOf "#" filePath in
  if negb (idx =? 0)%Z
  then Source.Make repoPath (substring filePath 0 idx)
                   (Some (substring_from filePath (idx + 1)))
  else Source.Make repoPath filePath commitish.

(** [resolve( ref )], lines 180-186. *)
Definition resolve (this : Source.t) (r : Source.ref) : Source.t :=
  let filePath :=
    match r with
    | Source.RefSource s => Source.filePath s
    | Source.RefString s => s
    end in
  let filePath :=
    if negb (first_is "/" filePath)
    then Path.join2 (Source.filePath this) filePath
    else filePath in
  new (Source.repoPath this) filePath (Source.commitish this).

End SourceV1.

(** ** The store of JavaScript objects

    Objects and arrays are cells of a store and a value refers to them
    by location, so that one object reached twice is one cell. *)

Module Store.

Import Js.

Inductive value : Type :=
| VUndefined
| VNull
| VBool (b : bool)
| VNum (n : Z)
| VStr (s : string)
| VRef (l : nat).

(** A plain object keeps its properties in insertion order (the
    order of [for ... in], but for names that are array indices, which
    JavaScript visits first); an array keeps its elements. *)
Inductive cell : Type :=
| CObj (fields : list (string * value))
| CArr (items : list value).

(** [o[name] = v] on the property list of an object: an existing
    property keeps its place, a new one goes last. *)
Fixpoint set_field (fields : list (string * value)) (name : string) (v : value)
    : list (string * value) :=
  match fields with
  | [] => [(name, v)]
  | (k, x) :: rest =>
      if String.eqb k name then (k, v) :: rest
      else (k, x) :: set_field rest name v
  end.

Fixpoint get_field (fields : list (string * value)) (name : string) : value :=
  match fields with
  | [] => VUndefined
  | (k, x) :: rest => if String.eqb k name then x else get_field rest name
  end.

(** [value[name]] for the object at [l]. *)
Definition get_prop (h : gmap nat cell) (l : nat) (name : string) : value :=
  match h !! l with
  | Some (CObj fields) => get_field fields name
  | _ => VUndefined
  end.

(** [value[name] = v] for the object at [l]. *)
Definition set_prop (h : gmap nat cell) (l : nat) (name : string) (v : value)
    : gmap nat cell :=
  match h !! l with
  | Some (CObj fields) => <[l := CObj (set_field fields name v)]> h
  | _ => h
  end.

(** A new cell, at a location the store does not use. *)
Definition alloc_cell (c : cell) (h : gmap nat cell) : nat * gmap nat cell :=
  let l := fresh (dom h) in (l, <[l := c]> h).

(** The object graph [JSON.parse] builds for a parsed text: a new cell
    for every array and every object, a repeated key keeping its
    last value. *)
Fixpoint alloc (j : json) (h : gmap nat cell) : value * gmap nat cell :=
  match j with
  | JNull => (VNull, h)
  | JBool b => (VBool b, h)
  | JNum n => (VNum n, h)
  | JStr s => (VStr s, h)
  | JArr items =>
      let '(vs, h1) :=
        (fix alloc_items (js : list json) (h : gmap nat cell) :=
           match js with
           | [] => ([], h)
           | x :: rest =>
               let '(v, h1) := alloc x h in
               let '(vs, h2) := alloc_items rest h1 in
               (v :: vs, h2)
           end) items h in
      let '(l, h2) := alloc_cell (CArr vs) h1 in
      (VRef l, h2)
  | JObj fields =>
      let '(fs, h1) :=
        (fix alloc_fields (js : list (string * json)) (acc : list (string * value))
             (h : gmap nat cell) :=
           match js with
           | [] => (acc, h)
           | (k, x) :: rest =>
               let '(v, h1) := alloc x h in
               alloc_fields rest (set_field acc k v) h1
           end) fields [] h in
      let '(l, h2) := alloc_cell (CObj fs) h1 in
      (VRef l, h2)
  end.

(** The state a resolution pass threads: the store, and the paths
    handed to [readFile] so far, oldest first. *)
Record state := State {
  heap : gmap nat cell;
  reads : list string
}.

(** The outcome of an [async] call: a value, a rejection, or no
    outcome (the fuel given is spent, or a promise awaited never
    settles). *)
Inductive result (A : Type) : Type :=
| Ret (a : A) (s : state)
| Throw (e : error) (s : state)
| NoOutcome.
Arguments Ret {A} a s.
Arguments Throw {A} e s.
Arguments NoOutcome {A}.

End Store.

(** ** The items of an array, resolved together

    [resolve] hands the items of an array to [Promise.all]: the calls
    for all the items are started, and after that each of them goes
    on whenever the event loop gives it a turn, at an [await] or when
    a read completes.  [Promise.all] is fulfilled when every item is,
    with the values in the order of the items, and is rejected as soon
    as one item is, with the error of that item, whatever its place
    in the array.

    The calls that run together are written as tasks, and a run is a
    sequence of turns: at each turn one task that is not settled takes
    one step.  Which one is for the world to say ([schedule]), so that
    a statement for every world holds for every order in which the
    reads may complete and the tasks may be served.  The event loop
    starts the calls for all the items before any read completes;
    the turns are not held to that, a call may be given its first
    turn late: every order the event loop can take is an order of
    turns.  The module is
    shared by the two revisions of the resolver, which differ in the
    place a link is resolved against ([C]: a directory, a descriptor)
    and in what a load is ([L]). *)

Module Tasks.

Import Js Store.

(** What a load that was started comes to, once the read has
    completed: an error, [null] (the [catch] block), a document to be
    resolved against a new place, or nothing, when the read never
    completes. *)
Inductive completion (C : Type) : Type :=
| CThrow (e : error)
| CNull
| CDoc (j : json) (c : C)
| CPending.
Arguments CThrow {C} e.
Arguments CNull {C}.
Arguments CDoc {C} j c.
Arguments CPending {C}.

(** A call of [resolve] that has not yet looked at its value, a load
    whose read is under way, the [for ... in] loop of the object at
    [l] waiting for the value of the property [name] (the names in
    [rest] are still to come), [Promise.all] over the items of an
    array, and the two settled states. *)
#[warnings="-register-all"]
Inductive task (C L : Type) : Type :=
| TRun (v : value) (c : C)
| TLoad (l : L)
| TProps (l : nat) (name : string) (t : task C L) (rest : list string) (c : C)
| TAll (ts : list (task C L))
| TRet (v : value)
| TThrow (e : error).
Arguments TRun {C L} v c.
Arguments TLoad {C L} l.
Arguments TProps {C L} l name t rest c.
Arguments TAll {C L} ts.
Arguments TRet {C L} v.
Arguments TThrow {C L} e.

Section Machine.

Context {C L : Type}.

(** The load a link starts, with the entry it leaves in the trace,
    and what a load comes to. *)
Variable start_link : C -> string -> L * string.
Variable complete : L -> completion C.

Definition settled (t : task C L) : bool :=
  match t with
  | TRet _ | TThrow _ => true
  | _ => false
  end.

(** The error of the first item that is rejected. *)
Fixpoint first_throw (ts : list (task C L)) : option error :=
  match ts with
  | [] => None
  | TThrow e :: _ => Some e
  | _ :: rest => first_throw rest
  end.

(** The values of the items, when every item is fulfilled. *)
Fixpoint all_ret (ts : list (task C L)) : option (list value) :=
  match ts with
  | [] => Some []
  | TRet v :: rest =>
      match all_ret rest with
      | Some vs => Some (v :: vs)
      | None => None
      end
  | _ :: _ => None
  end.

(** The number of items that are not settled. *)
Definition waiting (ts : list (task C L)) : nat :=
  length (filter (fun t => negb (settled t)) ts).

(** The loop over the properties of the object at [l], at the names
    [rest]: the call for the next property, or the end of the loop. *)
Definition next_prop (l : nat) (rest : list string) (c : C) (s : state)
    : task C L :=
  match rest with
  | [] => TRet (VRef l)
  | name :: rest' => TProps l name (TRun (get_prop (heap s) l name) c) rest' c
  end.

(** [resolve] looks at its value. *)
Definition start (v : value) (c : C) (s : state) : task C L * state :=
  match v with
  | VStr str =>
      if JsString.first_is "@" str then
        let '(l, entry) := start_link c str in
        (TLoad l, State (heap s) (reads s ++ [entry]))
      else (TRet v, s)
  | VRef l =>
      match heap s !! l with
      | Some (CArr items) => (TAll (map (fun i => TRun i c) items), s)
      | Some (CObj fields) => (next_prop l (map fst fields) c s, s)
      | None => (TRet v, s)
      end
  | _ => (TRet v, s)
  end.

(** The read of a load has completed. *)
Definition finish (l : L) (s : state) : task C L * state :=
  match complete l with
  | CThrow e => (TThrow e, s)
  | CNull => (TRet VNull, s)
  | CDoc j c =>
      let '(data, h) := alloc j (heap s) in
      (TRun data c, State h (reads s))
  | CPending => (TLoad l, s)
  end.

(** One turn: the task takes one step.  Under [Promise.all] the turn
    goes to one of the items that are not settled, the one the number
    [n] selects. *)
Fixpoint advance (n : nat) (t : task C L) (s : state) {struct t}
    : task C L * state :=
  match t with
  | TRun v c => start v c s
  | TLoad l => finish l s
  | TProps l name t' rest c =>
      match t' with
      | TRet r =>
          let s1 := State (set_prop (heap s) l name r) (reads s) in
          (next_prop l rest c s1, s1)
      | TThrow e => (TThrow e, s)
      | _ =>
          let '(t'', s') := advance n t' s in
          (TProps l name t'' rest c, s')
      end
  | TAll ts =>
      match first_throw ts with
      | Some e => (TThrow e, s)
      | None =>
          match all_ret ts with
          | Some vs =>
              let '(l', h) := alloc_cell (CArr vs) (heap s) in
              (TRet (VRef l'), State h (reads s))
          | None =>
              let m := waiting ts in
              let '(ts', s') :=
                (fix pick (k : nat) (ts : list (task C L))
                     : list (task C L) * state :=
                   match ts with
                   | [] => ([], s)
                   | t0 :: rest =>
                       if settled t0 then
                         let '(rest', s') := pick k rest in (t0 :: rest', s')
                       else
                         match k with
                         | 0 =>
                             let '(t0', s') := advance (n / m) t0 s in
                             (t0' :: rest, s')
                         | S k' =>
                             let '(rest', s') := pick k' rest in
                             (t0 :: rest', s')
                         end
                   end) (n mod m) ts in
              (TAll ts', s')
          end
      end
  | TRet _ | TThrow _ => (t, s)
  end.

(** The turns of [turns], one after the other, until the task is
    settled; no outcome when the turns are spent before that. *)
Fixpoint run (turns : list nat) (t : task C L) (s : state) : result value :=
  match t with
  | TRet v => Ret v s
  | TThrow e => Throw e s
  | _ =>
      match turns with
      | [] => NoOutcome
      | n :: turns' => let '(t', s') := advance n t s in run turns' t' s'
      end
  end.

(** [Promise.all( items.map( i => resolve( i, ... ) ) )]. *)
Definition all (turns : list nat) (items : list value) (c : C) (s : state)
    : result value :=
  run turns (TAll (map (fun i => TRun i c) items)) s.

(** The steps a task can take, whatever the turn: the steps of
    [advance], and no step at all. *)
Inductive step : task C L -> state -> task C L -> state -> Prop :=
| step_start v c s :
    step (TRun v c) s (start v c s).1 (start v c s).2
| step_finish l s :
    step (TLoad l) s (finish l s).1 (finish l s).2
| step_prop_ret l name r rest c s :
    step (TProps l name (TRet r) rest c) s
      (next_prop l rest c (State (set_prop (heap s) l name r) (reads s)))
      (State (set_prop (heap s) l name r) (reads s))
| step_prop_throw l name e rest c s :
    step (TProps l name (TThrow e) rest c) s (TThrow e) s
| step_prop_in l name t t' rest c s s' :
    step t s t' s' ->
    step (TProps l name t rest c) s (TProps l name t' rest c) s'
| step_all_throw ts e s :
    first_throw ts = Some e -> step (TAll ts) s (TThrow e) s
| step_all_ret ts vs s :
    all_ret ts = Some vs ->
    step (TAll ts) s (TRet (VRef (alloc_cell (CArr vs) (heap s)).1))
      (State (alloc_cell (CArr vs) (heap s)).2 (reads s))
| step_all_in pre t t' post s s' :
    step t s t' s' ->
    step (TAll (pre ++ t :: post)) s (TAll (pre ++ t' :: post)) s'
| step_idle t s : step t s t s.

(** Any number of steps. *)
Inductive reach : task C L -> state -> task C L -> state -> Prop :=
| reach_refl t s : reach t s t s
| reach_step t s t1 s1 t2 s2 :
    step t s t1 s1 -> reach t1 s1 t2 s2 -> reach t s t2 s2.

(** The loops that wait for a property, the values the task holds,
    the loads under way and the errors of the tasks that are
    rejected. *)
Fixpoint frames (t : task C L) : list (nat * string * list string) :=
  match t with
  | TProps l name t' rest _ => (l, name, rest) :: frames t'
  | TAll ts => flat_map frames ts
  | _ => []
  end.

Fixpoint values (t : task C L) : list value :=
  match t with
  | TRun v _ => [v]
  | TProps l _ t' _ _ => VRef l :: values t'
  | TAll ts => flat_map values ts
  | TRet v => [v]
  | _ => []
  end.

Fixpoint places (t : task C L) : list C :=
  match t with
  | TRun _ c => [c]
  | TProps _ _ t' _ c => c :: places t'
  | TAll ts => flat_map places ts
  | _ => []
  end.

Fixpoint loads (t : task C L) : list L :=
  match t with
  | TLoad l => [l]
  | TProps _ _ t' _ _ => loads t'
  | TAll ts => flat_map loads ts
  | _ => []
  end.

Fixpoint throws (t : task C L) : list error :=
  match t with
  | TThrow e => [e]
  | TProps _ _ t' _ _ => throws t'
  | TAll ts => flat_map throws ts
  | _ => []
  end.

End Machine.

End Tasks.

(** ** The loader and the link resolver: src/lib/index.js *)

Module Index.

Import Js JsString Store.

(** What [readFile] throws at [i], which the function never declares. *)
Definition ReferenceError_i : error :=
  Error "ReferenceError" None "i is not defined".

(** What [JSON.parse] throws; it has no [code] property. *)
Definition SyntaxError : error :=
  Error "SyntaxError" None "Unexpected token in JSON".

(** [readFile( path )], lines 63-112.  Both branches that would set
    the working directory of a git command read the undeclared [i]
    first (lines 69 and 80), so the git command is never reached:
    a path with a [#], or with a component ending in [.git], throws,
    and every other path is read from the file system.  (The second
    [let idx], line 75, is taken as an assignment.)  The function is
    not [async]: what it throws is thrown inside the [try] block of
    [loadJSON], like the rejection of the promise it returns. *)
Definition readFile (w : world) (path : string) : error + string :=
  let idx := indexOf "#" path in
  if (idx >? -1)%Z then inl ReferenceError_i
  else
    let components := split "/" path in
    if existsb (endsWith ".git") components then inl ReferenceError_i
    else fs_readFile w path.

(** The [catch] block of [loadJSON], lines 135-141. *)
Definition loadJSON_catch (required : bool) (e : error) (s : state)
    : result value :=
  if code_is "ENOENT" e && negb required then Ret VNull s else Throw e s.

(** [loadJSON( path, env, required )], lines 127-142, over the
    resolver it calls.  The promise of [resolve] is returned without
    [await], so its rejection does not pass through the [catch]
    block. *)
Definition loadJSON_with
    (resolve : value -> string -> gmap string string -> state -> result value)
    (w : world) (path : string) (env : gmap string string) (required : bool)
    (s : state) : result value :=
  let dirname := Path.dirname path in
  let s := State (heap s) (reads s ++ [path]) in
  match readFile w path with
  | inl e => loadJSON_catch required e s
  | inr json =>
      match json_parse w json with
      | None => loadJSON_catch required SyntaxError s
      | Some j =>
          let '(data, h) := alloc j (heap s) in
          resolve data dirname env (State h (reads s))
      end
  end.

(** [for( let name in value ) value[name] = await resolve( value[name], ... )]
    over the property names of the object at [l]. *)
Fixpoint resolve_props (resolve : value -> state -> result value)
    (l : nat) (names : list string) (s : state) : result unit :=
  match names with
  | [] => Ret tt s
  | name :: rest =>
      match resolve (get_prop (heap s) l name) s with
      | Ret v s1 =>
          resolve_props resolve l rest
            (State (set_prop (heap s1) l name v) (reads s1))
      | Throw e s1 => Throw e s1
      | NoOutcome => NoOutcome
      end
  end.

(** The link of a string value, lines 158-170: the path handed to
    [loadJSON] and the [required] flag. *)
Definition link (w : world) (value : string) (dirname : string)
    (env : gmap string string) : string * bool :=
  let path := substring1 value in
  let path := Expander.replace path env in
  let required := false in
  let '(path, required) :=
    if first_is "!" path then (substring1 path, true) else (path, required) in
  let path := Path.resolve (cwd w) dirname (substring1 value) in
  (path, required).

(** The load a link starts when it is one of the items that are
    resolved together: the path handed to [loadJSON] and the
    [required] flag, and the path as the entry of the trace. *)
Definition start_link (w : world) (env : gmap string string)
    (dirname : string) (value : string) : (string * bool) * string :=
  let '(path, required) := link w value dirname env in
  ((path, required), path).

(** What the [catch] block of [loadJSON] makes of an error. *)
Definition catch {C : Type} (required : bool) (e : error)
    : Tasks.completion C :=
  if code_is "ENOENT" e && negb required then Tasks.CNull else Tasks.CThrow e.

(** What such a load comes to: [loadJSON] from the answer of
    [readFile] to its call of [resolve]. *)
Definition complete (w : world) (l : string * bool) : Tasks.completion string :=
  let '(path, required) := l in
  match readFile w path with
  | inl e => catch required e
  | inr json =>
      match json_parse w json with
      | None => catch required SyntaxError
      | Some j => Tasks.CDoc j (Path.dirname path)
      end
  end.

(** [resolve( value, dirname, env )], lines 154-187: a string
    ([typeof] ['string']), [null], an array or an object ([typeof]
    ['object']; [for ... in] over [null] does nothing), or anything
    else.  The items of an array are resolved together
    ([Tasks.all]), in the turns of the world, and the array of
    [Promise.all] is a new one.  Every call outside an array spends
    one unit of fuel. *)
Fixpoint resolve (fuel : nat) (w : world) (value : value) (dirname : string)
    (env : gmap string string) (s : state) : result Store.value :=
  match fuel with
  | 0 => NoOutcome
  | S fuel' =>
      match value with
      | VStr str =>
          if first_is "@" str then
            let '(path, required) := link w str dirname env in
            loadJSON_with (resolve fuel' w) w path env required s
          else Ret value s
      | VNull => Ret value s
      | VRef l =>
          match heap s !! l with
          | Some (CArr items) =>
              Tasks.all (start_link w env) (complete w)
                (schedule w (size (heap s))) items dirname s
          | Some (CObj fields) =>
              match resolve_props (fun v => resolve fuel' w v dirname env) l
                      (map fst fields) s with
              | Ret _ s1 => Ret value s1
              | Throw e s1 => Throw e s1
              | NoOutcome => NoOutcome
              end
          | None => Ret value s
          end
      | _ => Ret value s
      end
  end.

(** [loadJSON( path, env, required )]. *)
Definition loadJSON (fuel : nat) (w : world) (path : string)
    (env : gmap string string) (required : bool) (s : state) : result value :=
  loadJSON_with (resolve fuel w) w path env required s.

End Index.

(** ** The loader and the link resolver: the revision of lib/index.js
    over lib/source.js (src/unnamed/part_001, lines 1-126) *)

Module IndexSrc.

Import Js JsString Store.

(** The link of a string value, lines 71-78: the path handed to
    [source.resolve] and the [required] flag. *)
Definition link (value : string) (env : gmap string string) : string * bool :=
  let path := substring1 value in
  let path := Expander.replace path env in
  let required := false in
  if first_is "!" path then (substring1 path, true) else (path, required).

(** [loadJSON( ref, env, required )], lines 38-53, over the resolver
    it calls; the [catch] block is the one of [Index]. *)
Definition loadJSON_with
    (resolve : value -> Source.t -> gmap string string -> state -> result value)
    (w : world) (r : Source.ref) (env : gmap string string) (required : bool)
    (s : state) : result value :=
  match Source.parseSource w r false with
  | Fulfilled source =>
      let s := State (heap s) (reads s ++ [Source.toString source]) in
      match Source.read w source with
      | Fulfilled json =>
          match json_parse w json with
          | None => Index.loadJSON_catch required Index.SyntaxError s
          | Some j =>
              let '(data, h) := alloc j (heap s) in
              resolve data source env (State h (reads s))
          end
      | Rejected e => Index.loadJSON_catch required e s
      | Pending => NoOutcome
      end
  | Rejected e => Index.loadJSON_catch required e s
  | Pending => NoOutcome
  end.

(** The load a link starts when it is one of the items that are
    resolved together: the descriptor handed to [loadJSON] and the
    [required] flag, and the text of the descriptor as the entry of
    the trace. *)
Definition start_link (env : gmap string string) (source : Source.t)
    (value : string) : (Source.t * bool) * string :=
  let '(path, required) := link value env in
  let _source := Source.resolve source (Source.RefString path) in
  ((_source, required), Source.toString _source).

(** What such a load comes to: [loadJSON] from the answer of
    [source.read()] to its call of [resolve]. *)
Definition complete (w : world) (l : Source.t * bool)
    : Tasks.completion Source.t :=
  let '(source, required) := l in
  match Source.read w source with
  | Fulfilled json =>
      match json_parse w json with
      | None => Index.catch required Index.SyntaxError
      | Some j => Tasks.CDoc j source
      end
  | Rejected e => Index.catch required e
  | Pending => Tasks.CPending
  end.

(** [resolve( value, source, env )], lines 65-99; the array and
    object cases are those of [Index]. *)
Fixpoint resolve (fuel : nat) (w : world) (value : value) (source : Source.t)
    (env : gmap string string) (s : state) : result Store.value :=
  match fuel with
  | 0 => NoOutcome
  | S fuel' =>
      match value with
      | VStr str =>
          if first_is "@" str then
            let '(path, required) := link str env in
            let _source := Source.resolve source (Source.RefString path) in
            loadJSON_with (resolve fuel' w) w (Source.RefSource _source) env
              required s
          else Ret value s
      | VNull => Ret value s
      | VRef l =>
          match heap s !! l with
          | Some (CArr items) =>
              Tasks.all (start_link env) (complete w)
                (schedule w (size (heap s))) items source s
          | Some (CObj fields) =>
              match Index.resolve_props (fun v => resolve fuel' w v source env) l
                      (map fst fields) s with
              | Ret _ s1 => Ret value s1
              | Throw e s1 => Throw e s1
              | NoOutcome => NoOutcome
              end
          | None => Ret value s
          end
      | _ => Ret value s
      end
  end.

(** [loadJSON( ref, env, required )]. *)
Definition loadJSON (fuel : nat) (w : world) (r : Source.ref)
    (env : gmap string string) (required : bool) (s : state) : result value :=
  loadJSON_with (resolve fuel w) w r env required s.

End IndexSrc.

(** ** The expander as the specification words it

    Modelled on the specification (section 4.5), for comparison with
    [Expander.replace]: the text is scanned from the left, the first
    token is replaced by the value bound to its name, or by the empty
    string, and the scan goes on after the token. *)

Module SpecExpander.

Import Expander.

(** The name of the token at the head of [s] and its length. *)
Definition token_here (s : string) : option (string * nat) :=
  match s with
  | String "$" (String "{" s1) =>
      match span_word s1 with
      | (String c w, String "}" _) =>
          Some (String c w, 3 + String.length (String c w))
      | _ => None
      end
  | _ => None
  end.

(** [skip] counts the characters of the current token that are still
    to be passed over. *)
Fixpoint expand_from (skip : nat) (env : gmap string string) (s : string)
    : string :=
  match s with
  | EmptyString => EmptyString
  | String c t =>
      match skip with
      | S k => expand_from k env t
      | 0 =>
          match token_here s with
          | Some (name, len) => env_get env name +:+ expand_from (len - 1) env t
          | None => String c (expand_from 0 env t)
          end
      end
  end.

Definition expand (text : string) (env : gmap string string) : string :=
  expand_from 0 env text.

End SpecExpander.

(** ** Worlds and stores used by the examples

    File contents are written with ['] for the double quote; the table
    [demo_parse] is [JSON.parse] on these texts. *)

Module Demo.

Import Js Store.

Definition ENOENT : error :=
  Error "Error" (Some "ENOENT") "ENOENT: no such file or directory".

Definition EACCES : error :=
  Error "Error" (Some "EACCES") "EACCES: permission denied".

Definition demo_files : list (string * string) :=
  [ ("/x/a.json", "{'b': '@b.json'}");
    ("/x/b.json", "{'c': '@c.json'}");
    ("/x/c.json", "{'v': 1}");
    ("/x/null.json", "null");
    ("/x/bad.json", "{'v': ");
    ("/x/opt.json", "{'m': '@missing.json'}");
    ("/x/req.json", "{'m': '@!c.json'}");
    ("/x/arr.json", "[1, {'v': 1}]");
    ("/x/deep.json", "{'d': '@bad.json'}") ].

Definition demo_parse (text : string) : option json :=
  if String.eqb text "{'b': '@b.json'}" then Some (JObj [("b", JStr "@b.json")])
  else if String.eqb text "{'c': '@c.json'}" then Some (JObj [("c", JStr "@c.json")])
  else if String.eqb text "{'v': 1}" then Some (JObj [("v", JNum 1)])
  else if String.eqb text "null" then Some JNull
  else if String.eqb text "{'m': '@missing.json'}"
    then Some (JObj [("m", JStr "@missing.json")])
  else if String.eqb text "{'m': '@!c.json'}" then Some (JObj [("m", JStr "@!c.json")])
  else if String.eqb text "[1, {'v': 1}]"
    then Some (JArr [JNum 1; JObj [("v", JNum 1)]])
  else if String.eqb text "{'d': '@bad.json'}" then Some (JObj [("d", JStr "@bad.json")])
  else None.

Fixpoint lookup_file (files : list (string * string)) (path : string)
    : error + string :=
  match files with
  | [] => inl ENOENT
  | (p, text) :: rest =>
      if String.eqb p path then inr text else lookup_file rest path
  end.

(** A git that answers every command with a fatal message and exit
    status 128. *)
Definition git_fails (cmd : string) (args : list string) (cwd : string)
    : list proc_event :=
  [StderrData "fatal: not a git repository"; CloseEv (Some 128%Z)].

(** A machine without git: the child process cannot be spawned. *)
Definition git_missing (cmd : string) (args : list string) (cwd : string)
    : list proc_event :=
  [ErrorEv (Error "Error" (Some "ENOENT") "spawn git ENOENT")].

(** A bare repository: [rev-parse --is-bare-repository] prints [true]
    and a line feed. *)
Definition git_bare (cmd : string) (args : list string) (cwd : string)
    : list proc_event :=
  [StdoutData "tr"; StdoutData ("ue" +:+ String "010" EmptyString);
   CloseEv (Some 0%Z)].

Definition demo_world : world :=
  World "/home" (lookup_file demo_files) git_fails demo_parse.

Definition s0 : state := State ∅ [].

Definition env_ab : gmap string string := <["a" := "x"]> (<["b" := "y"]> ∅).

End Demo.

(** ** What a git command wrote, read off its events *)

Module GitTrace.

Import Js.

(** The events before the one that settles the promise carry data only. *)
Definition is_data (ev : proc_event) : bool :=
  match ev with
  | StdoutData _ | StderrData _ => true
  | _ => false
  end.

(** What the child process wrote on its standard output, and on its
    standard error. *)
Fixpoint stdout_of (events : list proc_event) : string :=
  match events with
  | StdoutData d :: rest => d +:+ stdout_of rest
  | _ :: rest => stdout_of rest
  | [] => EmptyString
  end.

Fixpoint stderr_of (events : list proc_event) : string :=
  match events with
  | StderrData d :: rest => d +:+ stderr_of rest
  | _ :: rest => stderr_of rest
  | [] => EmptyString
  end.

(** [commitish || 'master']. *)
Definition revision_or_master (commitish : option string) : string :=
  match commitish with
  | Some (String c t) => String c t
  | _ => "master"
  end.

End GitTrace.

(** ** Paths written as lists of segments *)

Module PathShape.

Import JsString.

(** A segment that is a plain name: not empty, without slash and
    without [#], and neither [.] nor [..]. *)
Definition plain (seg : string) : bool :=
  negb (String.eqb seg "") && negb (contains "/" seg)
  && negb (contains "#" seg)
  && negb (String.eqb seg ".") && negb (String.eqb seg "..").

(** The absolute path with the segments [segs]. *)
Definition abs_path (segs : list string) : string :=
  "/" +:+ join "/" segs.

End PathShape.

(** ** What a run of the loader read *)

Module Trace.

Import Js Store.

(** The file at [path] can be read and [JSON.parse] throws on its
    text. *)
Definition malformed (w : world) (path : string) : bool :=
  match Index.readFile w path with
  | inr text =>
      match json_parse w text with
      | None => true
      | Some _ => false
      end
  | inl _ => false
  end.

(** The paths read between the state [s] and the state [s']. *)
Definition new_reads (s s' : state) : list string :=
  skipn (length (reads s)) (reads s').

(** The error [e] comes from the file at [path]: the file does not
    parse and [e] is the [SyntaxError] of [JSON.parse], or the file
    cannot be read and [e] is the error of the read. *)
Definition caused (w : world) (e : error) (path : string) : Prop :=
  (malformed w path = true /\ e = Index.SyntaxError)
  \/ Index.readFile w path = inl e.

(** A run that returns has read well-formed files only; a run that
    throws has an error that comes from one of the files it read. *)
Definition sound_run {A : Type} (w : world) (s : state) (r : result A) : Prop :=
  match r with
  | Ret _ s' =>
      exists ext, reads s' = reads s ++ ext
                  /\ Forall (fun p => malformed w p = false) ext
  | Throw e s' =>
      exists ext p, reads s' = reads s ++ ext /\ In p ext /\ caused w e p
  | NoOutcome => True
  end.

(** The same for tasks that run together, at any moment of the run
    from the state [s0]: the loads under way are in the trace, the
    error of a task that is rejected comes from a file of the trace,
    and as long as no task is rejected every file of the trace is
    well-formed or still being read. *)
Definition sound_tasks (w : world) (s0 : state)
    (t : Tasks.task string (string * bool)) (s : state) : Prop :=
  exists ext,
    reads s = reads s0 ++ ext
    /\ Forall (fun l => In l.1 ext) (Tasks.loads t)
    /\ Forall (fun e => exists p, In p ext /\ caused w e p) (Tasks.throws t)
    /\ (Tasks.throws t = [] ->
        Forall (fun p => malformed w p = false
                         \/ In p (map fst (Tasks.loads t))) ext).

End Trace.

(** ** What a run of the resolver leaves of the objects it found *)

Module Shape.

Import Store.

(** Every object of [h] is an object of [h'] at the same location and
    with the same property names in the same order, and every array of
    [h] is in [h'] as it was. *)
Definition kept (h h' : gmap nat cell) : Prop :=
  forall l,
    match h !! l with
    | Some (CObj fields) =>
        exists fields', h' !! l = Some (CObj fields')
                        /\ map fst fields' = map fst fields
    | Some (CArr items) => h' !! l = Some (CArr items)
    | None => True
    end.

(** A resolver that keeps the objects it finds. *)
Definition keeps (f : value -> state -> result value) : Prop :=
  forall v s r s', f v s = Ret r s' -> kept (heap s) (heap s').

(** The loops of the task that wait for a property have their object
    in the store, and the name they wait for and the names still to
    come are property names of it. *)
Definition waits {C L : Type} (h : gmap nat cell) (t : Tasks.task C L)
    : Prop :=
  Forall (fun fr : nat * string * list string =>
            exists fields,
              h !! fr.1.1 = Some (CObj fields)
              /\ forall x, In x (fr.1.2 :: fr.2) -> In x (map fst fields))
    (Tasks.frames t).

(** [Promise.all] over [n] items, at any time of the run that started
    in the store [h0]: as many items as at the start, or the array of
    their values at a location that was not in use, or an error. *)
Definition gathers {C L : Type} (h0 : gmap nat cell) (n : nat)
    (t : Tasks.task C L) (s : state) : Prop :=
  match t with
  | Tasks.TAll ts => length ts = n
  | Tasks.TRet v =>
      exists l' vs, v = VRef l' /\ h0 !! l' = None
                    /\ heap s !! l' = Some (CArr vs) /\ length vs = n
  | Tasks.TThrow _ => True
  | _ => False
  end.

End Shape.

(** ** The part of the store a value reaches *)

Module Footprint.

Import Store.

(** The value refers into the set [F] of locations, if it refers to
    anything. *)
Definition value_in (F : gset nat) (v : value) : Prop :=
  match v with
  | VRef l => l ∈ F
  | _ => True
  end.

Definition cell_in (F : gset nat) (c : cell) : Prop :=
  match c with
  | CObj fields => Forall (value_in F) (map snd fields)
  | CArr items => Forall (value_in F) items
  end.

(** Every location of [F] holds a cell, and the cells of [F] refer
    into [F] only. *)
Definition closed (h : gmap nat cell) (F : gset nat) : Prop :=
  forall l, l ∈ F -> exists c, h !! l = Some c /\ cell_in F c.

(** A run from the store [h] to the store [h'] that starts within [F]
    and ends within [F']: [F'] is [F] and cells that are new, and the
    cells of [h] outside [F] are as they were. *)
Definition frame (h : gmap nat cell) (F : gset nat) (h' : gmap nat cell)
    (F' : gset nat) : Prop :=
  F ⊆ F'
  /\ (forall l, l ∈ F' -> l ∉ F -> h !! l = None)
  /\ closed h' F'
  /\ (forall l, l ∉ F -> is_Some (h !! l) -> h' !! l = h !! l).

(** A resolver that stays within the part of the store its argument
    reaches. *)
Definition framed (f : value -> state -> result value) : Prop :=
  forall v s r s' F,
    f v s = Ret r s' -> value_in F v -> closed (heap s) F ->
    exists F', frame (heap s) F (heap s') F' /\ value_in F' r.

(** The values the task holds refer into [F]. *)
Definition task_in {C L : Type} (F : gset nat) (t : Tasks.task C L) : Prop :=
  Forall (value_in F) (Tasks.values t).

(** The loop [for ... in] over the properties [before] of the object
    at [l], as a run went through it from the state [s] to the state
    [s']: for the value [v] of the first property the call of the
    resolver made in the state [s] returned [r] and left the state
    [s1] ([R v s r s1]); [r] was stored in the property, and the loop
    went on from the state so reached.  [after] is the list of the
    properties with the values stored. *)
Inductive written (R : value -> state -> value -> state -> Prop) (l : nat)
  : list (string * value) -> state ->
    list (string * value) -> state -> Prop :=
| written_nil s : written R l [] s [] s
| written_cons k v r s s1 rest rest' s' :
    R v s r s1 ->
    written R l rest (State (set_prop (heap s1) l k r) (reads s1)) rest' s' ->
    written R l ((k, v) :: rest) s ((k, r) :: rest') s'.

(** The call of a resolver [f] in the state [s] returned [r] and left
    the state [s1]. *)
Definition returned (f : value -> state -> result value)
    (v : value) (s : state) (r : value) (s1 : state) : Prop :=
  f v s = Ret r s1.

(** What [resolve] of src/lib/index.js, called in the state [s] with
    [fuel] calls to spend, returned for the value [v] of a property:
    for a link, what [loadJSON] returned for the file of the link;
    for an object or an array, what the call for it returned; any
    other value as it is, the state left as it was. *)
Inductive resolved (fuel : nat) (w : Js.world) (dirname : string)
    (env : gmap string string) : value -> state -> value -> state -> Prop :=
| resolved_link str path required fuel' r s s1 :
    JsString.first_is "@" str = true ->
    fuel = S fuel' ->
    Index.link w str dirname env = (path, required) ->
    Index.loadJSON fuel' w path env required s = Ret r s1 ->
    resolved fuel w dirname env (VStr str) s r s1
| resolved_ref l r s s1 :
    Index.resolve fuel w (VRef l) dirname env s = Ret r s1 ->
    resolved fuel w dirname env (VRef l) s r s1
| resolved_string str s :
    JsString.first_is "@" str = false ->
    resolved fuel w dirname env (VStr str) s (VStr str) s
| resolved_plain v s :
    match v with VStr _ | VRef _ => False | _ => True end ->
    resolved fuel w dirname env v s v s.

End Footprint.

(** ** The loop of [Store.alloc] over the members of an object *)

Module AllocLoops.

Import Js Store.

(** The inner loop of [Store.alloc] for an object, by name. *)
Definition alloc_fields :
    list (string * json) -> list (string * value) -> gmap nat cell ->
    list (string * value) * gmap nat cell :=
  fix alloc_fields (js : list (string * json)) (acc : list (string * value))
      (h : gmap nat cell) :=
    match js with
    | [] => (acc, h)
    | (k, x) :: rest =>
        let '(v, h1) := alloc x h in
        alloc_fields rest (set_field acc k v) h1
    end.

(** The inner loop of [Store.alloc] for an array, by name. *)
Definition alloc_items :
    list json -> gmap nat cell -> list value * gmap nat cell :=
  fix alloc_items (js : list json) (h : gmap nat cell) :=
    match js with
    | [] => ([], h)
    | x :: rest =>
        let '(v, h1) := alloc x h in
        let '(vs, h2) := alloc_items rest h1 in
        (v :: vs, h2)
    end.

End AllocLoops.

(** ** What the items of an array come to

    [Promise.all] gives the values of the items in the order of the
    items, whatever the order in which the calls were served.  What
    the value at the place of an item is depends on the item alone:
    the relation [answers] says what, and [tracks] is the same for a
    call that is still under way. *)

Module Items.

Import Js Store Tasks Shape.

(** A value [resolve] returns as it is: anything but a link, an
    object or an array. *)
Definition plain (v : value) : Prop :=
  match v with
  | VStr str => JsString.first_is "@" str = false
  | VRef _ => False
  | _ => True
  end.

(** A reference refers to a cell of the store. *)
Definition live (h : gmap nat cell) (v : value) : Prop :=
  match v with
  | VRef l => is_Some (h !! l)
  | _ => True
  end.

(** The value of a document that is no array and no object. *)
Definition prim (j : json) : option value :=
  match j with
  | JNull => Some VNull
  | JBool b => Some (VBool b)
  | JNum n => Some (VNum n)
  | JStr s => Some (VStr s)
  | JArr _ | JObj _ => None
  end.

(** An object with the property names [names], and an array of [n]
    items. *)
Definition is_object (h : gmap nat cell) (l : nat) (names : list string)
    : Prop :=
  exists fields,
    h !! l = Some (CObj fields)
    /\ forall k, In k (map fst fields) <-> In k names.

Definition is_array (h : gmap nat cell) (l : nat) (n : nat) : Prop :=
  exists vs, h !! l = Some (CArr vs) /\ length vs = n.

(** The call of [resolve] for the object at [l], at any time: in the
    loop over the properties of that object, or returned with the
    reference it was given, or rejected. *)
Definition loops {C L : Type} (l : nat) (t : task C L) : Prop :=
  match t with
  | TProps l' _ _ _ _ => l' = l
  | TRet v => v = VRef l
  | TThrow _ => True
  | _ => False
  end.

Section Answers.

Context {C L : Type}.
Variable start_link : C -> string -> L * string.
Variable complete : L -> completion C.

(** The store the array was found in. *)
Variable h0 : gmap nat cell.

(** [answers h' v c r]: [r] is a value the call of [resolve] for the
    item [v], at the place [c], may return, [h'] being the store when
    [Promise.all] is fulfilled.  An item that is no link and no
    reference, as it is; a reference to an object, as it is; for a
    reference to an array, a reference to a new array of as many
    items; for a link, [null] when the load of its file came to
    [null], and else what the document of its file comes to: for a
    document that is no object and no array what [resolve] makes of
    its value (which may be a link again), for an object a reference
    to a new object with the property names of the document, for an
    array a reference to a new array of as many items. *)
Inductive answers (h' : gmap nat cell) : value -> C -> value -> Prop :=
| answers_plain v c :
    plain v -> answers h' v c v
| answers_object l fields c :
    h0 !! l = Some (CObj fields) -> answers h' (VRef l) c (VRef l)
| answers_array l items c l' :
    h0 !! l = Some (CArr items) ->
    h0 !! l' = None -> is_array h' l' (length items) ->
    answers h' (VRef l) c (VRef l')
| answers_null str c :
    JsString.first_is "@" str = true ->
    complete (start_link c str).1 = CNull ->
    answers h' (VStr str) c VNull
| answers_doc str c j c' v r :
    JsString.first_is "@" str = true ->
    complete (start_link c str).1 = CDoc j c' ->
    prim j = Some v -> answers h' v c' r ->
    answers h' (VStr str) c r
| answers_doc_object str c members c' l :
    JsString.first_is "@" str = true ->
    complete (start_link c str).1 = CDoc (JObj members) c' ->
    h0 !! l = None -> is_object h' l (map fst members) ->
    answers h' (VStr str) c (VRef l)
| answers_doc_array str c js c' l :
    JsString.first_is "@" str = true ->
    complete (start_link c str).1 = CDoc (JArr js) c' ->
    h0 !! l = None -> is_array h' l (length js) ->
    answers h' (VStr str) c (VRef l).

(** [tracks s v c t]: [t] is a state the call of [resolve] for the
    item [v], at the place [c], may be in, [s] being the state of the
    run. *)
Inductive tracks (s : state) : value -> C -> task C L -> Prop :=
| tracks_run v c :
    live h0 v -> tracks s v c (TRun v c)
| tracks_throw v c e :
    tracks s v c (TThrow e)
| tracks_plain v c :
    plain v -> tracks s v c (TRet v)
| tracks_object l fields c t :
    h0 !! l = Some (CObj fields) -> loops l t -> tracks s (VRef l) c t
| tracks_array l items c t :
    h0 !! l = Some (CArr items) -> gathers h0 (length items) t s ->
    tracks s (VRef l) c t
| tracks_load str c :
    JsString.first_is "@" str = true ->
    tracks s (VStr str) c (TLoad (start_link c str).1)
| tracks_null str c :
    JsString.first_is "@" str = true ->
    complete (start_link c str).1 = CNull ->
    tracks s (VStr str) c (TRet VNull)
| tracks_doc str c j c' v t :
    JsString.first_is "@" str = true ->
    complete (start_link c str).1 = CDoc j c' ->
    prim j = Some v -> tracks s v c' t ->
    tracks s (VStr str) c t
| tracks_doc_object str c members c' l t :
    JsString.first_is "@" str = true ->
    complete (start_link c str).1 = CDoc (JObj members) c' ->
    h0 !! l = None -> is_object (heap s) l (map fst members) ->
    t = TRun (VRef l) c' \/ loops l t ->
    tracks s (VStr str) c t
| tracks_doc_array str c js c' t :
    JsString.first_is "@" str = true ->
    complete (start_link c str).1 = CDoc (JArr js) c' ->
    (exists l, t = TRun (VRef l) c' /\ h0 !! l = None
               /\ is_array (heap s) l (length js))
    \/ gathers h0 (length js) t s ->
    tracks s (VStr str) c t.

(** [Promise.all] over the items [items], all at the place [c]. *)
Definition tracks_all (items : list value) (c : C) (t : task C L)
    (s : state) : Prop :=
  match t with
  | TAll ts => Forall2 (fun i t => tracks s i c t) items ts
  | TRet v =>
      exists l' vs,
        v = VRef l' /\ h0 !! l' = None /\ heap s !! l' = Some (CArr vs)
        /\ Forall2 (fun i r => answers (heap s) i c r) items vs
  | TThrow _ => True
  | _ => False
  end.

End Answers.

End Items.

(** ** Worlds in which two reads complete in one order and in the other *)

Module DemoRace.

Import Js Store.

(** The world of the examples with other turns.  Under
    [Promise.all] over two links the first two turns go to the first
    item and to the second, in the order of the items: the two reads
    are started.  From then on the turns go to the first of the items
    that are not settled ([first_first]: the read of the first link
    completes first) or to the second of them ([second_first]). *)
Definition first_first : world :=
  MkWorld (cwd Demo.demo_world) (fs_readFile Demo.demo_world)
    (spawn Demo.demo_world) (json_parse Demo.demo_world)
    (fun _ => 0 :: 1 :: repeat 0 16).

Definition second_first : world :=
  MkWorld (cwd Demo.demo_world) (fs_readFile Demo.demo_world)
    (spawn Demo.demo_world) (json_parse Demo.demo_world)
    (fun _ => 0 :: repeat 1 16).

End DemoRace.

(** ** A world with a repository, used by the examples *)

Module DemoRepo.

Import Js Store.

(** What [git show] prints, per revision and path. *)
Definition repo_files : list (string * string) :=
  [ ("master:/conf/a.json", "{'b': '@b.json'}");
    ("master:/conf/b.json", "{'v': 1}");
    ("v2:/conf/b.json", "{'c': '@c.json'}");
    ("v2:/conf/c.json", "{'v': 1}");
    ("master:/conf/opt.json", "{'m': '@missing.json'}") ].

Fixpoint show (files : list (string * string)) (spec : string)
    : list proc_event :=
  match files with
  | [] => [StderrData "fatal: path does not exist"; CloseEv (Some 128%Z)]
  | (p, text) :: rest =>
      if String.eqb p spec then [StdoutData text; CloseEv (Some 0%Z)]
      else show rest spec
  end.

(** A git that finds the work tree [/repo] from every directory. *)
Definition git_repo (cmd : string) (args : list string) (cwd : string)
    : list proc_event :=
  match args with
  | ["rev-parse"; "--show-toplevel"] =>
      [StdoutData ("/repo" +:+ String "010" EmptyString); CloseEv (Some 0%Z)]
  | ["show"; spec] => show repo_files spec
  | _ => Demo.git_fails cmd args cwd
  end.

(** A bare repository: [rev-parse --is-bare-repository] prints
    [true], and every command that needs a work tree fails. *)
Definition git_bare_only (cmd : string) (args : list string) (cwd : string)
    : list proc_event :=
  match args with
  | ["rev-parse"; "--is-bare-repository"] =>
      [StdoutData ("true" +:+ String "010" EmptyString); CloseEv (Some 0%Z)]
  | _ =>
      [StderrData "fatal: this operation must be run in a work tree";
       CloseEv (Some 128%Z)]
  end.

Definition bare_world : world :=
  World "/srv" (Demo.lookup_file Demo.demo_files) git_bare_only
    Demo.demo_parse.

Definition repo_world : world :=
  World "/repo/conf" (Demo.lookup_file Demo.demo_files) git_repo
    Demo.demo_parse.

End DemoRepo.

(** ** Documents without links *)

Module Inert.

Import Js JsString Store.

(** The value holds no link and no array, to the depth [n]: it is a
    string that does not begin with [@], or an object whose property
    values are such values to the depth [n - 1], or neither a string
    nor a reference. *)
Fixpoint inert (n : nat) (h : gmap nat cell) (v : value) : bool :=
  match n with
  | 0 => false
  | S n' =>
      match v with
      | VStr str => negb (first_is "@" str)
      | VRef l =>
          match h !! l with
          | Some (CObj fields) => forallb (fun kv => inert n' h kv.2) fields
          | Some (CArr _) => false
          | None => true
          end
      | _ => true
      end
  end.

End Inert.

(** ** A world with a document that links to itself *)

Module DemoLoop.

Import Js Store.

Definition loop_files : list (string * string) :=
  [ ("/x/loop.json", "{'self': '@loop.json'}") ].

Definition loop_parse (text : string) : option json :=
  if String.eqb text "{'self': '@loop.json'}"
  then Some (JObj [("self", JStr "@loop.json")])
  else None.

Definition loop_world : world :=
  World "/home" (Demo.lookup_file loop_files) Demo.git_fails loop_parse.

End DemoLoop.

(** ** The class [Source] of src/lib/index.js (lines 19-58)

    A source with a scheme, a path and a fragment.  The class is not
    exported and the functions of the file do not use it. *)

Module SchemeSource.

Import Js JsString Expander.

(** The fields of a [Source]; [None] is [undefined]. *)
Record t := Make {
  scheme : option string;
  path : string;
  fragment : option string
}.

(** [${x}] in a template literal. *)
Definition show (x : option string) : string :=
  match x with
  | Some s => s
  | None => "undefined"
  end.

(** [a == b] for two values that are strings or [undefined]. *)
Definition loose_eq (a b : option string) : bool :=
  match a, b with
  | Some x, Some y => String.eqb x y
  | None, None => true
  | _, _ => false
  end.

(** [resolve( ref )], lines 27-45. *)
Definition resolve (w : world) (this ref : t) : error + t :=
  if first_is "/" (path this) then inr this
  else if loose_eq (scheme this) (scheme ref) then
    inr (Make (scheme this) (Path.resolve (cwd w) (path ref) (path this))
           (fragment this))
  else if loose_eq (scheme this) (Some "file:") then
    inr (Make (scheme this) (Path.resolve (cwd w) EmptyString (path this))
           (fragment this))
  else
    inl (Error "Error" None
           ("Can't resolve " +:+ show (scheme this) +:+ " source against "
            +:+ show (scheme ref) +:+ " reference")).

(** The first group of the regular expression of [parseSource], a
    greedy run of word characters and a colon: the scheme, colon
    included, and what follows it.  A shorter run is never followed
    by a colon. *)
Definition match_scheme (s : string) : option (string * string) :=
  match span_word s with
  | (String c w, String ":" rest) => Some (String c w +:+ ":", rest)
  | _ => None
  end.

(** The second group, a greedy run of characters other than [#]:
    the longest such run and what follows it. *)
Fixpoint span_path (s : string) : string * string :=
  match s with
  | EmptyString => (EmptyString, EmptyString)
  | String c t =>
      if Ascii.eqb c "#" then (EmptyString, s)
      else let (p, r) := span_path t in (String c p, r)
  end.

(** The second and third groups and the final [$]: a non-empty path,
    then the end of the text, or a [#] and a text without line
    terminator up to the end.  A shorter path is never followed by a
    [#] or by the end. *)
Definition match_rest (s : string) : option (string * option string) :=
  match span_path s with
  | (String c p, EmptyString) => Some (String c p, None)
  | (String c p, String d f) =>
      if dot_star_eol f then Some (String c p, Some (String d f)) else None
  | _ => None
  end.

(** [exec] of the regular expression of [parseSource] (line 52): the
    optional scheme is tried first, and given up when the rest does
    not match after it. *)
Definition exec_source (s : string)
    : option (option string * string * option string) :=
  let without :=
    match match_rest s with
    | Some (p, f) => Some (None, p, f)
    | None => None
    end in
  match match_scheme s with
  | Some (sch, rest) =>
      match match_rest rest with
      | Some (p, f) => Some (Some sch, p, f)
      | None => without
      end
  | None => without
  end.

(** The argument of [parseSource]: a [Source] or a text. *)
Inductive arg : Type :=
| ArgSource (s : t)
| ArgString (s : string).

(** [Source.parseSource( source )], lines 48-58. *)
Definition parseSource (a : arg) : error + t :=
  match a with
  | ArgSource s => inr s
  | ArgString s =>
      match exec_source s with
      | Some (sch, p, f) => inr (Make sch p f)
      | None => inl (Error "Error" None ("Invalid source: " +:+ s))
      end
  end.

(** The shapes of the three parts: a scheme is a non-empty word and
    a colon, a path is not empty and holds no [#], a fragment is a
    [#] and a text without line terminator. *)
Definition scheme_ok (sch : option string) : bool :=
  match sch with
  | None => true
  | Some x =>
      match span_word x with
      | (String _ _, String ":" EmptyString) => true
      | _ => false
      end
  end.

Definition path_ok (p : string) : bool :=
  negb (String.eqb p "") && negb (contains "#" p).

Definition fragment_ok (f : option string) : bool :=
  match f with
  | None => true
  | Some (String "#" g) => dot_star_eol g
  | Some _ => false
  end.

(** The text of a source: its parts one after the other. *)
Definition text (sch : option string) (p : string) (f : option string)
    : string :=
  default EmptyString sch +:+ p +:+ default EmptyString f.

End SchemeSource.

(** ** The side a descriptor is read from *)

Module Sides.

Import Js.

(** Two worlds that agree on what the descriptor [source] is read
    from: on the git commands when it has a repository, on the file
    system when it has none; they have the same [JSON.parse] and
    serve the calls that run together in the same order. *)
Definition same_side (w w' : world) (source : Source.t) : Prop :=
  json_parse w = json_parse w'
  /\ schedule w = schedule w'
  /\ if truthy (Source.repoPath source)
     then spawn w = spawn w' else fs_readFile w = fs_readFile w'.

End Sides.

(** * Properties *)

(** ** Strings *)

Section AppendFacts.

Import JsString.

Lemma append_cons (c : ascii) (s t : string) :
  String c s +:+ t = String c (s +:+ t).
Proof. reflexivity. Qed.

Lemma append_nil_l (t : string) : "" +:+ t = t.
Proof. reflexivity. Qed.

Lemma append_nil_r (s : string) : s +:+ "" = s.
Proof.
  induction s as [|c s IH]; [reflexivity|].
  rewrite append_cons. f_equal. exact IH.
Qed.

Lemma append_assoc (a b c : string) : (a +:+ b) +:+ c = a +:+ (b +:+ c).
Proof.
  induction a as [|x a IH]; [reflexivity|].
  rewrite !append_cons. f_equal. exact IH.
Qed.

Lemma length_append (a b : string) :
  String.length (a +:+ b) = String.length a + String.length b.
Proof.
  induction a as [|x a IH]; [reflexivity|].
  rewrite append_cons. simpl. f_equal. exact IH.
Qed.

End AppendFacts.

(** [String.append] does not unfold under [simpl]; these do it. *)
Ltac str_simpl := rewrite ?append_cons, ?append_nil_l.
Ltac str_simpl_in H := rewrite ?append_cons, ?append_nil_l in H.

Section StringFacts.

Import JsString.

Lemma indexOf_ge (c : ascii) (s : string) : (-1 <= indexOf c s)%Z.
Proof.
  induction s as [|d s IH]; simpl; [lia|].
  destruct (Ascii.eqb d c); [lia|].
  destruct (indexOf c s <? 0)%Z eqn:E; lia.
Qed.

Lemma indexOf_none (c : ascii) (s : string) :
  contains c s = false -> indexOf c s = (-1)%Z.
Proof.
  induction s as [|d s IH]; simpl; [reflexivity|].
  intros H. apply orb_false_iff in H as [Hd Hs].
  rewrite Hd, (IH Hs). reflexivity.
Qed.

Lemma indexOf_app (c : ascii) (pre post : string) :
  contains c pre = false ->
  indexOf c (pre +:+ String c post) = Z.of_nat (String.length pre).
Proof.
  induction pre as [|d pre IH]; intros H.
  - str_simpl. simpl. now rewrite Ascii.eqb_refl.
  - str_simpl. simpl in *. apply orb_false_iff in H as [Hd Hs].
    rewrite Hd, (IH Hs).
    destruct (Z.of_nat (String.length pre) <? 0)%Z eqn:E; lia.
Qed.

Lemma contains_split (c : ascii) (s : string) :
  contains c s = true ->
  exists pre post, s = pre +:+ String c post /\ contains c pre = false.
Proof.
  induction s as [|d s IH]; simpl; [discriminate|].
  destruct (Ascii.eqb d c) eqn:E.
  - intros _. apply Ascii.eqb_eq in E as ->. now exists EmptyString, s.
  - simpl. intros H. destruct (IH H) as (pre & post & -> & Hp).
    exists (String d pre), post. split; [reflexivity|].
    simpl. now rewrite E.
Qed.

Lemma string_take_app (pre rest : string) :
  take (String.length pre) (pre +:+ rest) = pre.
Proof.
  induction pre as [|d pre IH]; [now destruct rest|].
  str_simpl. simpl. now rewrite IH.
Qed.

Lemma string_drop_app (pre rest : string) :
  drop (String.length pre) (pre +:+ rest) = rest.
Proof.
  induction pre as [|d pre IH]; [now destruct rest|].
  str_simpl. simpl. exact IH.
Qed.

Lemma substring_prefix (pre rest : string) :
  substring (pre +:+ rest) 0 (Z.of_nat (String.length pre)) = pre.
Proof.
  unfold substring, clamp. rewrite Nat2Z.id, length_append.
  change (Z.to_nat 0) with 0.
  replace (Nat.min (String.length pre) (String.length pre + String.length rest))
    with (String.length pre) by lia.
  rewrite Nat.min_0_l, Nat.max_0_l, Nat.sub_0_r. simpl.
  apply string_take_app.
Qed.

Lemma substring_from_suffix (pre : string) (c : ascii) (post : string) :
  substring_from (pre +:+ String c post) (Z.of_nat (String.length pre) + 1)
  = post.
Proof.
  unfold substring_from, clamp.
  replace (Z.of_nat (String.length pre) + 1)%Z
    with (Z.of_nat (S (String.length pre))) by lia.
  rewrite Nat2Z.id, length_append.
  change (String.length (String c post)) with (S (String.length post)).
  replace (Nat.min (S (String.length pre))
             (String.length pre + S (String.length post)))
    with (String.length (pre +:+ String c EmptyString))
    by (rewrite length_append;
        change (String.length (String c EmptyString)) with 1; lia).
  replace (pre +:+ String c post) with ((pre +:+ String c EmptyString) +:+ post)
    by (rewrite append_assoc; reflexivity).
  apply string_drop_app.
Qed.

End StringFacts.

(** ** The variable expander *)

Section ExpanderFacts.

Import Expander.

#[local] Arguments match_token : simpl never.

Lemma span_word_app (s w r : string) :
  span_word s = (w, r) -> s = w +:+ r.
Proof.
  revert w r. induction s as [|c s IH]; simpl; intros w r H.
  - now inversion H.
  - destruct (is_word_char c).
    + destruct (span_word s) as [w' r'] eqn:E. inversion H; subst.
      rewrite append_cons. f_equal. now apply IH.
    + now inversion H.
Qed.

Lemma span_word_all (s w r : string) :
  span_word s = (w, r) -> all_word w = true.
Proof.
  revert w r. induction s as [|c s IH]; simpl; intros w r H.
  - now inversion H.
  - destruct (is_word_char c) eqn:Hc.
    + destruct (span_word s) as [w' r'] eqn:E. inversion H; subst.
      simpl. rewrite Hc. simpl. eapply IH; eauto.
    + now inversion H.
Qed.

Lemma word_not_terminator (c : ascii) :
  is_word_char c = true -> is_line_terminator c = false.
Proof.
  unfold is_word_char, is_line_terminator. intros H.
  destruct (nat_of_ascii c =? 10) eqn:E1; [apply Nat.eqb_eq in E1; rewrite E1 in H; discriminate|].
  destruct (nat_of_ascii c =? 13) eqn:E2; [apply Nat.eqb_eq in E2; rewrite E2 in H; discriminate|].
  reflexivity.
Qed.

Lemma all_word_dot_star (w : string) :
  all_word w = true -> dot_star_eol w = true.
Proof.
  induction w as [|c w IH]; simpl; [reflexivity|].
  intros H. apply andb_true_iff in H as [Hc Hw].
  rewrite (word_not_terminator _ Hc). simpl. auto.
Qed.

Lemma dot_star_eol_app (a b : string) :
  dot_star_eol (a +:+ b) = dot_star_eol a && dot_star_eol b.
Proof.
  induction a as [|c a IH]; [reflexivity|].
  rewrite append_cons. simpl. rewrite IH. now rewrite andb_assoc.
Qed.

(** A text without line terminator in front of [t] does not hide a
    token of [t] from the regular expression. *)
Lemma exec_var_none_suffix (a t : string) :
  dot_star_eol a = true -> exec_var (a +:+ t) = None -> exec_var t = None.
Proof.
  induction a as [|c a IH]; intros Ha H; [assumption|].
  rewrite append_cons in H. simpl in Ha, H.
  apply andb_true_iff in Ha as [Hc Ha].
  apply negb_true_iff in Hc. rewrite Hc in H.
  destruct (exec_var (a +:+ t)) as [[[l n] t']|] eqn:E; [discriminate|].
  now apply IH.
Qed.

Lemma match_token_inv (s n t : string) :
  match_token s = Some (n, t) ->
  s = "${" +:+ n +:+ "}" +:+ t /\ n <> "" /\ all_word n = true
  /\ dot_star_eol t = true.
Proof.
  unfold match_token. intros H.
  destruct s as [|c1 s]; [discriminate|].
  destruct (ascii_dec c1 "$") as [->|Hne].
  2:{ destruct c1 as [[] [] [] [] [] [] [] []]; try discriminate; congruence. }
  destruct s as [|c2 s]; [discriminate|].
  destruct (ascii_dec c2 "{") as [->|Hne].
  2:{ destruct c2 as [[] [] [] [] [] [] [] []]; try discriminate; congruence. }
  destruct (span_word s) as [w r] eqn:E.
  destruct w as [|c w]; [discriminate|].
  destruct r as [|c3 r]; [discriminate|].
  destruct (ascii_dec c3 "}") as [->|Hne].
  2:{ destruct c3 as [[] [] [] [] [] [] [] []]; try discriminate; congruence. }
  destruct (dot_star_eol r) eqn:Hr; [|discriminate].
  inversion H; subst.
  repeat split.
  - str_simpl. do 2 f_equal. apply span_word_app in E. rewrite E.
    now str_simpl.
  - discriminate.
  - eapply span_word_all; eauto.
  - exact Hr.
Qed.

(** The text after the token that [exec_var] finds holds no further
    token: the match is the one of the last token. *)
Lemma exec_var_trailing (s l n t : string) :
  exec_var s = Some (l, n, t) -> exec_var t = None.
Proof.
  revert l. induction s as [|c s IH]; simpl; intros l H; [discriminate|].
  destruct (if is_line_terminator c then None else exec_var s)
    as [[[l' n'] t']|] eqn:E.
  - destruct (is_line_terminator c); [discriminate E|].
    inversion H; subst. eapply IH; eauto.
  - destruct (match_token (String c s)) as [[n' t']|] eqn:M; [|discriminate].
    inversion H; subst.
    apply match_token_inv in M as (Hs & _ & Hw & _).
    str_simpl_in Hs. inversion Hs; subst.
    simpl in E.
    apply (exec_var_none_suffix ("{" +:+ n +:+ "}") t).
    + str_simpl. simpl.
      rewrite dot_star_eol_app, (all_word_dot_star _ Hw). reflexivity.
    + str_simpl. rewrite append_assoc. str_simpl. exact E.
Qed.

Lemma exec_var_sound (s l n t : string) :
  exec_var s = Some (l, n, t) ->
  s = l +:+ "${" +:+ n +:+ "}" +:+ t /\ n <> "" /\ all_word n = true
  /\ dot_star_eol l = true /\ dot_star_eol t = true.
Proof.
  revert l. induction s as [|c s IH]; simpl; intros l H; [discriminate|].
  destruct (is_line_terminator c) eqn:Hc.
  - destruct (match_token (String c s)) as [[n' t']|] eqn:M; [|discriminate].
    inversion H; subst. apply match_token_inv in M as (Hs & ? & ? & ?).
    str_simpl_in Hs. inversion Hs; subst. discriminate.
  - destruct (exec_var s) as [[[l' n'] t']|] eqn:E.
    + inversion H; subst. destruct (IH _ eq_refl) as (Hs & ? & ? & ? & ?).
      repeat split; auto.
      * str_simpl. now f_equal.
      * simpl. rewrite Hc. auto.
    + destruct (match_token (String c s)) as [[n' t']|] eqn:M; [|discriminate].
      inversion H; subst. apply match_token_inv in M as (Hs & ? & ? & ?).
      repeat split; auto.
Qed.

Lemma replace_loop_step (fuel : nat) (env : gmap string string)
    (result str : string) :
  replace_loop (S (S fuel)) env result str =
  Some (match exec_var str with
        | Some (l, n, t) => ((result +:+ l) +:+ env_get env n) +:+ t
        | None => result +:+ str
        end).
Proof.
  simpl. destruct (exec_var str) as [[[l n] t]|] eqn:E; [|reflexivity].
  rewrite (exec_var_trailing _ _ _ _ E). reflexivity.
Qed.

Lemma exec_var_length (s l n t : string) :
  exec_var s = Some (l, n, t) -> 3 <= String.length s.
Proof.
  intros H. apply exec_var_sound in H as (-> & Hn & _).
  rewrite !length_append. destruct n; [congruence|]. simpl. lia.
Qed.

(** [replace] in closed form. *)
Lemma replace_eq (str : string) (env : gmap string string) :
  replace str env =
  match exec_var str with
  | Some (l, n, t) => l +:+ env_get env n +:+ t
  | None => str
  end.
Proof.
  unfold replace.
  destruct (exec_var str) as [[[l n] t]|] eqn:E.
  - pose proof (exec_var_length _ _ _ _ E) as Hlen.
    destruct (String.length str) as [|k]; [lia|].
    rewrite replace_loop_step, E. str_simpl. now rewrite append_assoc.
  - simpl. now rewrite E.
Qed.

Lemma exec_var_token (s l n t : string) :
  exec_var s = Some (l, n, t) -> 1 <= count_tokens s.
Proof.
  revert l. induction s as [|c s IH]; intros l H; [discriminate|].
  cbn [exec_var count_tokens] in *.
  destruct (if is_line_terminator c then None else exec_var s)
    as [[[l' n'] t']|] eqn:E.
  - destruct (is_line_terminator c); [discriminate E|].
    inversion H; subst. specialize (IH _ E).
    destruct (token_at (String c s)); lia.
  - destruct (match_token (String c s)) as [[n' t']|] eqn:M; [|discriminate].
    assert (token_at (String c s) = true) as ->; [|lia].
    unfold match_token in M. unfold token_at.
    destruct c as [[] [] [] [] [] [] [] []]; try discriminate.
    destruct s as [|c2 s]; [discriminate|].
    destruct c2 as [[] [] [] [] [] [] [] []]; try discriminate.
    destruct (span_word s) as [w r]. destruct w; [discriminate|].
    destruct r as [|c3 r]; [discriminate|].
    destruct c3 as [[] [] [] [] [] [] [] []]; try discriminate. reflexivity.
Qed.

Lemma replace_loop_none (fuel : nat) (env : gmap string string)
    (result str : string) :
  exec_var str = None ->
  replace_loop (S fuel) env result str = Some (result +:+ str).
Proof. intros E. simpl. now rewrite E. Qed.

(** A text in which the regular expression finds nothing is returned
    as it is; this covers every text without token. *)
Lemma replace_no_match (str : string) (env : gmap string string) :
  exec_var str = None -> replace str env = str.
Proof. intros E. now rewrite replace_eq, E. Qed.

(** Claim C2, at a text with two tokens: [replace] expands the last
    token only and leaves the first one in the output, where the
    expander of the specification (first token first, then the
    remainder) expands both. *)
Theorem replace_expands_last_token_only :
  replace "${a}/${b}" Demo.env_ab = "${a}/y"
  /\ SpecExpander.expand "${a}/${b}" Demo.env_ab = "x/y".
Proof. split; vm_compute; reflexivity. Qed.

(** Claim C10: the loop of [replace] leaves after at most one
    substitution per token position of the text (with as many
    iterations as tokens, and one more, it has returned), and a
    substituted value goes to the output as it is: when the regular
    expression matches, with [leading], [name] and [trailing], the
    output is [leading], the value of [name] verbatim, and the
    expansion of [trailing], which is a piece of the original text. *)
Theorem replace_never_rescans (str : string) (env : gmap string string) :
  replace_loop (S (count_tokens str)) env "" str = Some (replace str env)
  /\ match exec_var str with
     | Some (leading, name, trailing) =>
         str = leading +:+ "${" +:+ name +:+ "}" +:+ trailing
         /\ replace str env
            = leading +:+ env_get env name +:+ replace trailing env
     | None => replace str env = str
     end.
Proof.
  rewrite replace_eq.
  destruct (exec_var str) as [[[l n] t]|] eqn:E.
  - pose proof (exec_var_token _ _ _ _ E) as Hc.
    pose proof (exec_var_trailing _ _ _ _ E) as Ht.
    destruct (count_tokens str) as [|k]; [lia|].
    rewrite replace_loop_step, E, (replace_no_match _ _ Ht).
    str_simpl. rewrite append_assoc.
    repeat split. now apply exec_var_sound in E.
  - split; [|reflexivity]. now rewrite replace_loop_none.
Qed.

(** A value that holds a token itself is not expanded again. *)
Example replace_value_with_token :
  replace "p/${a}/q" (<["a" := "${b}"]> Demo.env_ab) = "p/${b}/q".
Proof. vm_compute. reflexivity. Qed.

End ExpanderFacts.

(** ** The match of the regular expression *)

Section RegExpFacts.

Import Expander RegExp.

#[local] Arguments match_token : simpl never.

Lemma span_word_stop (n rest : string) (c : ascii) :
  all_word n = true -> is_word_char c = false ->
  span_word (n +:+ String c rest) = (n, String c rest).
Proof.
  intros Hn Hc. induction n as [|d n IH].
  - str_simpl. simpl. now rewrite Hc.
  - simpl in Hn. apply andb_true_iff in Hn as [Hd Hn].
    str_simpl. simpl. rewrite Hd. now rewrite (IH Hn).
Qed.

Lemma match_token_complete (n t : string) :
  n <> "" -> all_word n = true -> dot_star_eol t = true ->
  match_token ("${" +:+ n +:+ "}" +:+ t) = Some (n, t).
Proof.
  intros Hne Hn Ht. str_simpl. unfold match_token.
  change (String "}" t) with (String "}" t).
  rewrite span_word_stop by (assumption || reflexivity).
  destruct n as [|c n]; [congruence|]. now rewrite Ht.
Qed.

(** Every way to split the text makes the regular expression match. *)
Lemma exec_var_complete (s l n t : string) :
  splits s l n t -> exec_var s <> None.
Proof.
  intros (-> & Hne & Hn & Hl & Ht). induction l as [|c l IH].
  - str_simpl. cbn [exec_var].
    change (String "$" (String "{" (n +:+ String "}" t)))
      with ("${" +:+ n +:+ "}" +:+ t).
    rewrite match_token_complete by assumption.
    match goal with
    | |- match ?x with _ => _ end <> None =>
        now destruct x as [[[? ?] ?]|]
    end.
  - simpl in Hl. apply andb_true_iff in Hl as [Hc Hl].
    apply negb_true_iff in Hc. rewrite (append_cons c l).
    cbn [exec_var]. rewrite Hc. specialize (IH Hl).
    destruct (exec_var (l +:+ "${" +:+ n +:+ "}" +:+ t)) as [[[? ?] ?]|];
      [intros ?; discriminate|congruence].
Qed.

(** The match found is the one with the longest leading text. *)
Lemma exec_var_longest (s l n t l' n' t' : string) :
  exec_var s = Some (l, n, t) -> splits s l' n' t' ->
  String.length l' <= String.length l.
Proof.
  revert l l'. induction s as [|c s IH]; intros l l' H Hs; [discriminate|].
  cbn [exec_var] in H.
  destruct l' as [|c' l'']; [simpl; lia|].
  destruct Hs as (Hs & Hne & Hn & Hl & Ht).
  rewrite (append_cons c' l'') in Hs. injection Hs as <- ->.
  simpl in Hl. apply andb_true_iff in Hl as [Hc Hl].
  apply negb_true_iff in Hc. rewrite Hc in H.
  assert (Hsp : splits (l'' +:+ "${" +:+ n' +:+ "}" +:+ t') l'' n' t')
    by (repeat split; assumption).
  destruct (exec_var (l'' +:+ "${" +:+ n' +:+ "}" +:+ t'))
    as [[[l0 n0] t0]|] eqn:E.
  - injection H as <- <- <-. specialize (IH _ _ eq_refl Hsp). simpl. lia.
  - now apply exec_var_complete in Hsp.
Qed.

(** [exec_var] is the match of the regular expression: a split of the
    text, and the one with the longest leading text. *)
Lemma exec_var_spec (s l n t : string) :
  exec_var s = Some (l, n, t) ->
  splits s l n t
  /\ forall l' n' t', splits s l' n' t' -> String.length l' <= String.length l.
Proof.
  intros H. split; [exact (exec_var_sound _ _ _ _ H)|].
  intros l' n' t'. exact (exec_var_longest _ _ _ _ _ _ _ H).
Qed.

(** A text without token is not matched. *)
Lemma no_token_no_match (s : string) :
  count_tokens s = 0 -> exec_var s = None.
Proof.
  intros H. destruct (exec_var s) as [[[l n] t]|] eqn:E; [|reflexivity].
  apply exec_var_token in E. lia.
Qed.

(** A text without token is returned as it is. *)
Lemma replace_no_token (s : string) (env : gmap string string) :
  count_tokens s = 0 -> replace s env = s.
Proof. intros H. apply replace_no_match. now apply no_token_no_match. Qed.

(** A line feed anywhere in the text keeps the regular expression from
    matching: the token is left in place. *)
Example replace_with_line_feed :
  replace ("${a}" +:+ String "010" "") Demo.env_ab = "${a}" +:+ String "010" "".
Proof. vm_compute. reflexivity. Qed.

End RegExpFacts.

(** ** Repository access *)

Section GitFacts.

Import Js JsString Git GitTrace.

Lemma git_listen_close (pre post : list proc_event) (c : option Z)
    (out err : string) :
  forallb is_data pre = true ->
  git_listen (pre ++ CloseEv c :: post) out err
  = Fulfilled (GitResult c (out +:+ stdout_of pre) (err +:+ stderr_of pre)).
Proof.
  revert out err. induction pre as [|ev pre IH]; intros out err H.
  - simpl. now rewrite !append_nil_r.
  - simpl in H. apply andb_true_iff in H as [Hev Hpre].
    destruct ev; try discriminate; simpl; rewrite IH by assumption;
      now rewrite ?append_assoc.
Qed.

Lemma git_listen_error (pre post : list proc_event) (e : error)
    (out err : string) :
  forallb is_data pre = true ->
  git_listen (pre ++ ErrorEv e :: post) out err = Rejected e.
Proof.
  revert out err. induction pre as [|ev pre IH]; intros out err H.
  - reflexivity.
  - simpl in H. apply andb_true_iff in H as [Hev Hpre].
    destruct ev; try discriminate; simpl; now rewrite IH.
Qed.

Lemma read_unfold (w : world) (repoDir path : string) (commitish : option string) :
  read w repoDir path commitish
  = await (git w repoDir ["show"; revision_or_master commitish +:+ ":" +:+ path])
          (fun r => Fulfilled (stdout r)).
Proof. destruct commitish as [[|c t]|]; reflexivity. Qed.

(** Claim C6, as the code has it: [read] resolves with what the git
    command wrote on its standard output as soon as the command
    closes, whatever its exit status, and drops the exit status and
    the standard error; it is rejected only when the command cannot
    be spawned, with the error of the spawn as it is. *)
Theorem read_resolves_with_stdout (w : world) (repoDir path : string)
    (commitish : option string) (pre post : list proc_event) :
  let args := ["show"; revision_or_master commitish +:+ ":" +:+ path] in
  forallb is_data pre = true ->
  (forall code,
      spawn w "git" args repoDir = pre ++ CloseEv code :: post ->
      read w repoDir path commitish = Fulfilled (stdout_of pre))
  /\ (forall e,
      spawn w "git" args repoDir = pre ++ ErrorEv e :: post ->
      read w repoDir path commitish = Rejected e).
Proof.
  intros args Hpre. split.
  - intros c Hs. rewrite read_unfold. unfold git. fold args. rewrite Hs.
    now rewrite git_listen_close.
  - intros e Hs. rewrite read_unfold. unfold git. fold args. rewrite Hs.
    now rewrite git_listen_error.
Qed.

Lemma read_resolves_with_stdout_witness :
  Git.read Demo.demo_world "/r" "a.json" (Some "v1") = Fulfilled "".
Proof.
  refine (proj1 (read_resolves_with_stdout Demo.demo_world "/r" "a.json"
                   (Some "v1") [StderrData "fatal: not a git repository"] []
                   _) (Some 128%Z) _); reflexivity.
Defined.

(** Claim C6 fails as stated: the git command exits with status 128
    and [read] is fulfilled, with the empty standard output. *)
Lemma read_fulfilled_on_exit_128 :
  spawn Demo.demo_world "git" ["show"; "master:a.json"] "/r"
  = [StderrData "fatal: not a git repository"; CloseEv (Some 128%Z)]
  /\ Git.read Demo.demo_world "/r" "a.json" None = Fulfilled ""
  /\ ~ (exists e, Git.read Demo.demo_world "/r" "a.json" None = Rejected e).
Proof.
  repeat split. intros [e He]. discriminate He.
Qed.

(** Claim C7: [isBare] is never rejected; it is [true] exactly when
    the git command runs to its end and its trimmed standard output is
    [true]; when the command cannot be spawned, and when it prints
    anything else (a fatal message goes to the standard error and
    leaves the standard output empty), it is [false].  In terms of the
    child process: an ['error'] event gives [false], and a ['close']
    event gives the comparison of what was written on the standard
    output, whatever the exit status. *)
Theorem isBare_true_iff (w : world) (path : string) :
  let query := git w path ["rev-parse"; "--is-bare-repository"] in
  (forall e, isBare w path <> Rejected e)
  /\ (isBare w path = Fulfilled true <->
      exists r, query = Fulfilled r /\ trim (stdout r) = "true")
  /\ (forall e, query = Rejected e -> isBare w path = Fulfilled false)
  /\ (forall r, query = Fulfilled r -> trim (stdout r) <> "true" ->
      isBare w path = Fulfilled false)
  /\ (forall pre post e,
      forallb is_data pre = true ->
      spawn w "git" ["rev-parse"; "--is-bare-repository"] path
      = pre ++ ErrorEv e :: post ->
      isBare w path = Fulfilled false)
  /\ (forall pre post c,
      forallb is_data pre = true ->
      spawn w "git" ["rev-parse"; "--is-bare-repository"] path
      = pre ++ CloseEv c :: post ->
      isBare w path = Fulfilled (String.eqb (trim (stdout_of pre)) "true")).
Proof.
  intros query.
  assert (Hev : (forall pre post e,
      forallb is_data pre = true ->
      spawn w "git" ["rev-parse"; "--is-bare-repository"] path
      = pre ++ ErrorEv e :: post ->
      isBare w path = Fulfilled false)
    /\ (forall pre post c,
      forallb is_data pre = true ->
      spawn w "git" ["rev-parse"; "--is-bare-repository"] path
      = pre ++ CloseEv c :: post ->
      isBare w path = Fulfilled (String.eqb (trim (stdout_of pre)) "true"))).
  { split; intros pre post x Hpre Hs; unfold isBare, git; rewrite Hs.
    - now rewrite git_listen_error.
    - now rewrite git_listen_close. }
  unfold isBare. fold query. unfold isBare in Hev. fold query in Hev.
  destruct query as [r|e|] eqn:Q.
  - split; [discriminate|]. split; [|split; [|split; [|exact Hev]]].
    + split.
      * intros H. exists r. split; [reflexivity|].
        injection H as H1. now apply String.eqb_eq in H1.
      * intros (r' & Hr & Ht). injection Hr as <-.
        apply String.eqb_eq in Ht. now rewrite Ht.
    + discriminate.
    + intros r' Hr Hn. injection Hr as <-.
      apply String.eqb_neq in Hn. now rewrite Hn.
  - split; [discriminate|]. split; [|split; [|split; [|exact Hev]]].
    + split; [discriminate|]. intros (r & Hr & _). discriminate.
    + reflexivity.
    + discriminate.
  - split; [discriminate|]. split; [|split; [|split; [|exact Hev]]].
    + split; [discriminate|]. intros (r & Hr & _). discriminate.
    + discriminate.
    + discriminate.
Qed.

Lemma isBare_true_iff_witness :
  Git.isBare (World "/" (fun _ => inl Demo.ENOENT) Demo.git_missing Demo.demo_parse)
             "/srv/repo.git" = Fulfilled false
  /\ Git.isBare (World "/" (fun _ => inl Demo.ENOENT) Demo.git_bare Demo.demo_parse)
             "/srv/repo.git" = Fulfilled true.
Proof.
  split.
  - refine (proj1 (proj2 (proj2 (isBare_true_iff _ "/srv/repo.git"))) _ _).
    reflexivity.
  - apply (proj1 (proj2 (isBare_true_iff _ "/srv/repo.git"))).
    eexists. split; reflexivity.
Defined.

End GitFacts.

(** ** Paths *)

Section PathFacts.

Import JsString Path PathShape.

Lemma plain_inv (seg : string) :
  plain seg = true ->
  seg <> "" /\ contains "/" seg = false /\ contains "#" seg = false
  /\ seg <> "." /\ seg <> "..".
Proof.
  unfold plain. intros H.
  repeat (apply andb_true_iff in H as [H ?]).
  repeat match goal with
         | X : negb _ = true |- _ => apply negb_true_iff in X
         end.
  repeat split; auto; intros ->; discriminate.
Qed.

Lemma contains_app (c : ascii) (a b : string) :
  contains c (a +:+ b) = contains c a || contains c b.
Proof.
  induction a as [|d a IH]; [reflexivity|].
  str_simpl. simpl. now rewrite IH, orb_assoc.
Qed.

Lemma split_plain (s : string) :
  contains "/" s = false -> split "/" s = [s].
Proof.
  induction s as [|c s IH]; simpl; [reflexivity|].
  intros H. apply orb_false_iff in H as [Hc Hs].
  now rewrite Hc, (IH Hs).
Qed.

Lemma split_app (a b : string) :
  contains "/" a = false ->
  split "/" (a +:+ "/" +:+ b) = a :: split "/" b.
Proof.
  induction a as [|c a IH]; intros H.
  - reflexivity.
  - simpl in H. apply orb_false_iff in H as [Hc Ha].
    str_simpl. simpl. rewrite Hc.
    change (String "/" b) with ("/" +:+ b). now rewrite (IH Ha).
Qed.

Lemma split_slash (b : string) :
  split "/" ("/" +:+ b) = "" :: split "/" b.
Proof. reflexivity. Qed.

Lemma join_cons (a : string) (segs : list string) :
  segs <> [] -> join "/" (a :: segs) = a +:+ "/" +:+ join "/" segs.
Proof. destruct segs; [congruence|reflexivity]. Qed.

Lemma join_snoc (segs : list string) (a : string) :
  segs <> [] -> join "/" (segs ++ [a]) = join "/" segs +:+ "/" +:+ a.
Proof.
  induction segs as [|x segs IH]; [congruence|]. intros _.
  destruct segs as [|y segs]; [reflexivity|].
  change ((x :: y :: segs) ++ [a]) with (x :: ((y :: segs) ++ [a])).
  rewrite join_cons by (now destruct segs).
  rewrite IH by discriminate.
  rewrite (join_cons x (y :: segs)) by discriminate.
  now rewrite !append_assoc.
Qed.

Lemma split_join (segs : list string) :
  Forall (fun s => contains "/" s = false) segs -> segs <> [] ->
  split "/" (join "/" segs) = segs.
Proof.
  induction segs as [|a segs IH]; [congruence|].
  intros H _. inversion H as [|? ? Ha Hs]; subst.
  destruct segs as [|b segs].
  - simpl. now apply split_plain.
  - rewrite join_cons by discriminate.
    rewrite split_app by assumption. f_equal. now apply IH.
Qed.

Lemma normalize_step_plain (b : bool) (stack : list string) (seg : string) :
  plain seg = true -> normalize_step b stack seg = seg :: stack.
Proof.
  intros H. apply plain_inv in H as (H1 & _ & _ & H2 & H3).
  unfold normalize_step.
  apply String.eqb_neq in H1, H2, H3. now rewrite H1, H2, H3.
Qed.

Lemma fold_normalize_plain (b : bool) (segs stack : list string) :
  Forall (fun s => plain s = true) segs ->
  fold_left (normalize_step b) segs stack = rev segs ++ stack.
Proof.
  revert stack. induction segs as [|a segs IH]; intros stack H.
  - reflexivity.
  - inversion H; subst. simpl.
    rewrite normalize_step_plain by assumption.
    rewrite IH by assumption. now rewrite <- app_assoc.
Qed.

Lemma Forall_plain_noslash (segs : list string) :
  Forall (fun s => plain s = true) segs ->
  Forall (fun s => contains "/" s = false) segs.
Proof.
  intros H. eapply Forall_impl; [exact H|].
  intros s Hs. now apply plain_inv in Hs.
Qed.

(** [normalizeString] gives back the segments of a clean absolute
    path, also behind a doubled leading slash. *)
Lemma normalizeString_abs (segs : list string) (b : bool) :
  Forall (fun s => plain s = true) segs -> segs <> [] ->
  normalizeString (abs_path segs) b = join "/" segs
  /\ normalizeString ("/" +:+ abs_path segs) b = join "/" segs.
Proof.
  intros H Hne. unfold normalizeString, abs_path.
  pose proof (split_join _ (Forall_plain_noslash _ H) Hne) as Hs.
  split.
  - rewrite split_slash, Hs. simpl. rewrite fold_normalize_plain by assumption.
    now rewrite app_nil_r, rev_involutive.
  - rewrite !split_slash, Hs. simpl. rewrite fold_normalize_plain by assumption.
    now rewrite app_nil_r, rev_involutive.
Qed.

Lemma last_is_app (c : ascii) (a b : string) :
  b <> "" -> last_is c (a +:+ b) = last_is c b.
Proof.
  intros Hb. induction a as [|d a IH]; [reflexivity|].
  str_simpl. cbn [last_is].
  destruct (a +:+ b) eqn:E; [|exact IH].
  apply (f_equal String.length) in E. rewrite length_append in E.
  destruct b; [congruence|]. simpl in E. lia.
Qed.

Lemma last_is_absent (c : ascii) (s : string) :
  contains c s = false -> last_is c s = false.
Proof.
  induction s as [|d s IH]; [reflexivity|]. simpl.
  intros H. apply orb_false_iff in H as [Hd Hs].
  destruct s; [assumption|]. now apply IH.
Qed.

Lemma join_nonempty (segs : list string) :
  Forall (fun s => plain s = true) segs -> segs <> [] -> join "/" segs <> "".
Proof.
  destruct segs as [|a segs]; [congruence|]. intros H _.
  inversion H as [|? ? Ha Hs]; subst. apply plain_inv in Ha as (Ha & _).
  destruct segs as [|b segs]; [assumption|].
  rewrite join_cons by discriminate. destruct a; [congruence|discriminate].
Qed.

Lemma last_is_join (segs : list string) :
  Forall (fun s => plain s = true) segs -> segs <> [] ->
  last_is "/" (join "/" segs) = false.
Proof.
  induction segs as [|a segs IH]; [congruence|]. intros H _.
  inversion H as [|? ? Ha Hs]; subst.
  destruct segs as [|b segs].
  - apply last_is_absent. now apply plain_inv in Ha.
  - rewrite join_cons by discriminate.
    rewrite last_is_app.
    + rewrite last_is_app; [now apply IH|].
      now apply join_nonempty.
    + discriminate.
Qed.

Lemma normalize_absolute (rest q : string) :
  normalizeString ("/" +:+ rest) false = q -> q <> "" ->
  last_is "/" ("/" +:+ rest) = false ->
  normalize ("/" +:+ rest) = "/" +:+ q.
Proof.
  intros Hq Hne Hl. unfold normalize.
  change ("/" +:+ rest) with (String "/" rest) in *.
  cbv iota. change (first_is "/" (String "/" rest)) with true.
  cbn [negb]. rewrite Hq, Hl.
  destruct q; [congruence|reflexivity].
Qed.

(** [path.normalize] leaves a clean absolute path as it is. *)
Lemma normalize_abs (segs : list string) :
  Forall (fun s => plain s = true) segs -> segs <> [] ->
  normalize (abs_path segs) = abs_path segs
  /\ normalize ("/" +:+ abs_path segs) = abs_path segs.
Proof.
  intros H Hne.
  destruct (normalizeString_abs segs false H Hne) as [N1 N2].
  pose proof (join_nonempty _ H Hne) as Hj.
  pose proof (last_is_join _ H Hne) as Hl.
  split.
  - apply normalize_absolute; [exact N1|exact Hj|].
    now rewrite last_is_app.
  - apply normalize_absolute; [exact N2|exact Hj|].
    unfold abs_path. now rewrite !last_is_app by (assumption || discriminate).
Qed.

Lemma list_ascii_app (a b : string) :
  list_ascii_of_string (a +:+ b)
  = list_ascii_of_string a ++ list_ascii_of_string b.
Proof.
  induction a as [|c a IH]; [reflexivity|].
  str_simpl. simpl. now rewrite IH.
Qed.

Lemma list_ascii_length (a : string) :
  length (list_ascii_of_string a) = String.length a.
Proof. induction a as [|c a IH]; simpl; [reflexivity|now rewrite IH]. Qed.

Lemma skip_segment_app (l rest : list ascii) :
  forallb (fun c => negb (Ascii.eqb c "/")) l = true ->
  skip_segment (l ++ "/"%char :: rest) = "/"%char :: rest.
Proof.
  induction l as [|c l IH]; simpl; [reflexivity|].
  intros H. apply andb_true_iff in H as [Hc Hl].
  apply negb_true_iff in Hc. rewrite Hc. now apply IH.
Qed.

Lemma skip_segment_all (l : list ascii) :
  forallb (fun c => negb (Ascii.eqb c "/")) l = true -> skip_segment l = [].
Proof.
  induction l as [|c l IH]; simpl; [reflexivity|].
  intros H. apply andb_true_iff in H as [Hc Hl].
  apply negb_true_iff in Hc. rewrite Hc. now apply IH.
Qed.

Lemma noslash_chars (s : string) :
  contains "/" s = false ->
  forallb (fun c => negb (Ascii.eqb c "/")) (rev (list_ascii_of_string s)) = true.
Proof.
  intros H. rewrite forallb_forall. intros c Hc.
  apply in_rev in Hc. revert H Hc.
  induction s as [|d s IH]; simpl; [tauto|].
  intros H [->|Hin].
  - apply orb_false_iff in H as [Hd _]. now rewrite Hd.
  - apply orb_false_iff in H as [_ Hs]. now apply IH.
Qed.

Lemma skip_slashes_plain (s : string) :
  s <> "" -> contains "/" s = false ->
  forall rest, skip_slashes (rev (list_ascii_of_string s) ++ rest)
               = rev (list_ascii_of_string s) ++ rest.
Proof.
  intros Hne H rest. pose proof (noslash_chars _ H) as Hf.
  destruct (rev (list_ascii_of_string s)) as [|c l] eqn:E.
  - apply (f_equal (@length ascii)) in E.
    rewrite length_rev, list_ascii_length in E.
    destruct s; [congruence|discriminate].
  - simpl in Hf. apply andb_true_iff in Hf as [Hc _].
    apply negb_true_iff in Hc. simpl. now rewrite Hc.
Qed.

(** [path.dirname] of a clean absolute path drops the last segment. *)
Lemma dirname_abs (dirs : list string) (file : string) :
  Forall (fun s => plain s = true) dirs -> plain file = true ->
  dirname (abs_path (dirs ++ [file])) = abs_path dirs.
Proof.
  intros Hd Hf. apply plain_inv in Hf as (Hf1 & Hf2 & _).
  unfold abs_path at 1. str_simpl. unfold dirname.
  change (Ascii.eqb "/" "/") with true.
  destruct dirs as [|d dirs].
  - simpl app. simpl join.
    pose proof (skip_slashes_plain file Hf1 Hf2 []) as Hs.
    rewrite app_nil_r in Hs. rewrite Hs.
    now rewrite skip_segment_all by (now apply noslash_chars).
  - rewrite join_snoc by discriminate.
    pose proof (join_nonempty (d :: dirs) Hd ltac:(discriminate)) as Hj.
    unfold abs_path.
    generalize dependent (join "/" (d :: dirs)). intros J HJ.
    rewrite !list_ascii_app, !rev_app_distr.
    rewrite <- app_assoc.
    rewrite skip_slashes_plain by assumption.
    change (rev (list_ascii_of_string "/")) with ["/"%char].
    change (["/"%char] ++ rev (list_ascii_of_string J))
      with ("/"%char :: rev (list_ascii_of_string J)).
    rewrite skip_segment_app by (now apply noslash_chars).
    cbv iota. cbn [length].
    rewrite length_rev, list_ascii_length.
    destruct J as [|j J]; [congruence|].
    cbn [String.length Nat.eqb andb].
    change (String "/" (String j J +:+ "/" +:+ file))
      with (("/" +:+ String j J) +:+ "/" +:+ file).
    change (S (S (String.length J)))
      with (String.length ("/" +:+ String j J)).
    apply string_take_app.
Qed.

Lemma contains_join (c : ascii) (segs : list string) :
  Ascii.eqb "/" c = false ->
  Forall (fun s => contains c s = false) segs ->
  contains c (join "/" segs) = false.
Proof.
  intros Hc. induction segs as [|a segs IH]; [reflexivity|].
  intros H. inversion H as [|? ? Ha Hs]; subst.
  destruct segs as [|b segs]; [assumption|].
  rewrite join_cons by discriminate.
  rewrite !contains_app, Ha, (IH Hs). cbn [contains]. now rewrite Hc.
Qed.

Lemma abs_path_no_revision (segs : list string) :
  Forall (fun s => plain s = true) segs -> contains "#" (abs_path segs) = false.
Proof.
  intros H. unfold abs_path. rewrite contains_app. simpl.
  apply contains_join; [reflexivity|].
  eapply Forall_impl; [exact H|]. intros s Hs. now apply plain_inv in Hs.
Qed.

(** [path.join] of a clean absolute directory and a plain name. *)
Lemma join2_abs (dirs : list string) (name : string) :
  Forall (fun s => plain s = true) dirs -> plain name = true ->
  join2 (abs_path dirs) name = abs_path (dirs ++ [name]).
Proof.
  intros Hd Hn.
  assert (Hall : Forall (fun s => plain s = true) (dirs ++ [name]))
    by (apply Forall_app; split; [assumption|now constructor]).
  assert (Hne : dirs ++ [name] <> []) by (now destruct dirs).
  pose proof (plain_inv _ Hn) as (Hn1 & _).
  unfold join2.
  assert (Ha : exists x y, abs_path dirs = String x y) by (now eexists _, _).
  destruct Ha as (x & y & Ha). rewrite Ha.
  destruct name as [|c name]; [congruence|].
  rewrite <- Ha. clear x y Ha.
  destruct dirs as [|d dirs].
  - change (abs_path [] +:+ "/" +:+ String c name)
      with ("/" +:+ abs_path ([] ++ [String c name])).
    now apply normalize_abs.
  - unfold abs_path at 1.
    rewrite append_assoc. rewrite <- join_snoc by discriminate.
    now apply normalize_abs.
Qed.

End PathFacts.

(** ** Source descriptors *)

Section SourceFacts.

Import Js JsString.

Lemma PathShape_plain_first (name : string) :
  PathShape.plain name = true -> first_is "/" name = false.
Proof.
  intros H. apply plain_inv in H as (_ & H & _).
  destruct name as [|c name]; [reflexivity|]. simpl in *.
  now apply orb_false_iff in H as [H _].
Qed.

Lemma new_plain (rp : option string) (fp : string) (c : option string) :
  contains "#" fp = false -> Source.new rp fp c = Source.Make rp fp c.
Proof. intros H. unfold Source.new. now rewrite (indexOf_none _ _ H). Qed.

Lemma new_revision (rp : option string) (pre post : string) (c : option string) :
  contains "#" pre = false ->
  Source.new rp (pre +:+ "#" +:+ post) c = Source.Make rp pre (Some post).
Proof.
  intros H. unfold Source.new. str_simpl.
  rewrite (indexOf_app _ _ _ H).
  replace (Z.of_nat (String.length pre) >? -1)%Z with true
    by (symmetry; apply Z.gtb_lt; lia).
  now rewrite substring_prefix, substring_from_suffix.
Qed.

Lemma new_filePath (rp : option string) (fp : string) (c : option string) :
  contains "#" (Source.filePath (Source.new rp fp c)) = false.
Proof.
  destruct (contains "#" fp) eqn:E.
  - destruct (contains_split _ _ E) as (pre & post & -> & Hp).
    change (pre +:+ String "#" post) with (pre +:+ "#" +:+ post).
    now rewrite new_revision.
  - now rewrite new_plain.
Qed.

Lemma parseSource_new (w : world) (ref : string) (isPath : bool) (s : Source.t) :
  Source.parseSource w (Source.RefString ref) isPath = Fulfilled s ->
  exists rp fp c, s = Source.new rp fp c.
Proof.
  unfold Source.parseSource, Source.indexOf_function.
  destruct isPath; [intros [= <-]; eauto|].
  change (-1 >? -1)%Z with false. cbv iota.
  destruct (Git.getRoot w ref) as [root| |]; simpl; try discriminate.
  destruct (truthy root); intros [= <-]; eauto.
Qed.

(** Claim C8: the file path of a [Source] never holds a [#].  When the
    path given to the constructor holds one, what is in front of the
    first becomes the file path and what follows it the revision,
    whatever revision was given besides; when it holds none, path and
    revision are stored as given.  The descriptors that [parseSource]
    makes of a string, and those of [resolve], come out of the
    constructor. *)
Theorem new_strips_revision (rp : option string) (fp : string)
    (c : option string) :
  contains "#" (Source.filePath (Source.new rp fp c)) = false
  /\ (forall pre post, fp = pre +:+ "#" +:+ post -> contains "#" pre = false ->
      Source.new rp fp c = Source.Make rp pre (Some post))
  /\ (contains "#" fp = false -> Source.new rp fp c = Source.Make rp fp c)
  /\ (forall w isPath s,
      Source.parseSource w (Source.RefString fp) isPath = Fulfilled s ->
      contains "#" (Source.filePath s) = false)
  /\ (forall this, contains "#"
        (Source.filePath (Source.resolve this (Source.RefString fp))) = false).
Proof.
  split; [apply new_filePath|].
  split; [intros pre post -> H; now apply new_revision|].
  split; [apply new_plain|].
  split.
  - intros w isPath s H.
    destruct (parseSource_new _ _ _ _ H) as (rp' & fp' & c' & ->).
    apply new_filePath.
  - intros this. unfold Source.resolve. apply new_filePath.
Qed.

Lemma new_strips_revision_witness :
  Source.new None "data/file.json#live-branch" (Some "v1")
  = Source.Make None "data/file.json" (Some "live-branch")
  /\ Source.new None "data/file.json" (Some "v1")
     = Source.Make None "data/file.json" (Some "v1").
Proof.
  split.
  - apply (proj1 (proj2 (new_strips_revision None "data/file.json#live-branch"
                           (Some "v1"))) "data/file.json" "live-branch");
      reflexivity.
  - apply (proj1 (proj2 (proj2 (new_strips_revision None "data/file.json"
                                  (Some "v1"))))); reflexivity.
Defined.

(** The earlier revision of the constructor tests [if( idx )]: a path
    without [#] loses its text to the revision, and a path that begins
    with [#] keeps it. *)
Example SourceV1_new_without_revision :
  SourceV1.new None "data/file.json" (Some "v1")
  = Source.Make None "" (Some "data/file.json")
  /\ SourceV1.new None "#v2" None = Source.Make None "#v2" None.
Proof. split; reflexivity. Qed.






(** The second example of the specification, and a reference with a
    revision of its own. *)
Example resolve_parent_directory :
  Source.resolve (Source.Make (Some "/repo") "/x/y/a.json" (Some "v1"))
    (Source.RefString "../c.json")
  = Source.Make (Some "/repo") "/x/c.json" (Some "v1")
  /\ Source.resolve (Source.Make (Some "/repo") "/x/y/a.json" (Some "v1"))
       (Source.RefString "c.json#v2")
     = Source.Make (Some "/repo") "/x/y/c.json" (Some "v2").
Proof. split; reflexivity. Qed.

(** The earlier revision of [resolve] joins onto the file path
    itself, and its constructor then takes the joined path, which
    holds no [#], for the revision. *)
Example SourceV1_resolve_onto_file :
  Path.join2 "/x/a.json" "b.json" = "/x/a.json/b.json"
  /\ SourceV1.resolve (Source.Make None "/x/a.json" None)
       (Source.RefString "b.json")
     = Source.Make None "" (Some "/x/a.json/b.json").
Proof. split; reflexivity. Qed.

End SourceFacts.

(** ** The loader *)

Section LoaderFacts.

Import Js JsString Store.

Lemma Index_link_eq (w : world) (value dirname : string)
    (env : gmap string string) :
  Index.link w value dirname env
  = (Path.resolve (cwd w) dirname (substring1 value),
     first_is "!" (Expander.replace (substring1 value) env)).
Proof.
  unfold Index.link.
  now destruct (first_is "!" (Expander.replace (substring1 value) env)).
Qed.

Lemma Index_resolve_link (fuel : nat) (w : world) (text dirname : string)
    (env : gmap string string) (s : state) :
  Index.resolve (S fuel) w (VStr (String "@" text)) dirname env s
  = Index.loadJSON fuel w (Path.resolve (cwd w) dirname text) env
      (first_is "!" (Expander.replace text env)) s.
Proof.
  cbn [Index.resolve]. change (first_is "@" (String "@" text)) with true.
  cbv iota. now rewrite Index_link_eq.
Qed.

(** Claim C3, at two links: [resolve] of src/lib/index.js hands to
    [loadJSON] the text after the sigil as it stands, re-based: the
    required marker is still in the path of the first link, and the
    variable token is still in the path of the second, whatever the
    context binds. *)
Theorem resolve_loads_unprocessed_path (fuel : nat) (w : world)
    (env : gmap string string) (s : state) :
  Index.resolve (S fuel) w (VStr "@!b.json") "/x" env s
  = Index.loadJSON fuel w "/x/!b.json" env true s
  /\ Index.resolve (S fuel) w (VStr "@lang/${locale}/data.json") "/x" env s
     = Index.loadJSON fuel w "/x/lang/${locale}/data.json" env false s.
Proof.
  split.
  - rewrite Index_resolve_link. reflexivity.
  - rewrite Index_resolve_link.
    assert (E : Expander.exec_var "lang/${locale}/data.json"
                = Some ("lang/", "locale", "/data.json")) by reflexivity.
    pose proof (replace_eq "lang/${locale}/data.json" env) as R.
    rewrite E in R. rewrite R. reflexivity.
Qed.

(** The later revision hands the expanded path, without the marker,
    to [source.resolve]. *)
Lemma IndexSrc_resolve_link (fuel : nat) (w : world) (text : string)
    (source : Source.t) (env : gmap string string) (s : state) :
  let expanded := Expander.replace text env in
  let required := first_is "!" expanded in
  let path := if required then substring1 expanded else expanded in
  IndexSrc.resolve (S fuel) w (VStr (String "@" text)) source env s
  = IndexSrc.loadJSON fuel w
      (Source.RefSource (Source.resolve source (Source.RefString path)))
      env required s.
Proof.
  cbn [IndexSrc.resolve]. change (first_is "@" (String "@" text)) with true.
  cbv iota. unfold IndexSrc.link. cbn [substring1].
  now destruct (first_is "!" (Expander.replace text env)).
Qed.

Example IndexSrc_resolve_required (fuel : nat) (w : world) (s : state) :
  IndexSrc.resolve (S fuel) w (VStr "@!lang/${locale}/data.json")
    (Source.Make None "/x/a.json" None) (<["locale" := "en"]> ∅) s
  = IndexSrc.loadJSON fuel w
      (Source.RefSource (Source.Make None "/x/lang/en/data.json" None))
      (<["locale" := "en"]> ∅) true s.
Proof. rewrite IndexSrc_resolve_link. reflexivity. Qed.

(** In the later revision the marker is looked for after the
    expansion: a value that begins with [!] makes the link required. *)
Example IndexSrc_marker_from_value (fuel : nat) (w : world) (s : state) :
  IndexSrc.resolve (S fuel) w (VStr "@${v}")
    (Source.Make None "/x/a.json" None) (<["v" := "!b.json"]> ∅) s
  = IndexSrc.loadJSON fuel w
      (Source.RefSource (Source.Make None "/x/b.json" None))
      (<["v" := "!b.json"]> ∅) true s.
Proof. rewrite IndexSrc_resolve_link. reflexivity. Qed.

(** Claim C1, as the code has it: a failure of the read becomes
    [null] exactly when its code is [ENOENT] and [required] is false,
    and is thrown in every other case; and a call that returns [null]
    either swallowed such a failure or read a document that itself
    resolves to [null]. *)
Theorem loadJSON_null_cases (fuel : nat) (w : world) (path : string)
    (env : gmap string string) (required : bool) (s : state) :
  let s1 := State (heap s) (reads s ++ [path]) in
  (forall e, Index.readFile w path = inl e ->
     Index.loadJSON fuel w path env required s
     = if code_is "ENOENT" e && negb required
       then Ret VNull s1 else Throw e s1)
  /\ (forall s',
      Index.loadJSON fuel w path env required s = Ret VNull s' ->
      (exists e, Index.readFile w path = inl e
                 /\ code_is "ENOENT" e = true /\ required = false)
      \/ (exists text j,
            Index.readFile w path = inr text
            /\ json_parse w text = Some j
            /\ Index.resolve fuel w (alloc j (heap s)).1 (Path.dirname path) env
                 (State (alloc j (heap s)).2 (reads s1)) = Ret VNull s')).
Proof.
  intros s1. unfold Index.loadJSON, Index.loadJSON_with. fold s1.
  cbn [heap reads]. split.
  - intros e He. rewrite He. reflexivity.
  - intros s' H.
    destruct (Index.readFile w path) as [e|text] eqn:R.
    + left. exists e. unfold Index.loadJSON_catch in H.
      destruct (code_is "ENOENT" e) eqn:C; [|discriminate].
      destruct required; [discriminate|]. auto.
    + right. destruct (json_parse w text) as [j|] eqn:P.
      * exists text, j. split; [reflexivity|]. split; [exact P|].
        change (heap s1) with (heap s) in H.
        destruct (alloc j (heap s)) as [data h]. exact H.
      * unfold Index.loadJSON_catch in H. discriminate.
Qed.

Lemma loadJSON_null_cases_witness :
  Index.loadJSON 3 Demo.demo_world "/x/missing.json" ∅ false Demo.s0
  = Ret VNull (State ∅ ["/x/missing.json"])
  /\ Index.loadJSON 3 Demo.demo_world "/x/missing.json" ∅ true Demo.s0
     = Throw Demo.ENOENT (State ∅ ["/x/missing.json"]).
Proof.
  split.
  - apply (proj1 (loadJSON_null_cases 3 Demo.demo_world "/x/missing.json" ∅
                    false Demo.s0) Demo.ENOENT).
    reflexivity.
  - apply (proj1 (loadJSON_null_cases 3 Demo.demo_world "/x/missing.json" ∅
                    true Demo.s0) Demo.ENOENT).
    reflexivity.
Defined.

(** The later revision has the same [catch] block, around
    [parseSource] and [source.read()]. *)
Lemma IndexSrc_loadJSON_read_failure (fuel : nat) (w : world) (r : Source.ref)
    (source : Source.t) (e : error) (env : gmap string string)
    (required : bool) (s : state) :
  Source.parseSource w r false = Fulfilled source ->
  Source.read w source = Rejected e ->
  IndexSrc.loadJSON fuel w r env required s
  = let s1 := State (heap s) (reads s ++ [Source.toString source]) in
    if code_is "ENOENT" e && negb required then Ret VNull s1 else Throw e s1.
Proof.
  intros P R. unfold IndexSrc.loadJSON, IndexSrc.loadJSON_with.
  rewrite P, R. reflexivity.
Qed.

(** The documents of the specification's example: [a.json] links to
    [b.json], which links to [c.json]. *)
Example loadJSON_nested :
  Index.loadJSON 6 Demo.demo_world "/x/a.json" ∅ true Demo.s0
  = Ret (VRef 0)
      (State
         (<[ 2 := CObj [("v", VNum 1)] ]>
            (<[ 1 := CObj [("c", VRef 2)] ]> {[ 0 := CObj [("b", VRef 1)] ]}))
         ["/x/a.json"; "/x/b.json"; "/x/c.json"]).
Proof. vm_compute. reflexivity. Qed.

(** A required link to a file that is there: src/lib/index.js looks
    for [/x/!c.json] and fails, the later revision loads [/x/c.json]. *)
Example loadJSON_required_link :
  Index.loadJSON 6 Demo.demo_world "/x/req.json" ∅ true Demo.s0
  = Throw Demo.ENOENT
      (State {[ 0 := CObj [("m", VStr "@!c.json")] ]}
         ["/x/req.json"; "/x/!c.json"])
  /\ IndexSrc.loadJSON 6 Demo.demo_world (Source.RefString "/x/req.json") ∅ true
       Demo.s0
     = Ret (VRef 0)
         (State (<[ 1 := CObj [("v", VNum 1)] ]> {[ 0 := CObj [("m", VRef 1)] ]})
            ["/x/req.json"; "/x/c.json"]).
Proof. split; vm_compute; reflexivity. Qed.

(** Claim C1 fails as stated: the file holds the document [null], the
    reference is required and its target is there, and the result is
    [null]. *)
Lemma loadJSON_null_document :
  Index.readFile Demo.demo_world "/x/null.json" = inr "null"
  /\ Index.loadJSON 1 Demo.demo_world "/x/null.json" ∅ true Demo.s0
     = Ret VNull (State ∅ ["/x/null.json"])
  /\ ~ (true = false
        /\ exists e, Index.readFile Demo.demo_world "/x/null.json" = inl e
                     /\ code_is "ENOENT" e = true).
Proof.
  split; [reflexivity|]. split; [reflexivity|]. intros [H _]. discriminate.
Qed.

End LoaderFacts.

(** ** Tasks that run together *)

Section TaskFacts.

Import Js Store Tasks.

Context {C L : Type}.
Variable start_link : C -> string -> L * string.
Variable complete : L -> completion C.

Lemma task_induction (P : task C L -> Prop) :
  (forall v c, P (TRun v c)) ->
  (forall l, P (TLoad l)) ->
  (forall l name t rest c, P t -> P (TProps l name t rest c)) ->
  (forall ts, Forall P ts -> P (TAll ts)) ->
  (forall v, P (TRet v)) ->
  (forall e, P (TThrow e)) ->
  forall t, P t.
Proof.
  intros Hrun Hload Hprops Hall Hret Hthrow. fix IH 1. intros t.
  destruct t as [v c|l|l name t rest c|ts|v|e].
  - apply Hrun.
  - apply Hload.
  - apply Hprops, IH.
  - apply Hall. induction ts as [|t ts IHts]; constructor; [apply IH|exact IHts].
  - apply Hret.
  - apply Hthrow.
Qed.

Lemma advance_step (n : nat) (t : task C L) (s : state) :
  step start_link complete t s
    (advance start_link complete n t s).1 (advance start_link complete n t s).2.
Proof.
  revert n s. induction t as [v c|l|l name t rest c IH|ts IH|v|e]
    using task_induction; intros n s.
  - apply step_start.
  - apply step_finish.
  - cbn [advance].
    destruct t as [v c'|l'|l' name' t' rest' c'|ts|v|e];
      try (specialize (IH n s);
           destruct (advance start_link complete n _ s) as [t'' s'];
           cbn [fst snd] in *; now apply step_prop_in).
    + apply step_prop_ret.
    + apply step_prop_throw.
  - cbn [advance]. destruct (first_throw ts) as [e|] eqn:Et.
    { now apply step_all_throw. }
    destruct (all_ret ts) as [vs|] eqn:Er.
    { unfold alloc_cell. cbn [fst snd]. now apply (step_all_ret _ _ ts vs). }
    set (m := waiting ts). generalize (n mod m) as k. generalize (n / m) as n'.
    clear Et Er m. intros n' k.
    set (pick := fix pick (k : nat) (ts : list (task C L))
                   : list (task C L) * state :=
                   match ts with
                   | [] => ([], s)
                   | t0 :: rest =>
                       if settled t0 then
                         let '(rest', s') := pick k rest in (t0 :: rest', s')
                       else
                         match k with
                         | 0 =>
                             let '(t0', s') :=
                               advance start_link complete n' t0 s in
                             (t0' :: rest, s')
                         | S k' =>
                             let '(rest', s') := pick k' rest in
                             (t0 :: rest', s')
                         end
                   end).
    assert (H : forall pre k,
               step start_link complete (TAll (pre ++ ts)) s
                 (TAll (pre ++ (pick k ts).1)) (pick k ts).2).
    { induction ts as [|t ts IHts]; intros pre k0.
      - apply step_idle.
      - inversion IH as [|? ? Ht Hts]; subst. cbn [pick].
        assert (Hrest : forall k1,
                  step start_link complete (TAll (pre ++ t :: ts)) s
                    (TAll (pre ++ t :: (pick k1 ts).1)) (pick k1 ts).2).
        { intros k1. specialize (IHts Hts (pre ++ [t]) k1).
          now rewrite <- !app_assoc in IHts. }
        destruct (settled t).
        + specialize (Hrest k0). now destruct (pick k0 ts).
        + destruct k0 as [|k0].
          * specialize (Ht n' s).
            destruct (advance start_link complete n' t s) as [t' s'].
            now apply step_all_in.
          * specialize (Hrest k0). now destruct (pick k0 ts). }
    specialize (H [] k). cbn [app] in H. now destruct (pick k ts).
  - apply step_idle.
  - apply step_idle.
Qed.

Lemma run_reach (turns : list nat) :
  forall t s,
    match run start_link complete turns t s with
    | Ret v s' => reach start_link complete t s (TRet v) s'
    | Throw e s' => reach start_link complete t s (TThrow e) s'
    | NoOutcome => True
    end.
Proof.
  induction turns as [|n turns IH]; intros t s.
  - destruct t; cbn [run]; try exact I; apply reach_refl.
  - assert (H : match (let '(t', s') := advance start_link complete n t s in
                       run start_link complete turns t' s') with
                | Ret v s' => reach start_link complete t s (TRet v) s'
                | Throw e s' => reach start_link complete t s (TThrow e) s'
                | NoOutcome => True
                end).
    { pose proof (advance_step n t s) as Hs.
      destruct (advance start_link complete n t s) as [t' s']. cbn [fst snd] in Hs.
      specialize (IH t' s').
      destruct (run start_link complete turns t' s') as [v s2|e s2|];
        [| |exact I]; eapply reach_step; eauto. }
    destruct t; cbn [run]; try exact H; apply reach_refl.
Qed.

(** What every step keeps, every run keeps. *)
Lemma reach_invariant (I : task C L -> state -> Prop) :
  (forall t s t' s', step start_link complete t s t' s' -> I t s -> I t' s') ->
  forall t s t' s', reach start_link complete t s t' s' -> I t s -> I t' s'.
Proof.
  intros Hstep t s t' s' H. induction H as [|t s t1 s1 t2 s2 H1 _ IH]; [auto|].
  intros Hi. apply IH. eapply Hstep; eauto.
Qed.

Lemma all_ret_values (ts : list (task C L)) (vs : list value) :
  all_ret ts = Some vs ->
  flat_map values ts = vs /\ length vs = length ts
  /\ flat_map throws ts = [] /\ flat_map loads ts = []
  /\ flat_map frames ts = [].
Proof.
  revert vs. induction ts as [|t ts IH]; intros vs H.
  - injection H as <-. auto.
  - cbn [all_ret] in H. destruct t; try discriminate.
    destruct (all_ret ts) as [vs'|]; [|discriminate]. injection H as <-.
    destruct (IH _ eq_refl) as (H1 & H2 & H3 & H4 & H5). cbn.
    rewrite H1, H2, H3, H4, H5. auto.
Qed.

Lemma first_throw_In (ts : list (task C L)) (e : error) :
  first_throw ts = Some e -> In e (flat_map throws ts).
Proof.
  induction ts as [|t ts IH]; [discriminate|]. cbn [first_throw flat_map].
  intros H. apply in_or_app.
  destruct t; try (right; now apply IH).
  injection H as <-. left. now left.
Qed.

End TaskFacts.

(** ** The calls outside an array are runs of tasks too *)

Section OneTask.

Import Js JsString Store Tasks.

(** [loadJSON] and the load of an item come to the same. *)
Lemma loadJSON_with_complete
    (f : value -> string -> gmap string string -> state -> result value)
    (w : world) (path : string) (env : gmap string string) (required : bool)
    (s : state) :
  Index.loadJSON_with f w path env required s
  = match Index.complete w (path, required) with
    | CThrow e => Throw e (State (heap s) (reads s ++ [path]))
    | CNull => Ret VNull (State (heap s) (reads s ++ [path]))
    | CDoc j c =>
        let '(data, h) := alloc j (heap s) in
        f data c env (State h (reads s ++ [path]))
    | CPending => NoOutcome
    end.
Proof.
  unfold Index.loadJSON_with, Index.complete, Index.loadJSON_catch, Index.catch.
  cbn [heap reads].
  destruct (Index.readFile w path) as [e|text].
  - now destruct (_ && _).
  - destruct (json_parse w text) as [j|]; [reflexivity|]. now destruct (_ && _).
Qed.

Lemma IndexSrc_loadJSON_with_complete
    (f : value -> Source.t -> gmap string string -> state -> result value)
    (w : world) (source : Source.t) (env : gmap string string)
    (required : bool) (s : state) :
  IndexSrc.loadJSON_with f w (Source.RefSource source) env required s
  = match IndexSrc.complete w (source, required) with
    | CThrow e =>
        Throw e (State (heap s) (reads s ++ [Source.toString source]))
    | CNull =>
        Ret VNull (State (heap s) (reads s ++ [Source.toString source]))
    | CDoc j c =>
        let '(data, h) := alloc j (heap s) in
        f data c env (State h (reads s ++ [Source.toString source]))
    | CPending => NoOutcome
    end.
Proof.
  unfold IndexSrc.loadJSON_with, IndexSrc.complete, Index.loadJSON_catch,
    Index.catch.
  cbn [Source.parseSource heap reads].
  destruct (Source.read w source) as [text|e|].
  - destruct (json_parse w text) as [j|]; [reflexivity|]. now destruct (_ && _).
  - now destruct (_ && _).
  - reflexivity.
Qed.

Context {C L : Type}.
Variable start_link : C -> string -> L * string.
Variable complete : L -> completion C.

Lemma reach_trans (t1 t2 t3 : task C L) (s1 s2 s3 : state) :
  reach start_link complete t1 s1 t2 s2 ->
  reach start_link complete t2 s2 t3 s3 ->
  reach start_link complete t1 s1 t3 s3.
Proof.
  induction 1 as [|t s t1 s1 t2 s2 H1 _ IH]; [auto|].
  intros H3. eapply reach_step; [exact H1|]. now apply IH.
Qed.

Lemma reach_prop_in (l : nat) (name : string) (rest : list string) (c : C)
    (t t' : task C L) (s s' : state) :
  reach start_link complete t s t' s' ->
  reach start_link complete (TProps l name t rest c) s
    (TProps l name t' rest c) s'.
Proof.
  induction 1 as [|t s t1 s1 t2 s2 H1 _ IH]; [apply reach_refl|].
  eapply reach_step; [apply step_prop_in; exact H1|exact IH].
Qed.

(** The loop over the properties of an object, each property by a run
    of the task of its value. *)
Lemma resolve_props_reach (f : value -> state -> result value) (l : nat)
    (c : C) :
  (forall v s,
     match f v s with
     | Ret r s' => reach start_link complete (TRun v c) s (TRet r) s'
     | Throw e s' => reach start_link complete (TRun v c) s (TThrow e) s'
     | NoOutcome => True
     end) ->
  forall names s,
    match Index.resolve_props f l names s with
    | Ret _ s' =>
        reach start_link complete (next_prop l names c s) s (TRet (VRef l)) s'
    | Throw e s' =>
        reach start_link complete (next_prop l names c s) s (TThrow e) s'
    | NoOutcome => True
    end.
Proof.
  intros Hf. induction names as [|name names IH]; intros s.
  - apply reach_refl.
  - cbn [Index.resolve_props next_prop].
    pose proof (Hf (get_prop (heap s) l name) s) as H1.
    destruct (f (get_prop (heap s) l name) s) as [r s1|e s1|]; [| |exact I].
    + specialize (IH (State (set_prop (heap s1) l name r) (reads s1))).
      assert (H2 : reach start_link complete
                     (TProps l name (TRun (get_prop (heap s) l name) c) names c)
                     s
                     (next_prop l names c
                        (State (set_prop (heap s1) l name r) (reads s1)))
                     (State (set_prop (heap s1) l name r) (reads s1))).
      { eapply reach_trans; [apply reach_prop_in; exact H1|].
        eapply reach_step; [apply step_prop_ret|apply reach_refl]. }
      destruct (Index.resolve_props f l names _) as [u s2|e s2|]; [| |exact I];
        eapply reach_trans; eassumption.
    + eapply reach_trans; [apply reach_prop_in; exact H1|].
      eapply reach_step; [apply step_prop_throw|apply reach_refl].
Qed.

End OneTask.

Section OneTaskIndex.

Import Js JsString Store Tasks.

(** A call of [resolve] of src/lib/index.js is a run of the task of
    its value: what is proved of every run of the tasks holds of the
    calls outside an array. *)
Lemma resolve_reach (w : world) (env : gmap string string) (fuel : nat) :
  forall v d s,
    match Index.resolve fuel w v d env s with
    | Ret r s' =>
        reach (Index.start_link w env) (Index.complete w) (TRun v d) s
          (TRet r) s'
    | Throw e s' =>
        reach (Index.start_link w env) (Index.complete w) (TRun v d) s
          (TThrow e) s'
    | NoOutcome => True
    end.
Proof.
  induction fuel as [|fuel IH]; intros v d s; [exact I|].
  cbn [Index.resolve].
  assert (Hplain : forall v0 : value,
            start (Index.start_link w env) v0 d s = (TRet v0, s) ->
            reach (Index.start_link w env) (Index.complete w) (TRun v0 d) s
              (TRet v0) s).
  { intros v0 E. eapply reach_step; [apply step_start|]. rewrite E.
    apply reach_refl. }
  destruct v as [| |b|n|str|l]; try (now apply Hplain).
  - destruct (first_is "@" str) eqn:E.
    + destruct (Index.link w str d env) as [path required] eqn:El.
      rewrite loadJSON_with_complete.
      assert (H1 : reach (Index.start_link w env) (Index.complete w)
                     (TRun (VStr str) d) s
                     (finish (Index.complete w) (path, required)
                        (State (heap s) (reads s ++ [path]))).1
                     (finish (Index.complete w) (path, required)
                        (State (heap s) (reads s ++ [path]))).2).
      { eapply reach_step; [apply step_start|].
        unfold start. rewrite E. unfold Index.start_link. rewrite El.
        cbn [fst snd].
        eapply reach_step; [apply step_finish|apply reach_refl]. }
      unfold finish in H1.
      destruct (Index.complete w (path, required)) as [e| |j c|];
        cbn [fst snd] in H1; [exact H1|exact H1| |exact I].
      cbn [heap reads] in H1.
      destruct (alloc j (heap s)) as [data h]. cbn [fst snd] in H1.
      specialize (IH data c (State h (reads s ++ [path]))).
      destruct (Index.resolve fuel w data c env _) as [r s1|e s1|];
        [| |exact I]; eapply reach_trans; eassumption.
    + apply Hplain. unfold start. now rewrite E.
  - destruct (heap s !! l) as [[fields|items]|] eqn:Hl.
    + pose proof (resolve_props_reach (Index.start_link w env)
                    (Index.complete w)
                    (fun v => Index.resolve fuel w v d env) l d
                    (fun v s0 => IH v d s0) (map fst fields) s) as H.
      assert (H0 : step (Index.start_link w env) (Index.complete w)
                     (TRun (VRef l) d) s (next_prop l (map fst fields) d s) s).
      { pose proof (step_start (Index.start_link w env) (Index.complete w)
                      (VRef l) d s) as Hs.
        unfold start in Hs. now rewrite Hl in Hs. }
      destruct (Index.resolve_props _ l (map fst fields) s) as [u s1|e s1|];
        [| |exact I]; eapply reach_step; eassumption.
    + pose proof (run_reach (Index.start_link w env) (Index.complete w)
                    (schedule w (size (heap s)))
                    (TAll (map (fun i => TRun i d) items)) s) as H.
      assert (H0 : step (Index.start_link w env) (Index.complete w)
                     (TRun (VRef l) d) s
                     (TAll (map (fun i => TRun i d) items)) s).
      { pose proof (step_start (Index.start_link w env) (Index.complete w)
                      (VRef l) d s) as Hs.
        unfold start in Hs. now rewrite Hl in Hs. }
      unfold all.
      destruct (run _ _ _ _ s) as [r s1|e s1|]; [| |exact I];
        eapply reach_step; eassumption.
    + apply Hplain. unfold start. now rewrite Hl.
Qed.

End OneTaskIndex.

(** ** Parse failures *)

Section ParseFailure.

Import Js JsString Store Trace Tasks.

Variable w : world.
Variable env : gmap string string.

Lemma sound_run_step {A B : Type} (s s1 : state) (a : A) (r : result B) :
  sound_run w s (Ret a s1) -> sound_run w s1 r -> sound_run w s r.
Proof.
  intros (ext & E & F). destruct r as [b s2|e s2|]; simpl; [| |trivial].
  - intros (ext' & E' & F'). exists (ext ++ ext'). split.
    + now rewrite E', E, app_assoc.
    + now apply Forall_app.
  - intros (ext' & p & E' & Hp & Hc). exists (ext ++ ext'), p. split; [|split].
    + rewrite E', E. now rewrite !app_assoc.
    + apply in_or_app. now right.
    + exact Hc.
Qed.

Lemma sound_run_refl {A : Type} (s : state) (a : A) (h : gmap nat cell) :
  sound_run w s (Ret a (State h (reads s))).
Proof. exists []. simpl. now rewrite app_nil_r. Qed.

Lemma sound_run_heap {A : Type} (s : state) (h : gmap nat cell) (r : result A) :
  sound_run w (State h (reads s)) r -> sound_run w s r.
Proof. destruct r; exact id. Qed.

Lemma loads_map_TRun (items : list value) (c : string) :
  flat_map (loads (C:=string) (L:=string * bool))
    (map (fun i => TRun i c) items) = []
  /\ flat_map (throws (C:=string) (L:=string * bool))
       (map (fun i => TRun i c) items) = [].
Proof. induction items as [|i items [IH1 IH2]]; [auto|]. cbn. auto. Qed.

Lemma complete_caused (path : string) (required : bool) :
  match Index.complete w (path, required) with
  | CThrow e => caused w e path
  | CNull | CDoc _ _ => malformed w path = false
  | CPending => False
  end.
Proof.
  unfold Index.complete, caused, malformed, Index.catch.
  destruct (Index.readFile w path) as [e|text].
  - destruct (code_is "ENOENT" e && negb required); auto.
  - destruct (json_parse w text) as [j|]; [reflexivity|].
    cbn. auto.
Qed.

(** What one step does to the loads under way, to the errors and to
    the trace. *)
Lemma step_sound (t t' : task string (string * bool)) (s s' : state) :
  step (Index.start_link w env) (Index.complete w) t s t' s' ->
  exists new,
    reads s' = reads s ++ new
    /\ (forall p, In p new -> In p (map fst (loads t')))
    /\ (forall l, In l (loads t') -> In l (loads t) \/ In l.1 new)
    /\ (forall e, In e (throws t') ->
          In e (throws t) \/ exists l, In l (loads t) /\ caused w e l.1)
    /\ (throws t' = [] ->
        throws t = []
        /\ forall l, In l (loads t) ->
             In l (loads t') \/ malformed w l.1 = false).
Proof.
  induction 1 as [v c s|l s|l name r rest c s|l name e rest c s
                 |l name t t' rest c s s' _ IH|ts e s Ht|ts vs s Hr
                 |pre t t' post s s' _ IH|t s].
  - unfold start. destruct v as [| |b|n|str|l];
      try (exists []; cbn; rewrite app_nil_r; repeat split; tauto).
    + destruct (first_is "@" str).
      * unfold Index.start_link. destruct (Index.link w str c env) as [p rq].
        exists [p]. cbn. repeat split; try tauto.
        intros l [<-|[]]. right. now left.
      * exists []. cbn. rewrite app_nil_r. repeat split; tauto.
    + destruct (heap s !! l) as [[fields|items]|];
        try (exists []; cbn; rewrite app_nil_r; repeat split; tauto).
      * exists []. cbn [fst snd]. rewrite app_nil_r.
        unfold next_prop. destruct (map fst fields);
          cbn; repeat split; tauto.
      * exists []. cbn [fst snd loads throws]. rewrite app_nil_r.
        destruct (loads_map_TRun items c) as [-> ->].
        cbn. repeat split; tauto.
  - unfold finish. destruct l as [path required].
    pose proof (complete_caused path required) as Hc.
    destruct (Index.complete w (path, required)) as [e| |j c|]; [| | |tauto].
    + exists []. cbn. rewrite app_nil_r. repeat split; try tauto; try discriminate.
      intros e' [<-|[]]. right. exists (path, required). split; [now left|exact Hc].
    + exists []. cbn. rewrite app_nil_r. repeat split; try tauto.
      intros l [<-|[]]. now right.
    + destruct (alloc j (heap s)) as [data h].
      exists []. cbn. rewrite app_nil_r. repeat split; try tauto.
      intros l [<-|[]]. now right.
  - exists []. cbn [reads]. rewrite app_nil_r. unfold next_prop.
    destruct rest; cbn; repeat split; tauto.
  - exists []. rewrite app_nil_r. cbn. repeat split; try tauto; discriminate.
  - exact IH.
  - exists []. rewrite app_nil_r. cbn. repeat split; try tauto; try discriminate.
    intros e' [<-|[]]. left. now apply first_throw_In.
  - exists []. cbn [reads]. rewrite app_nil_r.
    destruct (all_ret_values _ _ Hr) as (_ & _ & H3 & H4 & _).
    cbn. rewrite H3, H4. repeat split; tauto.
  - destruct IH as (new & E & Hp & Hl & He & Hn). exists new.
    cbn [loads throws]. rewrite !flat_map_app. cbn [flat_map].
    split; [exact E|]. split; [|split; [|split]].
    + intros p Hin. rewrite !map_app, !in_app_iff. right. left. now apply Hp.
    + intros l Hin. rewrite !in_app_iff in *.
      destruct Hin as [Hin|[Hin|Hin]]; [tauto| |tauto].
      destruct (Hl l Hin); tauto.
    + intros e Hin. rewrite !in_app_iff in *.
      destruct Hin as [Hin|[Hin|Hin]]; [tauto| |tauto].
      destruct (He e Hin) as [Hi|(l & Hi & Hc)]; [tauto|].
      right. exists l. rewrite !in_app_iff. tauto.
    + intros Hnil. apply app_eq_nil in Hnil as [H1 Hnil].
      apply app_eq_nil in Hnil as [H2 H3].
      destruct (Hn H2) as [H4 H5]. rewrite H1, H3, H4. split; [reflexivity|].
      intros l Hin. rewrite !in_app_iff in *.
      destruct Hin as [Hin|[Hin|Hin]]; [tauto| |tauto].
      destruct (H5 l Hin); tauto.
  - exists []. rewrite app_nil_r. repeat split; try tauto. intros p [].
Qed.

Lemma step_sound_tasks (s0 : state) (t t' : task string (string * bool))
    (s s' : state) :
  step (Index.start_link w env) (Index.complete w) t s t' s' ->
  sound_tasks w s0 t s -> sound_tasks w s0 t' s'.
Proof.
  intros Hs (ext & E & Hl & He & Hn).
  destruct (step_sound _ _ _ _ Hs) as (new & E' & Hp' & Hl' & He' & Hn').
  exists (ext ++ new). split; [now rewrite E', E, app_assoc|].
  rewrite List.Forall_forall in Hl, He. split; [|split].
  - apply List.Forall_forall. intros l Hin.
    apply in_or_app. destruct (Hl' l Hin) as [H|H]; [|now right].
    left. now apply Hl.
  - apply List.Forall_forall. intros e Hin.
    destruct (He' e Hin) as [H|(l & Hi & Hc)].
    + destruct (He e H) as (p & Hp & Hc).
      exists p. split; [apply in_or_app; now left|exact Hc].
    + exists l.1. split; [|exact Hc]. apply in_or_app. left. now apply Hl.
  - intros Hnil. destruct (Hn' Hnil) as [H1 H2]. specialize (Hn H1).
    rewrite List.Forall_forall in Hn.
    apply List.Forall_forall. intros p Hp. apply in_app_or in Hp as [Hp|Hp].
    + destruct (Hn p Hp) as [Hm|Hm]; [now left|].
      apply in_map_iff in Hm as (l & <- & Hin).
      destruct (H2 l Hin) as [H|H]; [|now left].
      right. apply in_map_iff. now exists l.
    + right. now apply Hp'.
Qed.

(** The items of an array, resolved together. *)
Lemma all_sound (turns : list nat) (items : list value) (dirname : string)
    (s : state) :
  sound_run w s
    (all (Index.start_link w env) (Index.complete w) turns items dirname s).
Proof.
  unfold all.
  pose proof (run_reach (Index.start_link w env) (Index.complete w) turns
                (TAll (map (fun i => TRun i dirname) items)) s) as H.
  assert (H0 : sound_tasks w s (TAll (map (fun i => TRun i dirname) items)) s).
  { exists []. rewrite app_nil_r. cbn [loads throws].
    destruct (loads_map_TRun items dirname) as [-> ->].
    repeat split; constructor. }
  destruct (run _ _ turns _ s) as [v s'|e s'|]; [| |exact I].
  - apply (reach_invariant _ _ (sound_tasks w s)
             (fun t s1 t' s2 => step_sound_tasks s t t' s1 s2) _ _ _ _ H) in H0.
    destruct H0 as (ext & E & _ & _ & Hn). exists ext. split; [exact E|].
    eapply Forall_impl; [exact (Hn eq_refl)|]. intros p [Hp|[]]. exact Hp.
  - apply (reach_invariant _ _ (sound_tasks w s)
             (fun t s1 t' s2 => step_sound_tasks s t t' s1 s2) _ _ _ _ H) in H0.
    destruct H0 as (ext & E & _ & He & _). cbn [throws] in He.
    inversion He as [|? ? (p & Hp & Hc) _]; subst. now exists ext, p.
Qed.

Lemma resolve_props_sound (f : value -> state -> result value) (l : nat) :
  (forall v s, sound_run w s (f v s)) ->
  forall names s, sound_run w s (Index.resolve_props f l names s).
Proof.
  intros Hf. induction names as [|name names IH]; intros s.
  - destruct s. apply sound_run_refl.
  - cbn [Index.resolve_props].
    pose proof (Hf (get_prop (heap s) l name) s) as H1.
    destruct (f (get_prop (heap s) l name) s) as [v s1|e s1|];
      [|exact H1|exact I].
    eapply sound_run_step; [exact H1|].
    apply sound_run_heap with (h := set_prop (heap s1) l name v).
    apply IH.
Qed.

Lemma loadJSON_catch_sound (required : bool) (e : error) (s : state)
    (path : string) :
  caused w e path ->
  malformed w path = false \/ required = true \/ code_is "ENOENT" e = false ->
  sound_run w s
    (Index.loadJSON_catch required e (State (heap s) (reads s ++ [path]))).
Proof.
  intros He Hm. unfold Index.loadJSON_catch.
  destruct (code_is "ENOENT" e && negb required) eqn:C.
  - exists [path]. split; [reflexivity|]. constructor; [|constructor].
    apply andb_true_iff in C as [C1 C2]. apply negb_true_iff in C2.
    destruct Hm as [Hm|[Hm|Hm]]; [assumption|congruence|congruence].
  - exists [path], path. split; [reflexivity|]. split; [now left|exact He].
Qed.

Lemma loadJSON_with_sound
    (f : value -> string -> gmap string string -> state -> result value)
    (path : string) (required : bool) (s : state) :
  (forall v d s, sound_run w s (f v d env s)) ->
  sound_run w s (Index.loadJSON_with f w path env required s).
Proof.
  intros Hf. unfold Index.loadJSON_with. cbn [heap reads].
  destruct (Index.readFile w path) as [e|text] eqn:R.
  - apply loadJSON_catch_sound.
    + right. exact R.
    + left. unfold malformed. now rewrite R.
  - destruct (json_parse w text) as [j|] eqn:P.
    + destruct (alloc j (heap s)) as [data h].
      assert (H1 : sound_run w s (Ret data (State h (reads s ++ [path])))).
      { exists [path]. split; [reflexivity|]. constructor; [|constructor].
        unfold malformed. now rewrite R, P. }
      exact (sound_run_step _ _ _ _ H1 (Hf _ _ _)).
    + apply loadJSON_catch_sound.
      * left. unfold malformed. now rewrite R, P.
      * right. right. reflexivity.
Qed.

Lemma resolve_sound (fuel : nat) :
  forall v d s, sound_run w s (Index.resolve fuel w v d env s).
Proof.
  induction fuel as [|fuel IH]; intros v d s; [exact I|].
  cbn [Index.resolve].
  destruct v as [| |b|n|str|l]; try (destruct s; apply sound_run_refl).
  - destruct (first_is "@" str); [|destruct s; apply sound_run_refl].
    destruct (Index.link w str d env) as [path required].
    apply loadJSON_with_sound. exact IH.
  - destruct (heap s !! l) as [[fields|items]|];
      [| |destruct s; apply sound_run_refl].
    + pose proof (resolve_props_sound
                    (fun v => Index.resolve fuel w v d env) l
                    (fun v s => IH v d s) (map fst fields) s) as H.
      destruct (Index.resolve_props _ l (map fst fields) s) as [u s1|e s1|];
        [exact H|exact H|exact I].
    + apply all_sound.
Qed.

Lemma sound_run_reads {A : Type} (s : state) (r : result A) :
  sound_run w s r ->
  match r with
  | Ret _ s' => forall p, In p (new_reads s s') -> malformed w p = false
  | Throw e s' => exists p, In p (new_reads s s') /\ caused w e p
  | NoOutcome => True
  end.
Proof.
  destruct r as [a s'|e s'|]; simpl; [| |trivial].
  - intros (ext & E & F) p Hp. unfold new_reads in Hp.
    rewrite E, skipn_app, skipn_all, Nat.sub_diag in Hp. simpl in Hp.
    rewrite List.Forall_forall in F. now apply F.
  - intros (ext & q & E & Hq & Hc). exists q. split; [|exact Hc].
    unfold new_reads. rewrite E, skipn_app, skipn_all, Nat.sub_diag. exact Hq.
Qed.

(** Claim C5: a file whose text does not parse makes the load throw
    the [SyntaxError] of [JSON.parse], with [required] true or false,
    for a call of [loadJSON] and for a load that is one of the items
    of an array; a run that returns a value, [null] included, has
    read well-formed files only, at whatever depth; and the error of
    a run that throws comes from one of the files it read: it is the
    [SyntaxError] of a file that does not parse, or the error of a
    read that failed. *)
Theorem parse_failure_is_fatal (fuel : nat) (path : string)
    (required : bool) (s : state) :
  (malformed w path = true ->
   Index.loadJSON fuel w path env required s
   = Throw Index.SyntaxError (State (heap s) (reads s ++ [path])))
  /\ (malformed w path = true ->
      Index.complete w (path, required) = CThrow Index.SyntaxError)
  /\ match Index.loadJSON fuel w path env required s with
     | Ret _ s' => forall p, In p (new_reads s s') -> malformed w p = false
     | Throw e s' =>
         exists p, In p (new_reads s s')
                   /\ (malformed w p = true /\ e = Index.SyntaxError
                       \/ Index.readFile w p = inl e)
     | NoOutcome => True
     end.
Proof.
  split; [|split].
  - unfold malformed, Index.loadJSON, Index.loadJSON_with.
    destruct (Index.readFile w path) as [e|text]; [discriminate|].
    destruct (json_parse w text); [discriminate|]. reflexivity.
  - unfold malformed, Index.complete.
    destruct (Index.readFile w path) as [e|text]; [discriminate|].
    destruct (json_parse w text); [discriminate|]. reflexivity.
  - apply sound_run_reads. unfold Index.loadJSON.
    apply loadJSON_with_sound. intros v d s'. apply resolve_sound.
Qed.

End ParseFailure.

Lemma parse_failure_is_fatal_witness :
  Index.loadJSON 5 Demo.demo_world "/x/bad.json" ∅ false Demo.s0
  = Store.Throw Index.SyntaxError (Store.State ∅ ["/x/bad.json"]).
Proof.
  apply (proj1 (parse_failure_is_fatal Demo.demo_world ∅ 5 "/x/bad.json" false
                  Demo.s0)).
  reflexivity.
Defined.

(** A malformed file two links down, behind optional links only. *)
Example parse_failure_nested :
  Index.loadJSON 5 Demo.demo_world "/x/deep.json" ∅ false Demo.s0
  = Store.Throw Index.SyntaxError
      (Store.State {[ 0 := Store.CObj [("d", Store.VStr "@bad.json")] ]}
         ["/x/deep.json"; "/x/bad.json"]).
Proof. vm_compute. reflexivity. Qed.

(** Two links in one array, the first to a file that does not parse,
    the second to a file that is required and missing.  Both reads
    are started; the call is rejected with the error of the load that
    completes first: the [SyntaxError] of the first file in the one
    world, the error of the missing file in the other. *)
Example parse_failure_race :
  Index.resolve 3 DemoRace.first_first (Store.VRef 0) "/x" ∅
    (Store.State
       {[ 0 := Store.CArr [Store.VStr "@bad.json";
                           Store.VStr "@!missing.json"] ]} [])
  = Store.Throw Index.SyntaxError
      (Store.State
         {[ 0 := Store.CArr [Store.VStr "@bad.json";
                             Store.VStr "@!missing.json"] ]}
         ["/x/bad.json"; "/x/!missing.json"])
  /\ Index.resolve 3 DemoRace.second_first (Store.VRef 0) "/x" ∅
       (Store.State
          {[ 0 := Store.CArr [Store.VStr "@bad.json";
                              Store.VStr "@!missing.json"] ]} [])
     = Store.Throw Demo.ENOENT
         (Store.State
            {[ 0 := Store.CArr [Store.VStr "@bad.json";
                                Store.VStr "@!missing.json"] ]}
            ["/x/bad.json"; "/x/!missing.json"]).
Proof. split; vm_compute; reflexivity. Qed.

(** ** Objects in place, arrays anew *)

Section InPlace.

Import Js JsString Store Shape Tasks.

Lemma kept_refl (h : gmap nat cell) : kept h h.
Proof. intros l. destruct (h !! l) as [[fs|items]|]; eauto. Qed.

Lemma kept_trans (h1 h2 h3 : gmap nat cell) :
  kept h1 h2 -> kept h2 h3 -> kept h1 h3.
Proof.
  intros H12 H23 l. specialize (H12 l). specialize (H23 l).
  destruct (h1 !! l) as [[fs|items]|]; [| |trivial].
  - destruct H12 as (fs2 & E2 & K2). rewrite E2 in H23.
    destruct H23 as (fs3 & E3 & K3). exists fs3. split; [assumption|].
    congruence.
  - now rewrite H12 in H23.
Qed.

Lemma kept_subseteq (h h' : gmap nat cell) : h ⊆ h' -> kept h h'.
Proof.
  intros Hsub l. destruct (h !! l) as [[fs|items]|] eqn:E; [| |trivial].
  - exists fs. split; [|reflexivity].
    eapply lookup_weaken; eauto.
  - eapply lookup_weaken; eauto.
Qed.

Lemma alloc_cell_subseteq (c : cell) (h : gmap nat cell) :
  h ⊆ (alloc_cell c h).2 /\ h !! (alloc_cell c h).1 = None.
Proof.
  unfold alloc_cell. cbn [fst snd].
  assert (Hf : h !! fresh (dom h) = None).
  { apply not_elem_of_dom. apply is_fresh. }
  split; [|exact Hf]. now apply insert_subseteq.
Qed.

Lemma alloc_subseteq (j : json) : forall h, h ⊆ (alloc j h).2.
Proof.
  revert j. fix IH 1. intros j h. destruct j as [| | | |items|fields].
  - reflexivity.
  - reflexivity.
  - reflexivity.
  - reflexivity.
  - cbn [alloc].
    assert (Hitems : forall h0,
      h0 ⊆ ((fix alloc_items (js : list json) (h : gmap nat cell) :=
               match js with
               | [] => ([], h)
               | x :: rest =>
                   let '(v, h1) := alloc x h in
                   let '(vs, h2) := alloc_items rest h1 in
                   (v :: vs, h2)
               end) items h0).2).
    { induction items as [|x items IHi]; intros h0; [reflexivity|].
      pose proof (IH x h0) as Hx.
      destruct (alloc x h0) as [v h1]. cbn [snd] in Hx.
      specialize (IHi h1).
      destruct ((fix alloc_items (js : list json) (h : gmap nat cell) :=
               match js with
               | [] => ([], h)
               | x :: rest =>
                   let '(v, h1) := alloc x h in
                   let '(vs, h2) := alloc_items rest h1 in
                   (v :: vs, h2)
               end) items h1) as [vs h2].
      cbn [snd] in *. now transitivity h1. }
    specialize (Hitems h).
    destruct ((fix alloc_items (js : list json) (h : gmap nat cell) :=
               match js with
               | [] => ([], h)
               | x :: rest =>
                   let '(v, h1) := alloc x h in
                   let '(vs, h2) := alloc_items rest h1 in
                   (v :: vs, h2)
               end) items h) as [vs h1].
    cbn [snd] in Hitems.
    pose proof (alloc_cell_subseteq (CArr vs) h1) as [Hc _].
    destruct (alloc_cell (CArr vs) h1) as [l h2]. cbn [snd] in *.
    now transitivity h1.
  - cbn [alloc].
    assert (Hfields : forall acc h0,
      h0 ⊆ ((fix alloc_fields (js : list (string * json))
                 (acc : list (string * value)) (h : gmap nat cell) :=
               match js with
               | [] => (acc, h)
               | (k, x) :: rest =>
                   let '(v, h1) := alloc x h in
                   alloc_fields rest (set_field acc k v) h1
               end) fields acc h0).2).
    { induction fields as [|[k x] fields IHf]; intros acc h0; [reflexivity|].
      pose proof (IH x h0) as Hx.
      destruct (alloc x h0) as [v h1]. cbn [snd] in Hx.
      specialize (IHf (set_field acc k v) h1).
      now transitivity h1. }
    specialize (Hfields [] h).
    destruct ((fix alloc_fields (js : list (string * json))
                 (acc : list (string * value)) (h : gmap nat cell) :=
               match js with
               | [] => (acc, h)
               | (k, x) :: rest =>
                   let '(v, h1) := alloc x h in
                   alloc_fields rest (set_field acc k v) h1
               end) fields [] h) as [fs h1].
    cbn [snd] in Hfields.
    pose proof (alloc_cell_subseteq (CObj fs) h1) as [Hc _].
    destruct (alloc_cell (CObj fs) h1) as [l h2]. cbn [snd] in *.
    now transitivity h1.
Qed.

Lemma set_field_names (fields : list (string * value)) (name : string)
    (v : value) :
  In name (map fst fields) ->
  map fst (set_field fields name v) = map fst fields.
Proof.
  induction fields as [|[k x] fields IH]; [intros []|].
  intros Hin. cbn [set_field]. destruct (String.eqb k name) eqn:E.
  - reflexivity.
  - cbn [map fst]. f_equal. apply IH. destruct Hin as [Hk|Hin]; [|assumption].
    cbn [fst] in Hk. apply String.eqb_neq in E. congruence.
Qed.

Lemma set_prop_kept (h : gmap nat cell) (l : nat) (name : string) (v : value)
    (fields : list (string * value)) :
  h !! l = Some (CObj fields) -> In name (map fst fields) ->
  kept h (set_prop h l name v).
Proof.
  intros Hl Hin l'. unfold set_prop. rewrite Hl.
  destruct (decide (l' = l)) as [->|Hne].
  - rewrite Hl. exists (set_field fields name v). split.
    + apply lookup_insert_eq.
    + now apply set_field_names.
  - rewrite lookup_insert_ne by congruence.
    destruct (h !! l') as [[fs|items]|]; eauto.
Qed.

Lemma frames_map_TRun {C L : Type} (items : list value) (c : C) :
  flat_map (frames (C:=C) (L:=L)) (map (fun i => TRun i c) items) = [].
Proof. induction items as [|i items IH]; [reflexivity|exact IH]. Qed.

Lemma waits_kept {C L : Type} (h h' : gmap nat cell) (t : task C L) :
  kept h h' -> waits h t -> waits h' t.
Proof.
  intros K. unfold waits. apply List.Forall_impl. intros [[l name] rest].
  intros (fields & Hl & Hin). cbn [fst snd] in *.
  specialize (K l). rewrite Hl in K. destruct K as (fields' & Hl' & Hn).
  exists fields'. split; [exact Hl'|]. now rewrite Hn.
Qed.

Lemma next_prop_waits {C L : Type} (l : nat) (rest : list string) (c : C)
    (s : state) (fields : list (string * value)) :
  heap s !! l = Some (CObj fields) ->
  (forall x, In x rest -> In x (map fst fields)) ->
  waits (C:=C) (L:=L) (heap s) (next_prop l rest c s).
Proof.
  intros Hl Hin. unfold waits, next_prop. destruct rest as [|name rest].
  - constructor.
  - cbn [frames]. constructor; [|constructor]. now exists fields.
Qed.

(** One step of a task leaves the objects and the arrays of the store
    in place. *)
Lemma step_kept {C L : Type} (start_link : C -> string -> L * string)
    (complete : L -> completion C) (t t' : task C L) (s s' : state) :
  step start_link complete t s t' s' ->
  waits (heap s) t -> kept (heap s) (heap s') /\ waits (heap s') t'.
Proof.
  induction 1 as [v c s|l s|l name r rest c s|l name e rest c s
                 |l name t t' rest c s s' _ IH|ts e s Ht|ts vs s Hr
                 |pre t t' post s s' _ IH|t s]; intros W.
  - split.
    + unfold start. destruct v as [| |b|n|str|l]; try apply kept_refl.
      * destruct (first_is "@" str); [|apply kept_refl].
        destruct (start_link c str). apply kept_refl.
      * destruct (heap s !! l) as [[fields|items]|]; apply kept_refl.
    + unfold start. destruct v as [| |b|n|str|l]; try (now constructor).
      * destruct (first_is "@" str); [|now constructor].
        destruct (start_link c str). constructor.
      * destruct (heap s !! l) as [[fields|items]|] eqn:Hl;
          [| |now constructor].
        -- cbn [fst snd]. now apply (next_prop_waits l _ c s fields).
        -- unfold waits. cbn [snd fst frames].
           rewrite frames_map_TRun. constructor.
  - unfold finish. destruct (complete l) as [e| |j c|].
    + split; [apply kept_refl|constructor].
    + split; [apply kept_refl|constructor].
    + pose proof (alloc_subseteq j (heap s)) as Hsub.
      destruct (alloc j (heap s)) as [data h]. cbn [fst snd heap] in *.
      split; [now apply kept_subseteq|constructor].
    + split; [apply kept_refl|constructor].
  - unfold waits in W. cbn [frames] in W. inversion W as [|? ? Hf _]; subst.
    destruct Hf as (fields & Hl & Hin). cbn [fst snd] in *.
    assert (K : kept (heap s) (set_prop (heap s) l name r)).
    { apply (set_prop_kept _ _ _ _ fields Hl). apply Hin. now left. }
    split; [exact K|]. cbn [heap].
    pose proof (K l) as Kl. rewrite Hl in Kl.
    destruct Kl as (fields' & Hl' & Hn).
    apply (next_prop_waits l rest c
             (State (set_prop (heap s) l name r) (reads s)) fields' Hl').
    intros x Hx. rewrite Hn. apply Hin. now right.
  - split; [apply kept_refl|constructor].
  - unfold waits in W. cbn [frames] in W. inversion W as [|? ? Hf Wt]; subst.
    destruct (IH Wt) as [K Wt']. split; [exact K|].
    unfold waits. cbn [frames]. constructor; [|exact Wt'].
    destruct Hf as (fields & Hl & Hin). cbn [fst snd] in *.
    specialize (K l). rewrite Hl in K. destruct K as (fields' & Hl' & Hn).
    exists fields'. split; [exact Hl'|]. now rewrite Hn.
  - split; [apply kept_refl|constructor].
  - pose proof (alloc_cell_subseteq (CArr vs) (heap s)) as [Hsub _].
    split; [now apply kept_subseteq|constructor].
  - unfold waits in W. cbn [frames] in W. rewrite flat_map_app in W.
    cbn [flat_map] in W. apply Forall_app in W as [W1 W2].
    apply Forall_app in W2 as [W2 W3].
    destruct (IH W2) as [K W2']. split; [exact K|].
    unfold waits. cbn [frames]. rewrite flat_map_app. cbn [flat_map].
    apply Forall_app. split; [|apply Forall_app; split; [exact W2'|]].
    + assert (H1 : waits (heap s') (TAll pre)) by now apply (waits_kept (heap s)).
      exact H1.
    + assert (H3 : waits (heap s') (TAll post)) by now apply (waits_kept (heap s)).
      exact H3.
  - split; [apply kept_refl|exact W].
Qed.

Lemma reach_kept {C L : Type} (start_link : C -> string -> L * string)
    (complete : L -> completion C) (t t' : task C L) (s s' : state) :
  reach start_link complete t s t' s' ->
  waits (heap s) t -> kept (heap s) (heap s') /\ waits (heap s') t'.
Proof.
  induction 1 as [t s|t s t1 s1 t2 s2 H1 _ IH]; intros W.
  - split; [apply kept_refl|exact W].
  - destruct (step_kept _ _ _ _ _ _ H1 W) as [K1 W1].
    destruct (IH W1) as [K2 W2]. split; [|exact W2].
    eapply kept_trans; eassumption.
Qed.

Lemma kept_None (h h' : gmap nat cell) (l : nat) :
  kept h h' -> h' !! l = None -> h !! l = None.
Proof.
  intros K Hn. specialize (K l).
  destruct (h !! l) as [[fs|items]|]; [| |reflexivity].
  - destruct K as (fs' & E & _). congruence.
  - congruence.
Qed.

Lemma step_gathers {C L : Type} (start_link : C -> string -> L * string)
    (complete : L -> completion C) (h0 : gmap nat cell) (n : nat)
    (t t' : task C L) (s s' : state) :
  step start_link complete t s t' s' ->
  kept h0 (heap s) -> gathers h0 n t s -> gathers h0 n t' s'.
Proof.
  intros H K G.
  destruct H as [v c s|l s|l name r rest c s|l name e rest c s
                |l name t t' rest c s s' _|ts e s Ht|ts vs s Hr
                |pre t t' post s s' _|t s];
    try (now cbn in G); try exact G.
  - cbn in G. cbn [gathers heap].
    pose proof (alloc_cell_subseteq (CArr vs) (heap s)) as [_ Hfresh].
    exists (alloc_cell (CArr vs) (heap s)).1, vs.
    split; [reflexivity|]. split; [exact (kept_None _ _ _ K Hfresh)|].
    split; [apply lookup_insert_eq|].
    destruct (all_ret_values _ _ Hr) as (_ & Hlen & _). congruence.
  - cbn in G. cbn [gathers]. rewrite length_app in *. exact G.
Qed.

(** The items of an array, resolved together: the objects and arrays
    of the store are kept, and the value is a new array of as many
    items. *)
Lemma all_kept {C L : Type} (start_link : C -> string -> L * string)
    (complete : L -> completion C) (turns : list nat) (items : list value)
    (c : C) (s : state) (r : value) (s' : state) :
  all start_link complete turns items c s = Ret r s' ->
  kept (heap s) (heap s')
  /\ exists l' vs,
       r = VRef l' /\ heap s !! l' = None
       /\ heap s' !! l' = Some (CArr vs) /\ length vs = length items.
Proof.
  intros H. unfold all in H.
  pose proof (run_reach start_link complete turns
                (TAll (map (fun i => TRun i c) items)) s) as Hr.
  rewrite H in Hr.
  assert (W : waits (heap s) (TAll (map (fun i : value => TRun (L:=L) i c) items))).
  { unfold waits. cbn [frames]. rewrite frames_map_TRun. constructor. }
  split; [exact (proj1 (reach_kept _ _ _ _ _ _ Hr W))|].
  assert (G : kept (heap s) (heap s') /\ waits (heap s') (TRet (C:=C) (L:=L) r)
              /\ gathers (heap s) (length items) (TRet (C:=C) (L:=L) r) s').
  { apply (reach_invariant start_link complete
             (fun t s1 => kept (heap s) (heap s1) /\ waits (heap s1) t
                          /\ gathers (heap s) (length items) t s1)
             ) with (t := TAll (map (fun i => TRun i c) items)) (s := s).
    - intros t0 s0 t1 s1 Hs (K0 & W0 & G0).
      destruct (step_kept _ _ _ _ _ _ Hs W0) as [K1 W1].
      split; [eapply kept_trans; eassumption|]. split; [exact W1|].
      eapply step_gathers; eassumption.
    - exact Hr.
    - split; [apply kept_refl|]. split; [exact W|].
      cbn [gathers]. apply length_map. }
  destruct G as (_ & _ & G). exact G.
Qed.

Lemma resolve_props_kept (f : value -> state -> result value) (l : nat) :
  keeps f ->
  forall names s fields u s',
    heap s !! l = Some (CObj fields) ->
    (forall name, In name names -> In name (map fst fields)) ->
    Index.resolve_props f l names s = Ret u s' ->
    kept (heap s) (heap s').
Proof.
  intros Hf. induction names as [|name names IH];
    intros s fields u s' Hl Hin H.
  - injection H as _ <-. apply kept_refl.
  - cbn [Index.resolve_props] in H.
    destruct (f (get_prop (heap s) l name) s) as [v s1|e s1|] eqn:E1;
      try discriminate.
    pose proof (Hf _ _ _ _ E1) as K1.
    pose proof (K1 l) as K1l. rewrite Hl in K1l.
    destruct K1l as (fields1 & Hl1 & Hn1).
    assert (Hname : In name (map fst fields1)).
    { rewrite Hn1. apply Hin. now left. }
    pose proof (set_prop_kept (heap s1) l name v fields1 Hl1 Hname) as K2.
    pose proof (K2 l) as K2l. rewrite Hl1 in K2l.
    destruct K2l as (fields2 & Hl2 & Hn2).
    eapply kept_trans; [exact K1|]. eapply kept_trans; [exact K2|].
    apply (IH (State (set_prop (heap s1) l name v) (reads s1)) fields2 u s'
             Hl2); [|exact H].
    intros n Hn. rewrite Hn2, Hn1. apply Hin. now right.
Qed.

Lemma loadJSON_with_kept (w : world)
    (f : value -> string -> gmap string string -> state -> result value)
    (path : string) (env : gmap string string) (required : bool) :
  (forall d e, keeps (fun v => f v d e)) ->
  forall s r s',
    Index.loadJSON_with f w path env required s = Ret r s' ->
    kept (heap s) (heap s').
Proof.
  intros Hf s r s' H. unfold Index.loadJSON_with in H. cbn [heap reads] in H.
  destruct (Index.readFile w path) as [e|text].
  - unfold Index.loadJSON_catch in H.
    destruct (_ && _); [|discriminate]. injection H as _ <-. apply kept_refl.
  - destruct (json_parse w text) as [j|].
    + pose proof (alloc_subseteq j (heap s)) as Hsub.
      destruct (alloc j (heap s)) as [data h]. cbn [snd] in Hsub.
      eapply kept_trans; [apply kept_subseteq; exact Hsub|].
      apply (Hf _ _ _ _ _ _ H).
    + unfold Index.loadJSON_catch in H.
      destruct (_ && _); [|discriminate]. injection H as _ <-. apply kept_refl.
Qed.

Lemma resolve_kept (w : world) (fuel : nat) :
  forall d env, keeps (fun v => Index.resolve fuel w v d env).
Proof.
  induction fuel as [|fuel IH]; intros d env v s r s' H; [discriminate|].
  cbn [Index.resolve] in H.
  destruct v as [| |b|n|str|l];
    try (injection H as _ <-; apply kept_refl).
  - destruct (first_is "@" str); [|injection H as _ <-; apply kept_refl].
    destruct (Index.link w str d env) as [path required].
    eapply loadJSON_with_kept; [|exact H]. exact IH.
  - destruct (heap s !! l) as [[fields|items]|] eqn:Hl;
      [| |injection H as _ <-; apply kept_refl].
    + destruct (Index.resolve_props _ l (map fst fields) s) as [u s1|e s1|]
        eqn:E; try discriminate.
      injection H as _ <-.
      eapply resolve_props_kept; [apply IH|exact Hl| |exact E]. auto.
    + exact (proj1 (all_kept _ _ _ _ _ _ _ _ H)).
Qed.

End InPlace.

(** The caller's object after the call: the link has given way to the
    object loaded for it, which lies in the store too. *)
Example resolve_mutates_caller_object :
  Index.resolve 5 Demo.demo_world (Store.VRef 0) "/x" ∅
    (Store.State {[ 0 := Store.CObj [("n", Store.VNum 7);
                                     ("c", Store.VStr "@c.json")] ]} [])
  = Store.Ret (Store.VRef 0)
      (Store.State
         (<[ 1 := Store.CObj [("v", Store.VNum 1)] ]>
            {[ 0 := Store.CObj [("n", Store.VNum 7); ("c", Store.VRef 1)] ]})
         ["/x/c.json"]).
Proof. vm_compute. reflexivity. Qed.

(** An array comes back as a new array; the one passed in is as it was. *)
Example resolve_copies_array :
  Index.resolve 5 Demo.demo_world (Store.VRef 0) "/x" ∅
    (Store.State {[ 0 := Store.CArr [Store.VNum 7; Store.VStr "@c.json"] ]} [])
  = Store.Ret (Store.VRef 2)
      (Store.State
         (<[ 2 := Store.CArr [Store.VNum 7; Store.VRef 1] ]>
            (<[ 1 := Store.CObj [("v", Store.VNum 1)] ]>
               {[ 0 := Store.CArr [Store.VNum 7; Store.VStr "@c.json"] ]}))
         ["/x/c.json"]).
Proof. vm_compute. reflexivity. Qed.

(** ** The values of the properties after the call *)

Section Overwritten.

#[local] Set Warnings "-clear-no-such-hyp".

Import Js JsString Store Shape Footprint Tasks.

Lemma value_in_mono (F F' : gset nat) (v : value) :
  F ⊆ F' -> value_in F v -> value_in F' v.
Proof. intros Hs. destruct v; simpl; auto. Qed.

Lemma Forall_value_in_mono (F F' : gset nat) (vs : list value) :
  F ⊆ F' -> Forall (value_in F) vs -> Forall (value_in F') vs.
Proof.
  intros Hs H. eapply Forall_impl; [exact H|].
  intros v. now apply value_in_mono.
Qed.

Lemma cell_in_mono (F F' : gset nat) (c : cell) :
  F ⊆ F' -> cell_in F c -> cell_in F' c.
Proof. intros Hs. destruct c; simpl; now apply Forall_value_in_mono. Qed.

Lemma frame_refl (h : gmap nat cell) (F : gset nat) :
  closed h F -> frame h F h F.
Proof. intros Hc. repeat split; auto. intros l H1 H2. contradiction. Qed.

Lemma frame_trans (h1 h2 h3 : gmap nat cell) (F1 F2 F3 : gset nat) :
  frame h1 F1 h2 F2 -> frame h2 F2 h3 F3 -> frame h1 F1 h3 F3.
Proof.
  intros (S12 & N12 & C2 & U12) (S23 & N23 & C3 & U23).
  split; [set_solver|]. split; [|split; [exact C3|]].
  - intros l H3 H1. destruct (decide (l ∈ F2)) as [H2|H2].
    + now apply N12.
    + specialize (N23 l H3 H2).
      destruct (h1 !! l) as [c|] eqn:E; [|reflexivity].
      rewrite <- (U12 l H1 (mk_is_Some _ _ E)) in E. congruence.
  - intros l H1 [c E].
    assert (H2 : l ∉ F2).
    { intros H2. specialize (N12 l H2 H1). congruence. }
    rewrite <- (U12 l H1 (mk_is_Some _ _ E)).
    apply U23; [exact H2|]. rewrite (U12 l H1 (mk_is_Some _ _ E)). eauto.
Qed.

(** A new cell that refers into [F] extends the frame. *)
Lemma alloc_cell_frame (c : cell) (h : gmap nat cell) (F : gset nat) :
  closed h F -> cell_in F c ->
  frame h F (alloc_cell c h).2 (F ∪ {[ (alloc_cell c h).1 ]})
  /\ (alloc_cell c h).1 ∈ F ∪ {[ (alloc_cell c h).1 ]}.
Proof.
  intros Hc Hin. unfold alloc_cell. cbn [fst snd].
  assert (Hf : h !! fresh (dom h) = None) by (apply not_elem_of_dom, is_fresh).
  revert Hf. generalize (fresh (dom h)). intros l Hf.
  split; [|set_solver]. split; [set_solver|]. split; [|split].
  - intros l' Ha Hb. assert (l' = l) as -> by set_solver. exact Hf.
  - intros l' Ha. destruct (decide (l' = l)) as [->|Hne].
    + exists c. rewrite lookup_insert_eq. split; [reflexivity|].
      eapply cell_in_mono; [|exact Hin]. set_solver.
    + assert (Hb : l' ∈ F) by set_solver.
      destruct (Hc l' Hb) as (c' & E & Hc').
      exists c'. rewrite lookup_insert_ne by congruence. split; [exact E|].
      eapply cell_in_mono; [|exact Hc']. set_solver.
  - intros l' Ha [c' E]. rewrite lookup_insert_ne; [reflexivity|].
    intros <-. congruence.
Qed.

Lemma set_field_values (F : gset nat) (fields : list (string * value))
    (name : string) (v : value) :
  Forall (value_in F) (map snd fields) -> value_in F v ->
  Forall (value_in F) (map snd (set_field fields name v)).
Proof.
  intros H Hv. induction fields as [|[k x] fields IH]; simpl.
  - now constructor.
  - inversion H as [|? ? Hx Hr]; subst.
    destruct (String.eqb k name); simpl; constructor; auto.
Qed.

Lemma get_field_value (F : gset nat) (fields : list (string * value))
    (name : string) :
  Forall (value_in F) (map snd fields) -> value_in F (get_field fields name).
Proof.
  intros H. induction fields as [|[k x] fields IH]; simpl; [exact I|].
  inversion H as [|? ? Hx Hr]; subst.
  destruct (String.eqb k name); auto.
Qed.

Lemma get_prop_value (h : gmap nat cell) (F : gset nat) (l : nat)
    (name : string) :
  closed h F -> l ∈ F -> value_in F (get_prop h l name).
Proof.
  intros Hc Hl. unfold get_prop. destruct (Hc l Hl) as (c & E & Hin).
  rewrite E. destruct c; [|exact I]. now apply get_field_value.
Qed.

(** Writing a property of an object of [F] stays in the frame. *)
Lemma set_prop_frame (h : gmap nat cell) (F : gset nat) (l : nat)
    (name : string) (v : value) :
  closed h F -> l ∈ F -> value_in F v ->
  frame h F (set_prop h l name v) F.
Proof.
  intros Hc Hl Hv. split; [reflexivity|]. split; [intros ? ? ?; contradiction|].
  unfold set_prop. destruct (Hc l Hl) as (c & E & Hin). rewrite E.
  destruct c as [fields|items]; [|split; [exact Hc|auto]].
  split.
  - intros l' H1. destruct (decide (l' = l)) as [->|Hne].
    + eexists. rewrite lookup_insert_eq. split; [reflexivity|].
      now apply set_field_values.
    + rewrite lookup_insert_ne by congruence. now apply Hc.
  - intros l' H1 _. rewrite lookup_insert_ne; [reflexivity|].
    intros <-. contradiction.
Qed.

(** The graph [JSON.parse] builds is new, and closed together with
    what was closed before. *)
Lemma alloc_frame (j : json) :
  forall h F, closed h F ->
    exists F', frame h F (alloc j h).2 F' /\ value_in F' (alloc j h).1.
Proof.
  revert j. fix IH 1. intros j h F Hc.
  destruct j as [|b|n|str|items|fields];
    try (exists F; split; [now apply frame_refl|exact I]).
  - cbn [alloc].
    assert (Hitems : forall h0 F0, closed h0 F0 ->
      exists F1,
        frame h0 F0
          ((fix alloc_items (js : list json) (h : gmap nat cell) :=
              match js with
              | [] => ([], h)
              | x :: rest =>
                  let '(v, h1) := alloc x h in
                  let '(vs, h2) := alloc_items rest h1 in
                  (v :: vs, h2)
              end) items h0).2 F1
        /\ Forall (value_in F1)
             ((fix alloc_items (js : list json) (h : gmap nat cell) :=
                 match js with
                 | [] => ([], h)
                 | x :: rest =>
                     let '(v, h1) := alloc x h in
                     let '(vs, h2) := alloc_items rest h1 in
                     (v :: vs, h2)
                 end) items h0).1).
    { induction items as [|x items IHi]; intros h0 F0 Hc0.
      - exists F0. split; [now apply frame_refl|constructor].
      - destruct (IH x h0 F0 Hc0) as (F1 & Fr1 & Hv).
        destruct (alloc x h0) as [v h1]. cbn [fst snd] in *.
        pose proof Fr1 as (S1 & _ & C1 & _).
        destruct (IHi h1 F1 C1) as (F2 & Fr2 & Hvs).
        destruct ((fix alloc_items (js : list json) (h : gmap nat cell) :=
              match js with
              | [] => ([], h)
              | x :: rest =>
                  let '(v, h1) := alloc x h in
                  let '(vs, h2) := alloc_items rest h1 in
                  (v :: vs, h2)
              end) items h1) as [vs h2].
        cbn [fst snd] in *. exists F2.
        split; [eapply frame_trans; eassumption|].
        constructor; [|exact Hvs].
        destruct Fr2 as (S2 & _). now apply (value_in_mono F1). }
    destruct (Hitems h F Hc) as (F1 & Fr1 & Hvs).
    destruct ((fix alloc_items (js : list json) (h : gmap nat cell) :=
              match js with
              | [] => ([], h)
              | x :: rest =>
                  let '(v, h1) := alloc x h in
                  let '(vs, h2) := alloc_items rest h1 in
                  (v :: vs, h2)
              end) items h) as [vs h1].
    cbn [fst snd] in *. pose proof Fr1 as (_ & _ & C1 & _).
    destruct (alloc_cell_frame (CArr vs) h1 F1 C1 Hvs) as [Fr2 Hl].
    destruct (alloc_cell (CArr vs) h1) as [l h2]. cbn [fst snd] in *.
    exists (F1 ∪ {[l]}). split; [eapply frame_trans; eassumption|exact Hl].
  - cbn [alloc].
    assert (Hfields : forall acc h0 F0, closed h0 F0 ->
      Forall (value_in F0) (map snd acc) ->
      exists F1,
        frame h0 F0
          ((fix alloc_fields (js : list (string * json))
                (acc : list (string * value)) (h : gmap nat cell) :=
              match js with
              | [] => (acc, h)
              | (k, x) :: rest =>
                  let '(v, h1) := alloc x h in
                  alloc_fields rest (set_field acc k v) h1
              end) fields acc h0).2 F1
        /\ Forall (value_in F1)
             (map snd
                ((fix alloc_fields (js : list (string * json))
                      (acc : list (string * value)) (h : gmap nat cell) :=
                    match js with
                    | [] => (acc, h)
                    | (k, x) :: rest =>
                        let '(v, h1) := alloc x h in
                        alloc_fields rest (set_field acc k v) h1
                    end) fields acc h0).1)).
    { induction fields as [|[k x] fields IHf]; intros acc h0 F0 Hc0 Hacc.
      - exists F0. split; [now apply frame_refl|exact Hacc].
      - destruct (IH x h0 F0 Hc0) as (F1 & Fr1 & Hv).
        destruct (alloc x h0) as [v h1]. cbn [fst snd] in *.
        pose proof Fr1 as (S1 & _ & C1 & _).
        destruct (IHf (set_field acc k v) h1 F1 C1) as (F2 & Fr2 & Hvs).
        { apply set_field_values; [|exact Hv].
          now apply (Forall_value_in_mono F0). }
        exists F2. split; [eapply frame_trans; eassumption|exact Hvs]. }
    destruct (Hfields [] h F Hc) as (F1 & Fr1 & Hvs); [constructor|].
    destruct ((fix alloc_fields (js : list (string * json))
                (acc : list (string * value)) (h : gmap nat cell) :=
              match js with
              | [] => (acc, h)
              | (k, x) :: rest =>
                  let '(v, h1) := alloc x h in
                  alloc_fields rest (set_field acc k v) h1
              end) fields [] h) as [fs h1].
    cbn [fst snd] in *. pose proof Fr1 as (_ & _ & C1 & _).
    destruct (alloc_cell_frame (CObj fs) h1 F1 C1 Hvs) as [Fr2 Hl].
    destruct (alloc_cell (CObj fs) h1) as [l h2]. cbn [fst snd] in *.
    exists (F1 ∪ {[l]}). split; [eapply frame_trans; eassumption|exact Hl].
Qed.

Lemma values_map_TRun {C L : Type} (items : list value) (c : C) :
  flat_map (values (C:=C) (L:=L)) (map (fun i => TRun i c) items) = items.
Proof.
  induction items as [|i items IH]; [reflexivity|]. cbn. now rewrite IH.
Qed.

Lemma next_prop_in {C L : Type} (F : gset nat) (l : nat) (rest : list string)
    (c : C) (s : state) :
  closed (heap s) F -> l ∈ F ->
  task_in (C:=C) (L:=L) F (next_prop l rest c s).
Proof.
  intros Hc Hl. unfold task_in, next_prop. destruct rest as [|name rest].
  - cbn. constructor; [exact Hl|constructor].
  - cbn. constructor; [exact Hl|]. constructor; [|constructor].
    now apply get_prop_value.
Qed.

(** One step of a task stays within what the task holds and what is
    new. *)
Lemma step_framed {C L : Type} (start_link : C -> string -> L * string)
    (complete : L -> completion C) (t t' : task C L) (s s' : state) :
  step start_link complete t s t' s' ->
  forall F, closed (heap s) F -> task_in F t ->
    exists F', frame (heap s) F (heap s') F' /\ task_in F' t'.
Proof.
  induction 1 as [v c s|l s|l name r rest c s|l name e rest c s
                 |l name t t' rest c s s' _ IH|ts e s Ht|ts vs s Hr
                 |pre t t' post s s' _ IH|t s]; intros F Hc Hin.
  - unfold task_in in Hin. cbn [values] in Hin.
    inversion Hin as [|? ? Hv _]; subst.
    unfold start. destruct v as [| |b|n|str|l];
      try (exists F; split; [now apply frame_refl|exact Hin]).
    + destruct (first_is "@" str);
        [|exists F; split; [now apply frame_refl|exact Hin]].
      destruct (start_link c str) as [ld entry]. cbn [fst snd heap].
      exists F. split; [now apply frame_refl|constructor].
    + simpl in Hv. destruct (Hc l Hv) as (cl & E & Hcl). rewrite E.
      destruct cl as [fields|items]; cbn [fst snd].
      * exists F. split; [now apply frame_refl|]. now apply next_prop_in.
      * exists F. split; [now apply frame_refl|].
        unfold task_in. cbn [values]. now rewrite values_map_TRun.
  - unfold finish. destruct (complete l) as [e| |j c|]; cbn [fst snd].
    + exists F. split; [now apply frame_refl|constructor].
    + exists F. split; [now apply frame_refl|].
      constructor; [exact I|constructor].
    + destruct (alloc_frame j (heap s) F Hc) as (F1 & Fr1 & Hv).
      destruct (alloc j (heap s)) as [data h]. cbn [fst snd heap] in *.
      exists F1. split; [exact Fr1|]. constructor; [exact Hv|constructor].
    + exists F. split; [now apply frame_refl|constructor].
  - unfold task_in in Hin. cbn [values] in Hin.
    inversion Hin as [|? ? Hl Hin']; subst.
    inversion Hin' as [|? ? Hr _]; subst. simpl in Hl.
    pose proof (set_prop_frame _ _ l name r Hc Hl Hr) as Fr.
    exists F. split; [exact Fr|]. destruct Fr as (_ & _ & C1 & _).
    now apply next_prop_in.
  - exists F. split; [now apply frame_refl|constructor].
  - unfold task_in in Hin. cbn [values] in Hin.
    inversion Hin as [|? ? Hl Hin']; subst.
    destruct (IH F Hc Hin') as (F1 & Fr1 & Hin1).
    exists F1. split; [exact Fr1|]. unfold task_in. cbn [values].
    constructor; [|exact Hin1]. destruct Fr1 as (S1 & _).
    now apply (value_in_mono F).
  - exists F. split; [now apply frame_refl|constructor].
  - destruct (all_ret_values _ _ Hr) as (Hvs & _).
    unfold task_in in Hin. cbn [values] in Hin. rewrite Hvs in Hin.
    destruct (alloc_cell_frame (CArr vs) (heap s) F Hc Hin) as [Fr Hl].
    eexists. split; [exact Fr|]. constructor; [exact Hl|constructor].
  - unfold task_in in Hin. cbn [values] in Hin. rewrite flat_map_app in Hin.
    cbn [flat_map] in Hin. apply Forall_app in Hin as [H1 H2].
    apply Forall_app in H2 as [H2 H3].
    destruct (IH F Hc H2) as (F1 & Fr1 & Hin1).
    exists F1. split; [exact Fr1|]. destruct Fr1 as (S1 & _).
    unfold task_in. cbn [values]. rewrite flat_map_app. cbn [flat_map].
    apply Forall_app. split; [now apply (Forall_value_in_mono F)|].
    apply Forall_app. split; [exact Hin1|now apply (Forall_value_in_mono F)].
  - exists F. split; [now apply frame_refl|exact Hin].
Qed.

Lemma reach_framed {C L : Type} (start_link : C -> string -> L * string)
    (complete : L -> completion C) (t t' : task C L) (s s' : state) :
  reach start_link complete t s t' s' ->
  forall F, closed (heap s) F -> task_in F t ->
    exists F', frame (heap s) F (heap s') F' /\ task_in F' t'.
Proof.
  induction 1 as [t s|t s t1 s1 t2 s2 H1 _ IH]; intros F Hc Hin.
  - exists F. split; [now apply frame_refl|exact Hin].
  - destruct (step_framed _ _ _ _ _ _ H1 F Hc Hin) as (F1 & Fr1 & Hin1).
    pose proof Fr1 as (_ & _ & C1 & _).
    destruct (IH F1 C1 Hin1) as (F2 & Fr2 & Hin2).
    exists F2. split; [eapply frame_trans; eassumption|exact Hin2].
Qed.

(** The items of an array, resolved together. *)
Lemma all_framed {C L : Type} (start_link : C -> string -> L * string)
    (complete : L -> completion C) (turns : list nat) (items : list value)
    (c : C) (s : state) (r : value) (s' : state) (F : gset nat) :
  all start_link complete turns items c s = Ret r s' ->
  Forall (value_in F) items -> closed (heap s) F ->
  exists F', frame (heap s) F (heap s') F' /\ value_in F' r.
Proof.
  intros H Hin Hc. unfold all in H.
  pose proof (run_reach start_link complete turns
                (TAll (map (fun i => TRun i c) items)) s) as Hr.
  rewrite H in Hr.
  destruct (reach_framed _ _ _ _ _ _ Hr F Hc) as (F' & Fr & Hin').
  { unfold task_in. cbn [values]. now rewrite values_map_TRun. }
  exists F'. split; [exact Fr|]. now inversion Hin'.
Qed.

Lemma resolve_props_framed (f : value -> state -> result value) (l : nat) :
  framed f ->
  forall names s u s' F,
    Index.resolve_props f l names s = Ret u s' ->
    l ∈ F -> closed (heap s) F ->
    exists F', frame (heap s) F (heap s') F'.
Proof.
  intros Hf. induction names as [|name names IH]; intros s u s' F H Hl Hc.
  - injection H as _ <-. exists F. now apply frame_refl.
  - cbn [Index.resolve_props] in H.
    destruct (f (get_prop (heap s) l name) s) as [v s1|e s1|] eqn:E1;
      try discriminate.
    destruct (Hf _ _ _ _ F E1 (get_prop_value _ _ _ _ Hc Hl) Hc)
      as (F1 & Fr1 & Hv).
    pose proof Fr1 as (S1 & _ & C1 & _).
    assert (Hl1 : l ∈ F1) by set_solver.
    pose proof (set_prop_frame _ _ l name v C1 Hl1 Hv) as Fr2.
    pose proof Fr2 as (_ & _ & C2 & _).
    destruct (IH (State (set_prop (heap s1) l name v) (reads s1)) u s' F1
                H Hl1 C2) as (F3 & Fr3).
    exists F3. eapply frame_trans; [exact Fr1|].
    eapply frame_trans; [exact Fr2|exact Fr3].
Qed.

Lemma loadJSON_with_framed (w : world)
    (f : value -> string -> gmap string string -> state -> result value)
    (path : string) (env : gmap string string) (required : bool) :
  (forall d e, framed (fun v => f v d e)) ->
  forall s r s' F,
    Index.loadJSON_with f w path env required s = Ret r s' ->
    closed (heap s) F ->
    exists F', frame (heap s) F (heap s') F' /\ value_in F' r.
Proof.
  intros Hf s r s' F H Hc. unfold Index.loadJSON_with in H.
  cbn [heap reads] in H.
  destruct (Index.readFile w path) as [e|text].
  - unfold Index.loadJSON_catch in H.
    destruct (_ && _); [|discriminate]. injection H as <- <-.
    exists F. split; [now apply frame_refl|exact I].
  - destruct (json_parse w text) as [j|].
    + destruct (alloc_frame j (heap s) F Hc) as (F1 & Fr1 & Hv).
      destruct (alloc j (heap s)) as [data h]. cbn [fst snd] in *.
      pose proof Fr1 as (_ & _ & C1 & _).
      destruct (Hf _ _ _ _ _ _ F1 H Hv C1) as (F2 & Fr2 & Hr).
      exists F2. split; [eapply frame_trans; eassumption|exact Hr].
    + unfold Index.loadJSON_catch in H.
      destruct (_ && _); [|discriminate]. injection H as <- <-.
      exists F. split; [now apply frame_refl|exact I].
Qed.

Lemma resolve_framed (w : world) (fuel : nat) :
  forall d env, framed (fun v => Index.resolve fuel w v d env).
Proof.
  induction fuel as [|fuel IH]; intros d env v s r s' F H Hv Hc;
    [discriminate|].
  cbn [Index.resolve] in H.
  destruct v as [| |b|n|str|l];
    try (injection H as <- <-; exists F; split;
         [now apply frame_refl|exact Hv]).
  - destruct (first_is "@" str);
      [|injection H as <- <-; exists F; split;
        [now apply frame_refl|exact I]].
    destruct (Index.link w str d env) as [path required].
    eapply loadJSON_with_framed; [exact IH|exact H|exact Hc].
  - simpl in Hv. destruct (Hc l Hv) as (c & E & Hin). rewrite E in H.
    destruct c as [fields|items].
    + destruct (Index.resolve_props _ l (map fst fields) s) as [u s1|e s1|]
        eqn:E1; try discriminate.
      injection H as <- <-.
      destruct (resolve_props_framed _ l (IH d env) _ _ _ _ F E1 Hv Hc)
        as (F1 & Fr1).
      exists F1. split; [exact Fr1|]. destruct Fr1 as (S1 & _).
      simpl. set_solver.
    + exact (all_framed _ _ _ _ _ _ _ _ F H Hin Hc).
Qed.

Lemma alloc_JObj (fields : list (string * json)) (h : gmap nat cell) :
  alloc (JObj fields) h
  = let '(fs, h1) := AllocLoops.alloc_fields fields [] h in
    let '(l, h2) := alloc_cell (CObj fs) h1 in
    (VRef l, h2).
Proof. reflexivity. Qed.

Lemma set_field_nodup (acc : list (string * value)) (k : string) (v : value) :
  NoDup (map fst acc) -> NoDup (map fst (set_field acc k v)).
Proof.
  intros H. induction acc as [|[k' x] acc IH]; cbn [set_field].
  - simpl. apply NoDup_singleton.
  - cbn [map fst] in H. apply NoDup_cons in H as [Hk Hn].
    destruct (String.eqb k' k) eqn:E; cbn [map fst].
    + now apply NoDup_cons.
    + apply NoDup_cons. split; [|now apply IH].
      apply String.eqb_neq in E. clear IH Hn.
      induction acc as [|[k'' y] acc IHa]; cbn [set_field map fst].
      * set_solver.
      * destruct (String.eqb k'' k); cbn [map fst] in *; set_solver.
Qed.

Lemma alloc_fields_frame (fields : list (string * json)) :
  forall acc h F,
    closed h F -> Forall (value_in F) (map snd acc) -> NoDup (map fst acc) ->
    exists F',
      frame h F (AllocLoops.alloc_fields fields acc h).2 F'
      /\ Forall (value_in F')
           (map snd (AllocLoops.alloc_fields fields acc h).1)
      /\ NoDup (map fst (AllocLoops.alloc_fields fields acc h).1).
Proof.
  induction fields as [|[k x] fields IH]; intros acc h F Hc Hacc Hn.
  - exists F. split; [now apply frame_refl|]. split; assumption.
  - cbn [AllocLoops.alloc_fields].
    destruct (alloc_frame x h F Hc) as (F1 & Fr1 & Hv).
    destruct (alloc x h) as [v h1]. cbn [fst snd] in *.
    pose proof Fr1 as (S1 & _ & C1 & _).
    destruct (IH (set_field acc k v) h1 F1 C1) as (F2 & Fr2 & Hvs & Hn2).
    { apply set_field_values; [|exact Hv]. now apply (Forall_value_in_mono F). }
    { now apply set_field_nodup. }
    exists F2. split; [eapply frame_trans; eassumption|]. now split.
Qed.

(** The object [JSON.parse] builds has distinct property names, and
    its property values reach a closed part of the store in which the
    object itself is not. *)
Lemma alloc_object_tree (fields : list (string * json)) (h : gmap nat cell)
    (F : gset nat) :
  closed h F ->
  exists l fs F',
    (alloc (JObj fields) h).1 = VRef l
    /\ snd (alloc (JObj fields) h) !! l = Some (CObj fs)
    /\ NoDup (map fst fs)
    /\ closed (alloc (JObj fields) h).2 F' /\ (l ∉ F')
    /\ Forall (value_in F') (map snd fs).
Proof.
  intros Hc. rewrite alloc_JObj.
  destruct (alloc_fields_frame fields [] h F Hc) as (F1 & Fr1 & Hvs & Hn);
    [constructor|constructor|].
  destruct (AllocLoops.alloc_fields fields [] h) as [fs h1].
  cbn [fst snd] in *. destruct Fr1 as (_ & _ & C1 & _).
  unfold alloc_cell. cbn [fst snd].
  assert (Hf : h1 !! fresh (dom h1) = None) by (apply not_elem_of_dom, is_fresh).
  revert Hf. generalize (fresh (dom h1)). intros l Hf.
  assert (Hl : l ∉ F1).
  { intros Hl. destruct (C1 l Hl) as (c & E & _). congruence. }
  exists l, fs, F1. split; [reflexivity|]. split; [apply lookup_insert_eq|].
  split; [exact Hn|]. split; [|split; [exact Hl|exact Hvs]].
  intros l' Hl'. destruct (C1 l' Hl') as (c & E & Hin).
  exists c. split; [|exact Hin]. rewrite lookup_insert_ne; [exact E|].
  intros <-. contradiction.
Qed.

Lemma get_field_app (done : list (string * value)) (k : string) (x : value)
    (rest : list (string * value)) :
  k ∉ map fst done -> get_field (done ++ (k, x) :: rest) k = x.
Proof.
  induction done as [|[k' y] done IH]; intros Hk; cbn [app get_field].
  - now rewrite String.eqb_refl.
  - cbn [map fst] in Hk. destruct (String.eqb k' k) eqn:E.
    + apply String.eqb_eq in E. set_solver.
    + apply IH. set_solver.
Qed.

Lemma set_field_app (done : list (string * value)) (k : string) (x r : value)
    (rest : list (string * value)) :
  k ∉ map fst done ->
  set_field (done ++ (k, x) :: rest) k r = done ++ (k, r) :: rest.
Proof.
  induction done as [|[k' y] done IH]; intros Hk; cbn [app set_field].
  - now rewrite String.eqb_refl.
  - cbn [map fst] in Hk. destruct (String.eqb k' k) eqn:E.
    + apply String.eqb_eq in E. set_solver.
    + f_equal. apply IH. set_solver.
Qed.

Lemma written_impl (R R' : value -> state -> value -> state -> Prop)
    (l : nat) (before after : list (string * value)) (s s' : state) :
  (forall v s r s1, R v s r s1 -> R' v s r s1) ->
  written R l before s after s' -> written R' l before s after s'.
Proof.
  intros HR H. induction H as [s|k v r s s1 rest rest' s' H1 _ IH].
  - constructor.
  - econstructor; [apply HR; exact H1|exact IH].
Qed.

(** The loop over the properties of a tree-shaped object: the
    properties already visited hold what the resolver returned, the
    others are as they were. *)
Lemma resolve_props_overwrites (f : value -> state -> result value) (l : nat) :
  framed f ->
  forall todo done s u s' F,
    heap s !! l = Some (CObj (done ++ todo)) ->
    NoDup (map fst (done ++ todo)) ->
    closed (heap s) F -> l ∉ F -> Forall (value_in F) (map snd todo) ->
    Index.resolve_props f l (map fst todo) s = Ret u s' ->
    exists todo',
      heap s' !! l = Some (CObj (done ++ todo'))
      /\ written (returned f) l todo s todo' s'.
Proof.
  intros Hf. induction todo as [|[k x] todo IH];
    intros done s u s' F Hl Hn Hc HlF Hin H.
  - injection H as _ <-. exists []. split; [exact Hl|constructor].
  - cbn [map fst Index.resolve_props] in H.
    assert (Hk : k ∉ map fst done).
    { rewrite map_app in Hn. apply NoDup_app in Hn as (_ & Hd & _).
      intros Hk. apply (Hd k Hk). cbn [map fst]. set_solver. }
    unfold get_prop in H. rewrite Hl, (get_field_app _ _ _ _ Hk) in H.
    cbn [map snd] in Hin. apply Forall_cons in Hin as [Hx Hrest].
    destruct (f x s) as [r s1|e s1|] eqn:E1; try discriminate.
    destruct (Hf _ _ _ _ F E1 Hx Hc) as (F1 & (S1 & N1 & C1 & U1) & Hr).
    assert (Hl1 : heap s1 !! l = Some (CObj (done ++ (k, x) :: todo))).
    { rewrite (U1 l HlF); [exact Hl|]. rewrite Hl. eauto. }
    assert (HlF1 : l ∉ F1).
    { intros HlF1. specialize (N1 l HlF1 HlF). congruence. }
    assert (Hset : set_prop (heap s1) l k r
                   = <[l := CObj (done ++ (k, r) :: todo)]> (heap s1)).
    { unfold set_prop. now rewrite Hl1, (set_field_app _ _ _ _ _ Hk). }
    destruct (IH (done ++ [(k, r)])
                (State (set_prop (heap s1) l k r) (reads s1)) u s' F1)
      as (todo' & Hl' & Hall); [..|exact H|].
    + cbn [heap]. rewrite Hset, lookup_insert_eq. now rewrite <- app_assoc.
    + rewrite <- app_assoc. cbn [app]. rewrite map_app in *. exact Hn.
    + cbn [heap]. rewrite Hset. intros l' Hl'.
      destruct (C1 l' Hl') as (c & E & Hc').
      exists c. split; [|exact Hc']. rewrite lookup_insert_ne; [exact E|].
      intros <-. contradiction.
    + exact HlF1.
    + now apply (Forall_value_in_mono F).
    + exists ((k, r) :: todo'). split.
      * rewrite Hl'. now rewrite <- app_assoc.
      * econstructor; [exact E1|exact Hall].
Qed.

(** What a call of [resolve] that returned has done. *)
Lemma resolve_resolved (fuel : nat) (w : world) (dirname : string)
    (env : gmap string string) (v : value) (s : state) (r : value)
    (s1 : state) :
  Index.resolve fuel w v dirname env s = Ret r s1 ->
  resolved fuel w dirname env v s r s1.
Proof.
  intros H. destruct fuel as [|fuel]; [discriminate|].
  destruct v as [| |b|n|str|l].
  - injection H as <- <-. now apply resolved_plain.
  - injection H as <- <-. now apply resolved_plain.
  - injection H as <- <-. now apply resolved_plain.
  - injection H as <- <-. now apply resolved_plain.
  - cbn [Index.resolve] in H. destruct (first_is "@" str) eqn:E.
    + destruct (Index.link w str dirname env) as [path required] eqn:El.
      now apply (resolved_link _ _ _ _ str path required fuel).
    + injection H as <- <-. now apply resolved_string.
  - now apply resolved_ref.
Qed.

Lemma resolve_object_overwrites (fuel : nat) (w : world) (l : nat)
    (dirname : string) (env : gmap string string) (s s' : state) (v : value)
    (fields : list (string * value)) (F : gset nat) :
  Index.resolve (S fuel) w (VRef l) dirname env s = Ret v s' ->
  heap s !! l = Some (CObj fields) ->
  NoDup (map fst fields) -> closed (heap s) F -> l ∉ F ->
  Forall (value_in F) (map snd fields) ->
  exists fields',
    heap s' !! l = Some (CObj fields')
    /\ written (resolved fuel w dirname env) l fields s fields' s'.
Proof.
  intros H Hl Hn Hc HlF Hin. cbn [Index.resolve] in H. rewrite Hl in H.
  destruct (Index.resolve_props _ l (map fst fields) s) as [u s1|e s1|]
    eqn:E; try discriminate.
  injection H as _ <-.
  destruct (resolve_props_overwrites _ l (resolve_framed w fuel dirname env)
              fields [] s u s1 F Hl Hn Hc HlF Hin E) as (fields' & Hl' & Hw).
  exists fields'. split; [exact Hl'|].
  apply (written_impl _ _ _ _ _ _ _ (resolve_resolved fuel w dirname env) Hw).
Qed.

(** A document that is an object: the value [loadJSON] returns refers
    to the object [JSON.parse] built, and each property of it holds
    what the resolver returned for the value parsed. *)
Lemma loadJSON_object_overwritten (fuel : nat) (w : world) (path text : string)
    (members : list (string * json)) (env : gmap string string)
    (required : bool) (s s' : state) (v : value) :
  Index.readFile w path = inr text ->
  json_parse w text = Some (JObj members) ->
  Index.loadJSON (S fuel) w path env required s = Ret v s' ->
  exists l fields fields',
    (alloc (JObj members) (heap s)).1 = VRef l /\ v = VRef l
    /\ snd (alloc (JObj members) (heap s)) !! l = Some (CObj fields)
    /\ heap s' !! l = Some (CObj fields')
    /\ written (resolved fuel w (Path.dirname path) env) l fields
         (State (alloc (JObj members) (heap s)).2 (reads s ++ [path]))
         fields' s'.
Proof.
  intros R P H. unfold Index.loadJSON, Index.loadJSON_with in H.
  rewrite R, P in H. cbn [heap reads] in H.
  destruct (alloc_object_tree members (heap s) ∅)
    as (l & fs & F & Hv & Hl & Hn & Hc & HlF & Hin).
  { intros l0 Hl0. set_solver. }
  destruct (alloc (JObj members) (heap s)) as [data h]. cbn [fst snd] in *.
  subst data.
  pose proof H as H'. cbn [Index.resolve] in H'. cbn [heap] in H'.
  rewrite Hl in H'.
  destruct (Index.resolve_props _ l (map fst fs) _) as [u s1|e s1|];
    try discriminate.
  injection H' as <- _.
  destruct (resolve_object_overwrites fuel w l _ env _ _ _ fs F H Hl Hn Hc
              HlF Hin) as (fs' & Hl' & Hall).
  exists l, fs, fs'. auto.
Qed.


End Overwritten.


(** The same run, property by property: the link of [b] gave way to
    what [loadJSON] returned for /x/b.json, whose own link had been
    followed by then. *)
Example resolve_object_written_link :
  Index.loadJSON 6 Demo.demo_world "/x/b.json" ∅ false
    (Store.State {[ 0 := Store.CObj [("b", Store.VStr "@b.json")] ]} [])
  = Store.Ret (Store.VRef 1)
      (Store.State
         (<[ 2 := Store.CObj [("v", Store.VNum 1)] ]>
            (<[ 1 := Store.CObj [("c", Store.VRef 2)] ]>
               {[ 0 := Store.CObj [("b", Store.VStr "@b.json")] ]}))
         ["/x/b.json"; "/x/c.json"]).
Proof. vm_compute. reflexivity. Qed.

(** ** The later revision of the loader *)

Section LaterRevision.

Import Js JsString Store Shape.

(** A text that does not parse is fatal in the later revision too. *)
Lemma IndexSrc_loadJSON_parse_failure (fuel : nat) (w : world) (r : Source.ref)
    (source : Source.t) (text : string) (env : gmap string string)
    (required : bool) (s : state) :
  Source.parseSource w r false = Fulfilled source ->
  Source.read w source = Fulfilled text ->
  json_parse w text = None ->
  IndexSrc.loadJSON fuel w r env required s
  = Throw Index.SyntaxError
      (State (heap s) (reads s ++ [Source.toString source])).
Proof.
  intros P R J. unfold IndexSrc.loadJSON, IndexSrc.loadJSON_with.
  rewrite P, R. cbn [heap reads]. rewrite J. reflexivity.
Qed.

(** And so it is for a load that is one of the items of an array. *)
Lemma IndexSrc_complete_parse_failure (w : world) (source : Source.t)
    (text : string) (required : bool) :
  Source.read w source = Fulfilled text ->
  json_parse w text = None ->
  IndexSrc.complete w (source, required) = Tasks.CThrow Index.SyntaxError.
Proof.
  intros R J. unfold IndexSrc.complete. rewrite R, J. reflexivity.
Qed.

Lemma IndexSrc_loadJSON_with_kept (w : world)
    (f : value -> Source.t -> gmap string string -> state -> result value)
    (r : Source.ref) (env : gmap string string) (required : bool) :
  (forall d e, keeps (fun v => f v d e)) ->
  forall s v s',
    IndexSrc.loadJSON_with f w r env required s = Ret v s' ->
    kept (heap s) (heap s').
Proof.
  intros Hf s v s' H. unfold IndexSrc.loadJSON_with in H.
  assert (Hcatch : forall e s0,
    Index.loadJSON_catch required e (State (heap s) s0) = Ret v s' ->
    kept (heap s) (heap s')).
  { intros e s0 Hc. unfold Index.loadJSON_catch in Hc.
    destruct (_ && _); [|discriminate]. injection Hc as _ <-. apply kept_refl. }
  destruct (Source.parseSource w r false) as [source|e|];
    [|destruct s; exact (Hcatch _ _ H)|discriminate].
  destruct (Source.read w source) as [text|e|];
    [|exact (Hcatch _ _ H)|discriminate].
  cbn [heap reads] in H.
  destruct (json_parse w text) as [j|]; [|exact (Hcatch _ _ H)].
  pose proof (alloc_subseteq j (heap s)) as Hsub.
  destruct (alloc j (heap s)) as [data h]. cbn [snd] in Hsub.
  eapply kept_trans; [apply kept_subseteq; exact Hsub|].
  apply (Hf _ _ _ _ _ _ H).
Qed.

Lemma IndexSrc_resolve_kept (w : world) (fuel : nat) :
  forall d env, keeps (fun v => IndexSrc.resolve fuel w v d env).
Proof.
  induction fuel as [|fuel IH]; intros d env v s r s' H; [discriminate|].
  cbn [IndexSrc.resolve] in H.
  destruct v as [| |b|n|str|l];
    try (injection H as _ <-; apply kept_refl).
  - destruct (first_is "@" str); [|injection H as _ <-; apply kept_refl].
    destruct (IndexSrc.link str env) as [path required].
    eapply IndexSrc_loadJSON_with_kept; [|exact H]. exact IH.
  - destruct (heap s !! l) as [[fields|items]|] eqn:Hl;
      [| |injection H as _ <-; apply kept_refl].
    + destruct (Index.resolve_props _ l (map fst fields) s) as [u s1|e s1|]
        eqn:E; try discriminate.
      injection H as _ <-.
      eapply resolve_props_kept; [apply IH|exact Hl| |exact E]. auto.
    + exact (proj1 (all_kept _ _ _ _ _ _ _ _ H)).
Qed.

(** The later revision has the object and array cases of [resolve]
    word for word: objects in place, arrays anew. *)
Lemma IndexSrc_resolve_object_in_place (fuel : nat) (w : world) (l : nat)
    (source : Source.t) (env : gmap string string) (s s' : state) (v : value) :
  IndexSrc.resolve fuel w (VRef l) source env s = Ret v s' ->
  match heap s !! l with
  | Some (CObj fields) =>
      v = VRef l
      /\ exists fields', heap s' !! l = Some (CObj fields')
                         /\ map fst fields' = map fst fields
  | Some (CArr items) =>
      exists l' items',
        v = VRef l' /\ l' <> l /\ heap s !! l' = None
        /\ heap s' !! l' = Some (CArr items')
        /\ length items' = length items
        /\ heap s' !! l = Some (CArr items)
  | None => True
  end.
Proof.
  intros H. pose proof (IndexSrc_resolve_kept w fuel source env _ _ _ _ H l) as K.
  destruct fuel as [|fuel]; [discriminate|]. cbn [IndexSrc.resolve] in H.
  destruct (heap s !! l) as [[fields|items]|] eqn:Hl; [| |trivial].
  - split; [|exact K].
    destruct (Index.resolve_props _ l (map fst fields) s); try discriminate.
    now injection H as <- _.
  - destruct (all_kept _ _ _ _ _ _ _ _ H) as (_ & l' & vs & -> & Hn & Hl' & Hlen).
    exists l', vs. split; [reflexivity|]. split; [congruence|].
    split; [exact Hn|]. split; [exact Hl'|]. split; [exact Hlen|exact K].
Qed.

End LaterRevision.

(** ** More on repository access *)

Section GitMore.

Import Js JsString Git GitTrace.

Lemma git_listen_data (events : list proc_event) (out err : string) :
  forallb is_data events = true -> git_listen events out err = Pending.
Proof.
  revert out err. induction events as [|ev events IH]; intros out err H.
  - reflexivity.
  - simpl in H. apply andb_true_iff in H as [Hev H].
    destruct ev; try discriminate; simpl; now apply IH.
Qed.

(** Property X1.  [git] hands over what the command wrote: the chunks of the
    standard output in the order they came, those of the standard
    error apart from them, and the exit status of the ['close'] event;
    an ['error'] event before any ['close'] rejects the promise; and
    as long as the command only writes, the promise is not settled.
    What follows the first ['close'] or ['error'] event changes
    nothing. *)
Theorem git_collects_output (w : world) (cwd : string) (args : list string)
    (pre post : list proc_event) :
  forallb is_data pre = true ->
  (forall c,
      spawn w "git" args cwd = pre ++ CloseEv c :: post ->
      git w cwd args = Fulfilled (GitResult c (stdout_of pre) (stderr_of pre)))
  /\ (forall e,
      spawn w "git" args cwd = pre ++ ErrorEv e :: post ->
      git w cwd args = Rejected e)
  /\ (spawn w "git" args cwd = pre -> git w cwd args = Pending).
Proof.
  intros Hpre. unfold git. repeat split.
  - intros c ->. now rewrite git_listen_close.
  - intros e ->. now rewrite git_listen_error.
  - intros ->. now apply git_listen_data.
Qed.

Lemma git_collects_output_witness :
  git (World "/" (fun _ => inl Demo.ENOENT) Demo.git_bare Demo.demo_parse)
      "/srv/repo.git" ["rev-parse"; "--is-bare-repository"]
  = Fulfilled (GitResult (Some 0%Z) ("true" +:+ String "010" "") "").
Proof.
  apply (proj1 (git_collects_output
                  (World "/" (fun _ => inl Demo.ENOENT) Demo.git_bare
                     Demo.demo_parse)
                  "/srv/repo.git" ["rev-parse"; "--is-bare-repository"]
                  [StdoutData "tr"; StdoutData ("ue" +:+ String "010" "")] []
                  eq_refl) (Some 0%Z)).
  reflexivity.
Defined.

(** Property X2.  [getRoot] is never rejected.  It is [null] when the git command
    cannot be spawned and when the command wrote nothing on its
    standard output; in every other case it is the trimmed standard
    output, whatever the exit status, so that an output of white
    space only gives the empty string and not [null].  The command
    runs in the directory of the file. *)
Theorem getRoot_outcome (w : world) (filePath : string)
    (pre post : list proc_event) :
  forallb is_data pre = true ->
  (forall e, getRoot w filePath <> Rejected e)
  /\ (forall e,
      spawn w "git" ["rev-parse"; "--show-toplevel"] (Path.dirname filePath)
      = pre ++ ErrorEv e :: post ->
      getRoot w filePath = Fulfilled None)
  /\ (forall c,
      spawn w "git" ["rev-parse"; "--show-toplevel"] (Path.dirname filePath)
      = pre ++ CloseEv c :: post ->
      getRoot w filePath
      = Fulfilled (if String.eqb (stdout_of pre) ""
                   then None else Some (trim (stdout_of pre)))).
Proof.
  intros Hpre. unfold getRoot, git. split; [|split].
  - intros e.
    destruct (git_listen _ "" "") as [r|e'|]; [|discriminate|discriminate].
    destruct (stdout r); discriminate.
  - intros e ->. now rewrite git_listen_error.
  - intros c ->. rewrite git_listen_close by assumption. cbn [stdout].
    rewrite append_nil_l. now destruct (stdout_of pre).
Qed.

Lemma getRoot_outcome_witness :
  getRoot (World "/" (fun _ => inl Demo.ENOENT)
             (fun _ _ _ => [StdoutData (String "010" ""); CloseEv (Some 0%Z)])
             Demo.demo_parse) "/srv/work/a.json"
  = Fulfilled (Some "")
  /\ getRoot Demo.demo_world "/srv/work/a.json" = Fulfilled None.
Proof.
  split.
  - apply (proj2 (proj2 (getRoot_outcome
                           (World "/" (fun _ => inl Demo.ENOENT)
                              (fun _ _ _ => [StdoutData (String "010" "");
                                             CloseEv (Some 0%Z)])
                              Demo.demo_parse)
                           "/srv/work/a.json" [StdoutData (String "010" "")] []
                           eq_refl)) (Some 0%Z)).
    reflexivity.
  - apply (proj2 (proj2 (getRoot_outcome Demo.demo_world "/srv/work/a.json"
                           [StderrData "fatal: not a git repository"] []
                           eq_refl)) (Some 128%Z)).
    reflexivity.
Defined.

End GitMore.

(** ** More on the variable expander *)

Section ExpanderMore.

Import Expander RegExp.

#[local] Arguments match_token : simpl never.
#[local] Arguments token_at : simpl never.
#[local] Arguments SpecExpander.token_here : simpl never.

Lemma exec_var_no_terminator (s l n t : string) :
  exec_var s = Some (l, n, t) -> dot_star_eol s = true.
Proof.
  intros H. apply exec_var_sound in H as (-> & _ & Hn & Hl & Ht).
  rewrite !dot_star_eol_app, Hl, Ht, (all_word_dot_star _ Hn). reflexivity.
Qed.

(** Property X3.  A line terminator anywhere in the text keeps [replace] from
    expanding anything: the regular expression is anchored at both
    ends and its dot does not match a line terminator. *)
Theorem replace_line_terminator (str : string) (env : gmap string string) :
  dot_star_eol str = false -> replace str env = str.
Proof.
  intros H. apply replace_no_match.
  destruct (exec_var str) as [[[l n] t]|] eqn:E; [|reflexivity].
  apply exec_var_no_terminator in E. congruence.
Qed.

Lemma replace_line_terminator_witness :
  replace ("lang/${a}/x" +:+ String "010" "") Demo.env_ab
  = "lang/${a}/x" +:+ String "010" "".
Proof. apply replace_line_terminator. reflexivity. Defined.

Lemma token_at_inv (s : string) :
  token_at s = true ->
  exists n t,
    s = "${" +:+ n +:+ "}" +:+ t /\ n <> ""
    /\ SpecExpander.token_here s = Some (n, 3 + String.length n)
    /\ (dot_star_eol t = true -> match_token s = Some (n, t)).
Proof.
  unfold token_at, SpecExpander.token_here, match_token. intros H.
  destruct s as [|c1 s]; [discriminate|].
  destruct (ascii_dec c1 "$") as [->|Hne].
  2:{ destruct c1 as [[] [] [] [] [] [] [] []]; try discriminate; congruence. }
  destruct s as [|c2 s]; [discriminate|].
  destruct (ascii_dec c2 "{") as [->|Hne].
  2:{ destruct c2 as [[] [] [] [] [] [] [] []]; try discriminate; congruence. }
  destruct (span_word s) as [w r] eqn:E.
  destruct w as [|c w]; [discriminate|].
  destruct r as [|c3 r]; [discriminate|].
  destruct (ascii_dec c3 "}") as [->|Hne].
  2:{ destruct c3 as [[] [] [] [] [] [] [] []]; try discriminate; congruence. }
  exists (String c w), r. apply span_word_app in E. subst s.
  split; [reflexivity|]. split; [discriminate|]. split; [reflexivity|].
  intros ->. reflexivity.
Qed.

Lemma token_at_none (s : string) :
  token_at s = false ->
  match_token s = None /\ SpecExpander.token_here s = None.
Proof.
  unfold token_at, SpecExpander.token_here, match_token. intros H.
  destruct s as [|c1 s]; [now split|].
  destruct (ascii_dec c1 "$") as [->|Hne].
  2:{ destruct c1 as [[] [] [] [] [] [] [] []]; try (now split); congruence. }
  destruct s as [|c2 s]; [now split|].
  destruct (ascii_dec c2 "{") as [->|Hne].
  2:{ destruct c2 as [[] [] [] [] [] [] [] []]; try (now split); congruence. }
  destruct (span_word s) as [w r] eqn:E.
  destruct w as [|c w]; [now split|].
  destruct r as [|c3 r]; [now split|].
  destruct (ascii_dec c3 "}") as [->|Hne]; [discriminate|].
  destruct c3 as [[] [] [] [] [] [] [] []]; try (now split); congruence.
Qed.

Lemma expand_skip (env : gmap string string) (a b : string) :
  SpecExpander.expand_from (String.length a) env (a +:+ b)
  = SpecExpander.expand_from 0 env b.
Proof.
  induction a as [|c a IH]; [reflexivity|].
  rewrite append_cons. cbn [String.length SpecExpander.expand_from]. exact IH.
Qed.

Lemma count_tokens_suffix (a b : string) :
  count_tokens b <= count_tokens (a +:+ b).
Proof.
  induction a as [|c a IH]; [reflexivity|].
  rewrite append_cons. cbn [count_tokens]. lia.
Qed.

Lemma expand_no_token (env : gmap string string) (s : string) :
  count_tokens s = 0 -> SpecExpander.expand_from 0 env s = s.
Proof.
  induction s as [|c s IH]; [reflexivity|]. cbn [count_tokens]. intros H.
  destruct (token_at (String c s)) eqn:T; [lia|].
  cbn [SpecExpander.expand_from].
  rewrite (proj2 (token_at_none _ T)). f_equal. apply IH. lia.
Qed.

(** Property X4.  On a text without line terminator that holds at most one token,
    [replace] is the expander of the specification: the token, if
    there is one, is replaced by the value bound to its name or by
    the empty string, and the rest of the text is kept. *)
Theorem replace_single_token (str : string) (env : gmap string string) :
  dot_star_eol str = true -> count_tokens str <= 1 ->
  replace str env = SpecExpander.expand str env.
Proof.
  unfold SpecExpander.expand.
  induction str as [|c s IH]; intros Hlt Hc; [reflexivity|].
  cbn [dot_star_eol] in Hlt. apply andb_true_iff in Hlt as [Hcl Hs].
  apply negb_true_iff in Hcl. cbn [count_tokens] in Hc.
  rewrite replace_eq. cbn [exec_var SpecExpander.expand_from]. rewrite Hcl.
  destruct (token_at (String c s)) eqn:T.
  - assert (Hs0 : count_tokens s = 0) by lia.
    rewrite (no_token_no_match _ Hs0).
    destruct (token_at_inv _ T) as (n & t & E & Hn & Hh & Hm).
    rewrite Hh. rewrite append_cons in E. injection E as -> ->.
    assert (Ht : dot_star_eol t = true).
    { cbn [dot_star_eol] in Hs. apply andb_true_iff in Hs as [_ Hs].
      rewrite !dot_star_eol_app in Hs.
      apply andb_true_iff in Hs as [_ Hs].
      now apply andb_true_iff in Hs as [_ Hs]. }
    rewrite (Hm Ht). rewrite append_nil_l. f_equal.
    assert (Ht0 : count_tokens t = 0).
    { pose proof (count_tokens_suffix "}" t) as H1.
      pose proof (count_tokens_suffix n ("}" +:+ t)) as H2.
      pose proof (count_tokens_suffix "{" (n +:+ "}" +:+ t)) as H3. lia. }
    symmetry.
    replace (3 + String.length n - 1)
      with (String.length ("{" +:+ n +:+ "}")).
    2:{ rewrite !length_append. simpl. lia. }
    rewrite <- (append_assoc n "}" t), <- (append_assoc "{" (n +:+ "}") t).
    rewrite expand_skip.
    now rewrite expand_no_token.
  - destruct (token_at_none _ T) as [Hm Hh]. rewrite Hm, Hh.
    assert (Hs1 : count_tokens s <= 1) by lia.
    specialize (IH Hs Hs1). rewrite replace_eq in IH.
    destruct (exec_var s) as [[[l n] t]|].
    + rewrite append_cons. now f_equal.
    + now f_equal.
Qed.

Lemma replace_single_token_witness :
  replace "lang/${locale}/data.json" (<["locale" := "en"]> ∅)
  = SpecExpander.expand "lang/${locale}/data.json" (<["locale" := "en"]> ∅).
Proof.
  apply replace_single_token; [reflexivity|]. vm_compute. lia.
Defined.

End ExpanderMore.

(** ** More on source descriptors *)

Section SourceMore.

Import Js JsString Path PathShape.

Lemma split_nonempty (s : string) : split "/" s <> [].
Proof.
  destruct s as [|c s]; [discriminate|]. simpl.
  destruct (Ascii.eqb c "/"); [discriminate|].
  destruct (split "/" s); discriminate.
Qed.

Lemma split_app_any (a b : string) :
  split "/" (a +:+ "/" +:+ b) = split "/" a ++ split "/" b.
Proof.
  induction a as [|c a IH]; [reflexivity|].
  rewrite append_cons. cbn [split]. rewrite IH.
  destruct (Ascii.eqb c "/"); [reflexivity|].
  pose proof (split_nonempty a) as Hne.
  destruct (split "/" a) as [|w r]; [congruence|reflexivity].
Qed.

Lemma fold_normalize_ups (k : nat) (stack : list string) :
  Forall (fun s => plain s = true) stack ->
  fold_left (normalize_step false) (repeat ".." k) stack = skipn k stack.
Proof.
  revert stack. induction k as [|k IH]; intros stack H; [reflexivity|].
  cbn [repeat fold_left]. destruct stack as [|top rest].
  - cbn. rewrite IH by constructor. now destruct k.
  - inversion H as [|? ? Ht Hr]; subst.
    apply plain_inv in Ht as (_ & _ & _ & _ & Ht).
    apply String.eqb_neq in Ht.
    unfold normalize_step at 2. cbn [String.eqb Ascii.eqb Bool.eqb orb].
    rewrite Ht. cbn [skipn]. now apply IH.
Qed.

Lemma fold_split_dirs (dirs : list string) :
  Forall (fun s => plain s = true) dirs ->
  fold_left (normalize_step false) (split "/" (abs_path dirs)) [] = rev dirs.
Proof.
  intros H. unfold abs_path. rewrite split_slash. cbn [fold_left].
  change (normalize_step false [] "") with (@nil string).
  destruct dirs as [|d dirs]; [reflexivity|].
  rewrite split_join by (try discriminate; now apply Forall_plain_noslash).
  rewrite fold_normalize_plain by assumption. now rewrite app_nil_r.
Qed.

Lemma join_last_nonempty (segs : list string) (a : string) :
  a <> "" -> join "/" (segs ++ [a]) <> "".
Proof.
  intros Ha. destruct segs as [|x segs]; [exact Ha|].
  rewrite join_snoc by discriminate. intros E.
  apply (f_equal String.length) in E. rewrite !length_append in E.
  simpl in E. lia.
Qed.

Lemma last_is_join_last (segs : list string) (a : string) :
  plain a = true -> last_is "/" (join "/" (segs ++ [a])) = false.
Proof.
  intros Ha. apply plain_inv in Ha as (Ha & Hs & _).
  destruct segs as [|x segs]; [now apply last_is_absent|].
  rewrite join_snoc by discriminate. rewrite <- append_assoc.
  rewrite last_is_app by assumption. now apply last_is_absent.
Qed.

Lemma first_is_join (c : ascii) (e : string) (rest : list string) :
  e <> "" -> first_is c (join "/" (e :: rest)) = first_is c e.
Proof.
  intros He. destruct e as [|d e]; [congruence|].
  destruct rest; [reflexivity|]. cbn [join]. now rewrite append_cons.
Qed.

Lemma join2_nonempty (a b : string) :
  a <> "" -> b <> "" -> join2 a b = normalize (a +:+ "/" +:+ b).
Proof. destruct a, b; congruence || reflexivity. Qed.

(** The path [path.join] computes for a clean absolute directory and
    a relative path that climbs [k] levels and then descends along
    plain names. *)
Lemma join2_relative (dirs names : list string) (k : nat) :
  Forall (fun s => plain s = true) dirs ->
  Forall (fun s => plain s = true) names -> names <> [] ->
  join2 (abs_path dirs) (join "/" (repeat ".." k ++ names))
  = abs_path (firstn (length dirs - k) dirs ++ names).
Proof.
  intros Hd Hn Hne.
  destruct (exists_last Hne) as (init & a & ->).
  apply Forall_app in Hn as [Hi Ha]. inversion Ha as [|? ? Hp _]; subst.
  pose proof (plain_inv _ Hp) as (Hp1 & _).
  set (ref := join "/" (repeat ".." k ++ init ++ [a])).
  assert (Hall : Forall (fun s => contains "/" s = false)
                   (repeat ".." k ++ init ++ [a])).
  { apply Forall_app. split.
    - apply List.Forall_forall. intros x Hx.
      apply repeat_spec in Hx. now subst.
    - apply Forall_plain_noslash, Forall_app. split; [assumption|now constructor]. }
  assert (Hr : ref <> "").
  { unfold ref. rewrite app_assoc. now apply join_last_nonempty. }
  rewrite join2_nonempty by (assumption || discriminate).
  unfold abs_path at 1. rewrite append_assoc.
  apply normalize_absolute.
  - unfold normalizeString. rewrite <- append_assoc.
    change ("/" +:+ join "/" dirs) with (abs_path dirs).
    rewrite split_app_any, fold_left_app, fold_split_dirs by assumption.
    unfold ref. rewrite split_join by (try assumption; now destruct k, init).
    rewrite fold_left_app, fold_normalize_ups by (now apply List.Forall_rev).
    rewrite fold_normalize_plain
      by (apply Forall_app; split; [assumption|now constructor]).
    rewrite rev_app_distr, rev_involutive. f_equal. f_equal.
    rewrite skipn_rev. now rewrite rev_involutive.
  - rewrite app_assoc. now apply join_last_nonempty.
  - replace ("/" +:+ join "/" dirs +:+ "/" +:+ ref)
      with (("/" +:+ join "/" dirs +:+ "/") +:+ ref)
      by (now rewrite !append_assoc).
    rewrite last_is_app by assumption.
    unfold ref. rewrite app_assoc. now apply last_is_join_last.
Qed.

Lemma first_is_relative (names : list string) (k : nat) :
  Forall (fun s => plain s = true) names -> names <> [] ->
  first_is "/" (join "/" (repeat ".." k ++ names)) = false.
Proof.
  intros Hn Hne. destruct k as [|k].
  - destruct names as [|n names]; [congruence|].
    inversion Hn as [|? ? Hp _]; subst. cbn [repeat app].
    rewrite first_is_join by (now apply plain_inv in Hp).
    now apply PathShape_plain_first.
  - cbn [repeat app]. now rewrite first_is_join.
Qed.

(** Property X5.  A relative reference is resolved against the directory of the
    descriptor: for a descriptor at the clean absolute path
    [/d1/.../dn/file], a reference that climbs [k] levels with [..]
    and then names the plain segments [names] is at the first
    [n - k] directories followed by [names]; climbing stops at the
    root.  Repository and revision are those of the descriptor, and
    of a reference that is itself a descriptor only the file path
    counts. *)
Theorem resolve_relative_path (this : Source.t) (r : Source.ref)
    (dirs names : list string) (file : string) (k : nat) :
  let p := match r with
           | Source.RefSource s => Source.filePath s
           | Source.RefString s => s
           end in
  Forall (fun s => plain s = true) dirs -> plain file = true ->
  Forall (fun s => plain s = true) names -> names <> [] ->
  Source.filePath this = abs_path (dirs ++ [file]) ->
  p = join "/" (repeat ".." k ++ names) ->
  Source.resolve this r
  = Source.Make (Source.repoPath this)
      (abs_path (firstn (length dirs - k) dirs ++ names))
      (Source.commitish this).
Proof.
  intros p Hd Hf Hn Hne Hthis Hp.
  assert (E : Source.resolve this r
              = Source.new (Source.repoPath this)
                  (join2 (dirname (Source.filePath this)) p)
                  (Source.commitish this)).
  { unfold Source.resolve. fold p.
    now rewrite Hp, first_is_relative. }
  rewrite E, Hthis, dirname_abs, Hp, join2_relative by assumption.
  apply new_plain, abs_path_no_revision, Forall_app. split; [|assumption].
  now apply Forall_take.
Qed.

Lemma resolve_relative_path_witness :
  Source.resolve (Source.Make (Some "/repo") "/a/b/c/x.json" (Some "v1"))
    (Source.RefString "../../lib/y.json")
  = Source.Make (Some "/repo") "/a/lib/y.json" (Some "v1")
  /\ Source.resolve (Source.Make None "/a/x.json" None)
       (Source.RefSource (Source.Make (Some "/other") "../../../y.json" (Some "v2")))
     = Source.Make None "/y.json" None.
Proof.
  split.
  - apply (resolve_relative_path
             (Source.Make (Some "/repo") "/a/b/c/x.json" (Some "v1"))
             (Source.RefString "../../lib/y.json")
             ["a"; "b"; "c"] ["lib"; "y.json"] "x.json" 2);
      try reflexivity; try discriminate; repeat constructor.
  - apply (resolve_relative_path
             (Source.Make None "/a/x.json" None)
             (Source.RefSource
                (Source.Make (Some "/other") "../../../y.json" (Some "v2")))
             ["a"] ["y.json"] "x.json" 3);
      try reflexivity; try discriminate; repeat constructor.
Defined.

Lemma first_is_app (c : ascii) (a b : string) :
  a <> "" -> first_is c (a +:+ b) = first_is c a.
Proof. destruct a; [congruence|]. now rewrite append_cons. Qed.

Lemma normalize_step_marked (stack : list string) (seg : string) :
  contains "#" seg = true -> normalize_step false stack seg = seg :: stack.
Proof.
  intros H. unfold normalize_step.
  destruct (String.eqb_spec seg "") as [->|_]; [discriminate|].
  destruct (String.eqb_spec seg ".") as [->|_]; [discriminate|].
  destruct (String.eqb_spec seg "..") as [->|_]; [discriminate|].
  reflexivity.
Qed.

(** Property X6.  A reference may carry its own revision after a [#].  The
    revision of the reference then replaces the one of the
    descriptor, and the path before the [#] is resolved as usual:
    taken as it is when it is absolute, joined onto the directory of
    the descriptor when it is a plain name. *)
Theorem resolve_reference_revision (this : Source.t) (revision : string) :
  (forall p, first_is "/" p = true -> contains "#" p = false ->
     Source.resolve this (Source.RefString (p +:+ "#" +:+ revision))
     = Source.Make (Source.repoPath this) p (Some revision))
  /\ (forall dirs file name,
       Forall (fun s => plain s = true) dirs -> plain file = true ->
       plain name = true -> contains "/" revision = false ->
       Source.filePath this = abs_path (dirs ++ [file]) ->
       Source.resolve this (Source.RefString (name +:+ "#" +:+ revision))
       = Source.Make (Source.repoPath this) (abs_path (dirs ++ [name]))
           (Some revision)).
Proof.
  split.
  - intros p Hp Hc. unfold Source.resolve.
    rewrite first_is_app by (destruct p; [discriminate|congruence]).
    rewrite Hp. cbn [negb]. now apply new_revision.
  - intros dirs file name Hd Hf Hn Hrev Hthis.
    pose proof (plain_inv _ Hn) as (Hn1 & Hn2 & Hn3 & _).
    set (seg := name +:+ "#" +:+ revision).
    assert (Hseg : seg <> "").
    { unfold seg. intros E. apply (f_equal String.length) in E.
      rewrite !length_append in E. simpl in E. lia. }
    assert (Hslash : contains "/" seg = false).
    { unfold seg. rewrite !contains_app, Hn2, Hrev. reflexivity. }
    assert (Hmark : contains "#" seg = true).
    { unfold seg. rewrite !contains_app. simpl. now rewrite orb_true_r. }
    assert (Hq : join "/" (dirs ++ [seg])
                 = join "/" (dirs ++ [name]) +:+ "#" +:+ revision).
    { destruct dirs as [|d dirs]; [reflexivity|].
      rewrite !join_snoc by discriminate. unfold seg.
      now rewrite !append_assoc. }
    assert (Hfirst : first_is "/" seg = false).
    { unfold seg. rewrite first_is_app by assumption.
      now apply PathShape_plain_first. }
    unfold Source.resolve. rewrite Hfirst. cbn [negb]. rewrite Hthis, dirname_abs by assumption.
    rewrite join2_nonempty by (assumption || discriminate).
    unfold abs_path at 1. rewrite append_assoc.
    rewrite (normalize_absolute _ (join "/" (dirs ++ [seg]))).
    + rewrite Hq, <- append_assoc.
      apply new_revision, abs_path_no_revision, Forall_app.
      split; [assumption|now constructor].
    + unfold normalizeString. rewrite <- append_assoc.
      change ("/" +:+ join "/" dirs) with (abs_path dirs).
      rewrite split_app_any, fold_left_app, fold_split_dirs by assumption.
      rewrite split_plain by assumption. cbn [fold_left].
      rewrite normalize_step_marked by assumption.
      cbn [rev]. now rewrite rev_involutive.
    + now apply join_last_nonempty.
    + replace ("/" +:+ join "/" dirs +:+ "/" +:+ seg)
        with (("/" +:+ join "/" dirs +:+ "/") +:+ seg)
        by (now rewrite !append_assoc).
      rewrite last_is_app by assumption. now apply last_is_absent.
Qed.

Lemma resolve_reference_revision_witness :
  Source.resolve (Source.Make (Some "/repo") "/x/a.json" (Some "v1"))
    (Source.RefString "/etc/b.json#v2")
  = Source.Make (Some "/repo") "/etc/b.json" (Some "v2")
  /\ Source.resolve (Source.Make (Some "/repo") "/x/a.json" (Some "v1"))
       (Source.RefString "b.json#v2")
     = Source.Make (Some "/repo") "/x/b.json" (Some "v2").
Proof.
  split.
  - apply (proj1 (resolve_reference_revision
                    (Source.Make (Some "/repo") "/x/a.json" (Some "v1")) "v2")
             "/etc/b.json"); reflexivity.
  - apply (proj2 (resolve_reference_revision
                    (Source.Make (Some "/repo") "/x/a.json" (Some "v1")) "v2")
             ["x"] "a.json" "b.json");
      try reflexivity; repeat constructor.
Defined.

(** Property X7.  For a descriptor outside any repository, [toString] and the
    constructor are inverse to each other: the text of a descriptor
    whose path holds no [#] and whose revision is not the empty
    string builds the same descriptor again, and a descriptor built
    from a path prints as that path unless the path ends with its
    first [#]. *)
Theorem toString_round_trip :
  (forall s, Source.repoPath s = None ->
     contains "#" (Source.filePath s) = false ->
     Source.commitish s <> Some "" ->
     Source.new None (Source.toString s) None = s)
  /\ (forall fp,
       (forall pre, contains "#" pre = false -> fp <> pre +:+ "#") ->
       Source.toString (Source.new None fp None) = fp).
Proof.
  split.
  - intros [rp fp c] Hrp Hfp Hc. cbn in *. subst rp.
    unfold Source.toString. cbn. rewrite append_nil_l.
    destruct c as [[|x c]|]; [congruence| |]; cbn.
    + now apply new_revision.
    + now apply new_plain.
  - intros fp H. destruct (contains "#" fp) eqn:E.
    + destruct (contains_split _ _ E) as (pre & post & -> & Hp).
      change (pre +:+ String "#" post) with (pre +:+ "#" +:+ post).
      rewrite new_revision by assumption.
      destruct post as [|x post]; [now destruct (H pre Hp)|].
      unfold Source.toString. cbn. now rewrite append_nil_l.
    + rewrite new_plain by assumption.
      unfold Source.toString. cbn. now rewrite append_nil_l.
Qed.

Lemma toString_round_trip_witness :
  Source.new None
    (Source.toString (Source.Make None "/x/a.json" (Some "v1"))) None
  = Source.Make None "/x/a.json" (Some "v1")
  /\ Source.toString (Source.new None "/x/a.json#v1" None) = "/x/a.json#v1".
Proof.
  split.
  - apply (proj1 toString_round_trip); [reflexivity|reflexivity|discriminate].
  - apply (proj2 toString_round_trip). intros pre _ E.
    apply (f_equal (last_is "#")) in E.
    rewrite last_is_app in E by discriminate. discriminate.
Defined.

End SourceMore.

(** ** Parsing a reference *)

Section ParseSourceFacts.

Import Js JsString Path PathShape.

Lemma join_app (a b : list string) :
  a <> [] -> b <> [] ->
  join "/" (a ++ b) = join "/" a +:+ "/" +:+ join "/" b.
Proof.
  intros Ha Hb. induction a as [|x a IH]; [congruence|].
  destruct a as [|y a].
  - cbn [app]. now apply join_cons.
  - change ((x :: y :: a) ++ b) with (x :: ((y :: a) ++ b)).
    rewrite !join_cons by discriminate. rewrite IH by discriminate.
    now rewrite !append_assoc.
Qed.

Lemma fold_normalize_empty (b : bool) (stack : list string) :
  fold_left (normalize_step b) (split "/" "") stack = stack.
Proof. reflexivity. Qed.

Lemma resolve_step_first (x : string) (p : string) :
  p <> "" ->
  resolve_step (x, false) p = (p +:+ "/" +:+ x, first_is "/" p).
Proof. destruct p; [congruence|reflexivity]. Qed.

(** [path.resolve] of a clean absolute path is that path. *)
Lemma resolve_absolute (cwd : string) (segs : list string) :
  Forall (fun s => plain s = true) segs ->
  Path.resolve cwd "" (abs_path segs) = abs_path segs.
Proof.
  intros H. unfold Path.resolve. cbn [fold_left].
  rewrite (resolve_step_first "" (abs_path segs)) by discriminate.
  change (first_is "/" (abs_path segs)) with true.
  cbn [resolve_step negb]. unfold normalizeString.
  rewrite split_app_any, fold_left_app, fold_split_dirs by assumption.
  rewrite fold_normalize_empty, rev_involutive. reflexivity.
Qed.

(** [path.resolve] of plain names below a clean working directory. *)
Lemma resolve_relative (dirs names : list string) :
  Forall (fun s => plain s = true) dirs ->
  Forall (fun s => plain s = true) names -> names <> [] ->
  Path.resolve (abs_path dirs) "" (join "/" names) = abs_path (dirs ++ names).
Proof.
  intros Hd Hn Hne. unfold Path.resolve.
  pose proof (first_is_relative names 0 Hn Hne) as Hf. cbn [repeat app] in Hf.
  pose proof (join_nonempty names Hn Hne) as Hj.
  cbn [fold_left].
  rewrite (resolve_step_first "" (join "/" names)), Hf by assumption.
  change (resolve_step (join "/" names +:+ "/" +:+ "", false) "")
    with (join "/" names +:+ "/" +:+ "", false).
  rewrite resolve_step_first by discriminate.
  change (first_is "/" (abs_path dirs)) with true.
  cbn [negb]. unfold normalizeString.
  rewrite !split_app_any, !fold_left_app, fold_split_dirs by assumption.
  rewrite split_join by (try assumption; now apply Forall_plain_noslash).
  rewrite (fold_normalize_plain _ names) by assumption.
  rewrite fold_normalize_empty, rev_app_distr, !rev_involutive. reflexivity.
Qed.

Lemma substring_below (root rel : list string) :
  root <> [] -> rel <> [] ->
  substring_from (abs_path (root ++ rel))
    (Z.of_nat (String.length (abs_path root)))
  = abs_path rel.
Proof.
  intros Hr Hl. unfold abs_path. rewrite join_app by assumption.
  replace ("/" +:+ join "/" root +:+ "/" +:+ join "/" rel)
    with (("/" +:+ join "/" root) +:+ ("/" +:+ join "/" rel))
    by (now rewrite append_assoc).
  unfold substring_from, clamp.
  rewrite Nat2Z.id, Nat.min_l by (rewrite (length_append (_ +:+ _)); lia).
  apply string_drop_app.
Qed.

(** Property X8.  A reference given as a text is looked up in the work tree that
    [git rev-parse --show-toplevel] reports for its directory: the
    descriptor has that root as its repository and, as its file
    path, the path below the root with a leading slash.  The
    reference is a clean absolute path below the root, or plain
    names below a working directory that is itself below the
    root. *)
Theorem parseSource_in_repository (w : world) (ref : string)
    (root rel : list string) :
  Forall (fun s => plain s = true) root -> root <> [] ->
  Forall (fun s => plain s = true) rel -> rel <> [] ->
  (ref = abs_path (root ++ rel)
   \/ exists sub names, rel = sub ++ names /\ names <> []
        /\ cwd w = abs_path (root ++ sub) /\ ref = join "/" names) ->
  Git.getRoot w ref = Fulfilled (Some (abs_path root)) ->
  Source.parseSource w (Source.RefString ref) false
  = Fulfilled (Source.Make (Some (abs_path root)) (abs_path rel) None).
Proof.
  intros Hroot Hr Hrel Hl Href Hgit.
  unfold Source.parseSource, Source.indexOf_function.
  change (-1 >? -1)%Z with false. cbv iota. rewrite Hgit. cbn [await].
  change (truthy (Some (abs_path root))) with true. cbv iota. cbn [default].
  assert (E : Path.resolve (cwd w) "" ref = abs_path (root ++ rel)).
  { destruct Href as [->|(sub & names & -> & Hn & -> & ->)].
    - apply resolve_absolute, Forall_app. now split.
    - apply Forall_app in Hrel as [Hsub Hnames].
      rewrite resolve_relative; [now rewrite app_assoc| |assumption|assumption].
      apply Forall_app. now split. }
  rewrite E, substring_below by assumption. f_equal.
  now apply new_plain, abs_path_no_revision.
Qed.

Lemma parseSource_in_repository_witness :
  Source.parseSource DemoRepo.repo_world (Source.RefString "/repo/conf/a.json")
    false
  = Fulfilled (Source.Make (Some "/repo") "/conf/a.json" None)
  /\ Source.parseSource DemoRepo.repo_world (Source.RefString "a.json") false
     = Fulfilled (Source.Make (Some "/repo") "/conf/a.json" None).
Proof.
  split.
  - apply (parseSource_in_repository DemoRepo.repo_world "/repo/conf/a.json"
             ["repo"] ["conf"; "a.json"]);
      [repeat constructor|discriminate|repeat constructor|discriminate
      |now left|reflexivity].
  - apply (parseSource_in_repository DemoRepo.repo_world "a.json"
             ["repo"] ["conf"; "a.json"]);
      [repeat constructor|discriminate|repeat constructor|discriminate
      | |reflexivity].
    right. exists ["conf"], ["a.json"]. repeat split. discriminate.
Defined.

(** Property X9.  [parseSource] does not reject, and a descriptor it makes from a
    text has a repository only when [git rev-parse --show-toplevel]
    printed one for the directory of the reference, which is then
    that repository: the test for a bare repository is never
    reached, so a path through a directory named [x.git] is not
    taken for a reference into a bare repository.  Without a root
    the descriptor is the one of the text as a plain path. *)
Theorem parseSource_repository (w : world) (ref : string) (isPath : bool) :
  (forall e, Source.parseSource w (Source.RefString ref) isPath <> Rejected e)
  /\ (forall s,
       Source.parseSource w (Source.RefString ref) isPath = Fulfilled s ->
       (truthy (Source.repoPath s) = true ->
        isPath = false /\ Git.getRoot w ref = Fulfilled (Source.repoPath s))
       /\ (truthy (Source.repoPath s) = false ->
           s = Source.new None ref None)).
Proof.
  assert (Hrp : forall rp fp c,
             Source.repoPath (Source.new rp fp c) = rp).
  { intros rp fp c. unfold Source.new. now destruct (_ >? _)%Z. }
  unfold Source.parseSource, Source.indexOf_function.
  change (-1 >? -1)%Z with false. cbv iota.
  destruct isPath.
  - split; [discriminate|]. intros s [= <-]. rewrite Hrp. now split.
  - assert (Hroot : forall e, Git.getRoot w ref <> Rejected e).
    { intros e. unfold Git.getRoot.
      destruct (Git.git w _ _) as [r| |]; try discriminate.
      destruct (Git.stdout r); discriminate. }
    destruct (Git.getRoot w ref) as [root|e|] eqn:G; cbn [await].
    + split; [destruct (truthy root); discriminate|].
      intros s. destruct (truthy root) eqn:T; intros [= <-]; rewrite Hrp.
      * split; [now split|]. rewrite T. discriminate.
      * split; [discriminate|reflexivity].
    + now destruct (Hroot e).
    + split; discriminate.
Qed.

Lemma parseSource_repository_witness :
  Git.isBare DemoRepo.bare_world "/srv/conf.git" = Fulfilled true
  /\ Source.parseSource DemoRepo.bare_world
       (Source.RefString "/srv/conf.git/a.json") false
     = Fulfilled (Source.Make None "/srv/conf.git/a.json" None)
  /\ Source.Make None "/srv/conf.git/a.json" None
     = Source.new None "/srv/conf.git/a.json" None.
Proof.
  split; [reflexivity|]. split; [reflexivity|].
  apply (proj2 (proj2 (parseSource_repository DemoRepo.bare_world
                         "/srv/conf.git/a.json" false)
                  (Source.Make None "/srv/conf.git/a.json" None)
                  eq_refl) eq_refl).
Defined.

End ParseSourceFacts.

(** ** The items of an array, one by one *)

Section ItemFacts.

Import Js JsString Store Shape Tasks Items.

Lemma alloc_prim (j : json) (v : value) (h : gmap nat cell) :
  prim j = Some v -> alloc j h = (v, h).
Proof. destruct j; try discriminate; now intros [= <-]. Qed.

Lemma prim_live (h : gmap nat cell) (j : json) (v : value) :
  prim j = Some v -> live h v.
Proof. destruct j; try discriminate; now intros [= <-]. Qed.

Lemma alloc_fields_subseteq (fields : list (string * json)) :
  forall acc h, h ⊆ (AllocLoops.alloc_fields fields acc h).2.
Proof.
  induction fields as [|[k x] fields IH]; intros acc h; [reflexivity|].
  cbn [AllocLoops.alloc_fields].
  pose proof (alloc_subseteq x h) as Hx.
  destruct (alloc x h) as [v h1]. cbn [snd] in Hx.
  transitivity h1; [exact Hx|apply IH].
Qed.

Lemma set_field_In (acc : list (string * value)) (k k' : string) (v : value) :
  In k (map fst (set_field acc k' v)) <-> In k (map fst acc) \/ k = k'.
Proof.
  induction acc as [|[k0 x] acc IH]; cbn [set_field map fst In].
  - split.
    + intros [ <- | [] ]. now right.
    + intros [ [] | -> ]. now left.
  - destruct (String.eqb k0 k') eqn:E; cbn [map fst In].
    + apply String.eqb_eq in E. subst k0. split; [tauto|].
      intros [H| -> ]; [exact H|now left].
    + rewrite IH. tauto.
Qed.

Lemma alloc_fields_names (fields : list (string * json)) :
  forall acc h k,
    In k (map fst (AllocLoops.alloc_fields fields acc h).1)
    <-> In k (map fst acc) \/ In k (map fst fields).
Proof.
  induction fields as [|[k0 x] fields IH]; intros acc h k.
  - cbn. tauto.
  - cbn [AllocLoops.alloc_fields]. destruct (alloc x h) as [v h1].
    rewrite IH, set_field_In. cbn [map fst In]. split.
    + intros [[H| ->]|H]; auto.
    + intros [H|[<-|H]]; auto.
Qed.

Lemma alloc_root_object (members : list (string * json)) (h : gmap nat cell) :
  exists l,
    (alloc (JObj members) h).1 = VRef l /\ h !! l = None
    /\ is_object (alloc (JObj members) h).2 l (map fst members).
Proof.
  change (alloc (JObj members) h)
    with (let '(fs, h1) := AllocLoops.alloc_fields members [] h in
          let '(l, h2) := alloc_cell (CObj fs) h1 in (VRef l, h2)).
  pose proof (alloc_fields_subseteq members [] h) as Hsub.
  pose proof (alloc_fields_names members [] h) as Hn.
  destruct (AllocLoops.alloc_fields members [] h) as [fs h1].
  cbn [fst snd] in *.
  pose proof (alloc_cell_subseteq (CObj fs) h1) as [_ Hf].
  unfold alloc_cell in *. cbn [fst snd] in *.
  exists (fresh (dom h1)). split; [reflexivity|]. split.
  - destruct (h !! fresh (dom h1)) as [c|] eqn:E; [|reflexivity].
    pose proof (lookup_weaken _ _ _ _ E Hsub). congruence.
  - exists fs. split; [apply lookup_insert_eq|].
    intros k. rewrite Hn. cbn. tauto.
Qed.

Lemma alloc_items_facts (js : list json) :
  forall h, h ⊆ (AllocLoops.alloc_items js h).2
            /\ length (AllocLoops.alloc_items js h).1 = length js.
Proof.
  induction js as [|x js IH]; intros h; [split; reflexivity|].
  cbn [AllocLoops.alloc_items].
  pose proof (alloc_subseteq x h) as Hx.
  destruct (alloc x h) as [v h1]. cbn [snd] in Hx.
  destruct (IH h1) as [H1 H2].
  destruct (AllocLoops.alloc_items js h1) as [vs h2]. cbn [fst snd] in *.
  split; [now transitivity h1|]. cbn. now rewrite H2.
Qed.

Lemma alloc_root_array (js : list json) (h : gmap nat cell) :
  exists l,
    (alloc (JArr js) h).1 = VRef l /\ h !! l = None
    /\ is_array (alloc (JArr js) h).2 l (length js).
Proof.
  change (alloc (JArr js) h)
    with (let '(vs, h1) := AllocLoops.alloc_items js h in
          let '(l, h2) := alloc_cell (CArr vs) h1 in (VRef l, h2)).
  destruct (alloc_items_facts js h) as [Hsub Hlen].
  destruct (AllocLoops.alloc_items js h) as [vs h1]. cbn [fst snd] in *.
  pose proof (alloc_cell_subseteq (CArr vs) h1) as [_ Hf].
  unfold alloc_cell in *. cbn [fst snd] in *.
  exists (fresh (dom h1)). split; [reflexivity|]. split.
  - destruct (h !! fresh (dom h1)) as [c|] eqn:E; [|reflexivity].
    pose proof (lookup_weaken _ _ _ _ E Hsub). congruence.
  - exists vs. split; [apply lookup_insert_eq|exact Hlen].
Qed.

Lemma is_object_kept (h h' : gmap nat cell) (l : nat) (names : list string) :
  kept h h' -> is_object h l names -> is_object h' l names.
Proof.
  intros K (fields & Hl & Hn). specialize (K l). rewrite Hl in K.
  destruct K as (fields' & Hl' & Hk). exists fields'. split; [exact Hl'|].
  intros k. now rewrite Hk.
Qed.

Lemma is_array_kept (h h' : gmap nat cell) (l : nat) (n : nat) :
  kept h h' -> is_array h l n -> is_array h' l n.
Proof.
  intros K (vs & Hl & Hn). specialize (K l). rewrite Hl in K.
  exists vs. now split.
Qed.

Context {C L : Type}.
Variable start_link : C -> string -> L * string.
Variable complete : L -> completion C.
Variable h0 : gmap nat cell.

Lemma gathers_kept (n : nat) (t : task C L) (s s' : state) :
  kept (heap s) (heap s') -> gathers h0 n t s -> gathers h0 n t s'.
Proof.
  intros K. destruct t; cbn [gathers]; auto.
  intros (l' & vs & -> & Hn & Hl & Hlen). exists l', vs.
  repeat split; auto. specialize (K l'). now rewrite Hl in K.
Qed.

Lemma tracks_kept (v : value) (c : C) (t : task C L) (s s' : state) :
  kept (heap s) (heap s') ->
  tracks start_link complete h0 s v c t ->
  tracks start_link complete h0 s' v c t.
Proof.
  intros K H. induction H.
  - now apply tracks_run.
  - apply tracks_throw.
  - now apply tracks_plain.
  - eapply tracks_object; eassumption.
  - eapply tracks_array; [eassumption|]. eapply gathers_kept; eassumption.
  - now apply tracks_load.
  - now apply tracks_null.
  - eapply tracks_doc; eassumption.
  - eapply tracks_doc_object; try eassumption.
    eapply is_object_kept; eassumption.
  - eapply tracks_doc_array; try eassumption.
    match goal with
    | H : _ \/ _ |- _ => destruct H as [(l & Ht & Hn & Ha)|G]
    end.
    + left. exists l. repeat split; auto. eapply is_array_kept; eassumption.
    + right. eapply gathers_kept; eassumption.
Qed.

Lemma answers_kept (v : value) (c : C) (r : value) (h h' : gmap nat cell) :
  kept h h' ->
  answers start_link complete h0 h v c r ->
  answers start_link complete h0 h' v c r.
Proof.
  intros K H. induction H.
  - now apply answers_plain.
  - eapply answers_object; eassumption.
  - eapply answers_array; try eassumption. eapply is_array_kept; eassumption.
  - now apply answers_null.
  - eapply answers_doc; eassumption.
  - eapply answers_doc_object; try eassumption.
    eapply is_object_kept; eassumption.
  - eapply answers_doc_array; try eassumption.
    eapply is_array_kept; eassumption.
Qed.

Lemma next_prop_loops (l : nat) (rest : list string) (c : C) (s : state) :
  loops (C:=C) (L:=L) l (next_prop l rest c s).
Proof. destruct rest; reflexivity. Qed.

Lemma step_loops (l : nat) (t t' : task C L) (s s' : state) :
  step start_link complete t s t' s' -> loops l t -> loops l t'.
Proof.
  intros H Hl.
  destruct H as [v c s|l0 s|l0 name r rest c s|l0 name e rest c s
                |l0 name t t' rest c s s' _|ts e s Ht|ts vs s Hr
                |pre t t' post s s' _|t s];
    try (now cbn in Hl); try exact Hl.
  cbn in Hl. subst l0. apply next_prop_loops.
Qed.

(** The call for an item looks at its value. *)
Lemma start_tracks (v : value) (c : C) (s : state) :
  live h0 v -> kept h0 (heap s) ->
  tracks start_link complete h0 (start start_link v c s).2 v c
    (start start_link v c s).1.
Proof.
  intros Hv K. unfold start. destruct v as [| |b|n|str|l];
    try (now apply tracks_plain).
  - destruct (first_is "@" str) eqn:E; [|now apply tracks_plain].
    pose proof (tracks_load start_link complete h0
                  (State (heap s)
                     (reads s ++ [(start_link c str).2])) str c E) as H.
    now destruct (start_link c str).
  - simpl in Hv. pose proof (K l) as Kl.
    destruct (h0 !! l) as [[fields|items]|] eqn:E0;
      [| |now destruct Hv as [? [=]]].
    + destruct Kl as (fields' & -> & _). cbn [fst snd].
      eapply tracks_object; [exact E0|apply next_prop_loops].
    + rewrite Kl. cbn [fst snd].
      eapply tracks_array; [exact E0|]. cbn [gathers]. apply length_map.
Qed.

(** The read of a load has completed. *)
Lemma finish_tracks (str : string) (c : C) (s : state) :
  first_is "@" str = true -> kept h0 (heap s) ->
  tracks start_link complete h0
    (finish complete (start_link c str).1 s).2 (VStr str) c
    (finish complete (start_link c str).1 s).1.
Proof.
  intros E K. unfold finish.
  destruct (complete (start_link c str).1) as [e| |j c'|] eqn:Ec.
  - apply tracks_throw.
  - now apply tracks_null.
  - destruct (prim j) as [v|] eqn:Ep.
    + rewrite (alloc_prim j v _ Ep). cbn [fst snd].
      eapply tracks_doc; [exact E|exact Ec|exact Ep|].
      apply tracks_run. eapply prim_live; exact Ep.
    + destruct j as [| | | |js|members]; try discriminate.
      * destruct (alloc_root_array js (heap s)) as (l & Hr & Hn & Ha).
        destruct (alloc (JArr js) (heap s)) as [data h].
        cbn [fst snd heap] in *. subst data.
        eapply tracks_doc_array; [exact E|exact Ec|]. left.
        exists l. split; [reflexivity|]. split; [|exact Ha].
        exact (kept_None _ _ _ K Hn).
      * destruct (alloc_root_object members (heap s)) as (l & Hr & Hn & Ho).
        destruct (alloc (JObj members) (heap s)) as [data h].
        cbn [fst snd heap] in *. subst data.
        eapply tracks_doc_object; [exact E|exact Ec| |exact Ho|now left].
        exact (kept_None _ _ _ K Hn).
  - now apply tracks_load.
Qed.

(** One step of the call for an item. *)
Lemma step_tracks (v : value) (c : C) (t t' : task C L) (s s' : state) :
  tracks start_link complete h0 s v c t ->
  step start_link complete t s t' s' ->
  kept h0 (heap s) -> waits (heap s) t ->
  tracks start_link complete h0 s' v c t'.
Proof.
  intros H. revert t' s'.
  induction H as [v c Hv|v c e|v c Hp|l fields c t E0 Hl|l items c t E0 G
                 |str c E|str c E Ec|str c j c' v t E Ec Ep H IH
                 |str c members c' l t E Ec Hn Ho Ht
                 |str c js c' t E Ec Ht]; intros t' s' Hs K W.
  - inversion Hs; subst; [now apply start_tracks|now apply tracks_run].
  - inversion Hs; subst. apply tracks_throw.
  - inversion Hs; subst. now apply tracks_plain.
  - eapply tracks_object; [exact E0|]. eapply step_loops; eassumption.
  - eapply tracks_array; [exact E0|]. eapply step_gathers; eassumption.
  - inversion Hs; subst; [now apply finish_tracks|now apply tracks_load].
  - inversion Hs; subst. now apply tracks_null.
  - eapply tracks_doc; [exact E|exact Ec|exact Ep|]. now apply IH.
  - destruct (step_kept _ _ _ _ _ _ Hs W) as [K1 _].
    eapply tracks_doc_object; [exact E|exact Ec|exact Hn| |].
    + eapply is_object_kept; eassumption.
    + destruct Ht as [->|Hl].
      * inversion Hs; subst; [|now left]. right.
        destruct Ho as (fields & Hf & _). unfold start. rewrite Hf.
        cbn [fst]. apply next_prop_loops.
      * right. eapply step_loops; eassumption.
  - destruct (step_kept _ _ _ _ _ _ Hs W) as [K1 _].
    eapply tracks_doc_array; [exact E|exact Ec|].
    destruct Ht as [(l & -> & Hn & Ha)|G].
    + inversion Hs; subst.
      * right. destruct Ha as (vs & Hf & Hlen). unfold start. rewrite Hf.
        cbn [fst snd gathers]. now rewrite length_map.
      * left. exists l. repeat split; auto.
    + right. eapply step_gathers; eassumption.
Qed.

(** The value a call returned is one the item answers to. *)
Lemma tracks_ret (v : value) (c : C) (r : value) (s : state) :
  tracks start_link complete h0 s v c (TRet r) ->
  answers start_link complete h0 (heap s) v c r.
Proof.
  intros H. remember (TRet r) as t eqn:Et. revert Et.
  induction H as [v c Hv|v c e|v c Hp|l fields c t E0 Hl|l items c t E0 G
                 |str c E|str c E Ec|str c j c' v t E Ec Ep H IH
                 |str c members c' l t E Ec Hn Ho Ht
                 |str c js c' t E Ec Ht]; intros Et; try discriminate.
  - injection Et as <-. now apply answers_plain.
  - subst t. cbn in Hl. subst r. eapply answers_object; exact E0.
  - subst t. cbn in G. destruct G as (l' & vs & -> & Hn & Hf & Hlen).
    eapply answers_array; [exact E0|exact Hn|]. now exists vs.
  - injection Et as <-. now apply answers_null.
  - eapply answers_doc; [exact E|exact Ec|exact Ep|]. now apply IH.
  - subst t. destruct Ht as [[=]|Hl]. cbn in Hl. subst r.
    eapply answers_doc_object; eassumption.
  - subst t. destruct Ht as [(l & [=] & _)|G].
    cbn in G. destruct G as (l' & vs & -> & Hn & Hf & Hlen).
    eapply answers_doc_array; [exact E|exact Ec|exact Hn|]. now exists vs.
Qed.

Lemma all_ret_tracks (items : list value) (c : C) (s : state) :
  forall ts vs,
    all_ret ts = Some vs ->
    Forall2 (fun i t => tracks start_link complete h0 s i c t) items ts ->
    Forall2 (fun i r => answers start_link complete h0 (heap s) i c r)
      items vs.
Proof.
  induction items as [|i items IH]; intros ts vs Hr H.
  - inversion H; subst. injection Hr as <-. constructor.
  - inversion H as [|? t ? ts' Ht Hts]; subst. cbn [all_ret] in Hr.
    destruct t; try discriminate.
    destruct (all_ret ts') as [vs'|] eqn:Er; [|discriminate].
    injection Hr as <-. constructor; [now apply tracks_ret|].
    now apply (IH ts').
Qed.

(** One step of [Promise.all] over the items. *)
Lemma step_tracks_all (items : list value) (c : C) (t t' : task C L)
    (s s' : state) :
  step start_link complete t s t' s' ->
  kept h0 (heap s) -> waits (heap s) t ->
  tracks_all start_link complete h0 items c t s ->
  tracks_all start_link complete h0 items c t' s'.
Proof.
  intros Hs K W T. pose proof (step_kept _ _ _ _ _ _ Hs W) as [K1 _].
  destruct Hs as [v c0 s|l0 s|l0 name r rest c0 s|l0 name e rest c0 s
                 |l0 name t t' rest c0 s s' Hs|ts e s Ht|ts vs s Hr
                 |pre t t' post s s' Hs|t s];
    try (now cbn in T); try exact T.
  - cbn [tracks_all] in *.
    pose proof (alloc_cell_subseteq (CArr vs) (heap s)) as [_ Hfresh].
    exists (alloc_cell (CArr vs) (heap s)).1, vs.
    split; [reflexivity|]. split; [exact (kept_None _ _ _ K Hfresh)|].
    split; [apply lookup_insert_eq|]. cbn [heap] in *.
    eapply List.Forall2_impl; [|exact (all_ret_tracks _ _ _ _ _ Hr T)].
    intros i r. now apply answers_kept.
  - cbn [tracks_all] in *.
    apply List.Forall2_app_inv_r in T as (i1 & i2 & T1 & T2 & ->).
    inversion T2 as [|i ? i3 ? Ti T3]; subst.
    apply List.Forall2_app.
    + eapply List.Forall2_impl; [|exact T1].
      intros a b. now apply tracks_kept.
    + constructor.
      * eapply step_tracks; [exact Ti|exact Hs|exact K|].
        unfold waits in *. cbn [frames] in W. rewrite flat_map_app in W.
        cbn [flat_map] in W. apply Forall_app in W as [_ W].
        now apply Forall_app in W as [W _].
      * eapply List.Forall2_impl; [|exact T3].
        intros a b. now apply tracks_kept.
Qed.

(** The items of an array, resolved together: the value is a new
    array that holds, at the place of each item, a value that item
    answers to. *)
Lemma all_answers (turns : list nat) (items : list value) (c : C)
    (s : state) (r : value) (s' : state) :
  all start_link complete turns items c s = Ret r s' ->
  h0 = heap s -> Forall (live h0) items ->
  exists l' vs,
    r = VRef l' /\ h0 !! l' = None /\ heap s' !! l' = Some (CArr vs)
    /\ Forall2 (fun i r => answers start_link complete h0 (heap s') i c r)
         items vs.
Proof.
  intros H E0 Hlive. unfold all in H.
  pose proof (run_reach start_link complete turns
                (TAll (map (fun i => TRun i c) items)) s) as Hr.
  rewrite H in Hr.
  assert (G : kept h0 (heap s') /\ waits (heap s') (TRet (C:=C) (L:=L) r)
              /\ tracks_all start_link complete h0 items c (TRet r) s').
  { apply (reach_invariant start_link complete
             (fun t s1 => kept h0 (heap s1) /\ waits (heap s1) t
                          /\ tracks_all start_link complete h0 items c t s1))
      with (t := TAll (map (fun i => TRun i c) items)) (s := s).
    - intros t0 s0 t1 s1 Hs (K0 & W0 & T0).
      destruct (step_kept _ _ _ _ _ _ Hs W0) as [K1 W1].
      split; [eapply kept_trans; eassumption|]. split; [exact W1|].
      eapply step_tracks_all; eassumption.
    - exact Hr.
    - split; [subst h0; apply kept_refl|]. split.
      + unfold waits. cbn [frames]. rewrite frames_map_TRun. constructor.
      + cbn [tracks_all]. clear -Hlive.
        induction Hlive as [|i items Hi _ IH]; constructor; [|exact IH].
        now apply tracks_run. }
  destruct G as (_ & _ & G). exact G.
Qed.

End ItemFacts.

(** ** Arrays, documents without links, and documents that link to
    themselves *)

Section ResolverMore.

Import Js JsString Store Shape Tasks Items.

(** Property X10.  The array [resolve] returns for an array holds, at
    the place of each item, a value that item answers to, whatever
    the order in which the calls for the items were served: an item
    that is no link and no reference as it is, a reference to an
    object as it is, for a reference to an array a reference to a new
    array of as many items, and for a link [null] or what the document
    of the file of that link comes to; this holds for both revisions
    of the resolver. *)
Theorem resolve_array_elementwise (fuel : nat) (w : world) (l : nat)
    (items : list value) (env : gmap string string) (s s' : state)
    (v : value) :
  heap s !! l = Some (CArr items) ->
  Forall (live (heap s)) items ->
  (forall dirname,
     Index.resolve (S fuel) w (VRef l) dirname env s = Ret v s' ->
     exists l' items',
       v = VRef l' /\ heap s !! l' = None
       /\ heap s' !! l' = Some (CArr items')
       /\ Forall2 (fun i r =>
                     answers (Index.start_link w env) (Index.complete w)
                       (heap s) (heap s') i dirname r)
            items items')
  /\ (forall source,
       IndexSrc.resolve (S fuel) w (VRef l) source env s = Ret v s' ->
       exists l' items',
         v = VRef l' /\ heap s !! l' = None
         /\ heap s' !! l' = Some (CArr items')
         /\ Forall2 (fun i r =>
                       answers (IndexSrc.start_link env) (IndexSrc.complete w)
                         (heap s) (heap s') i source r)
              items items').
Proof.
  intros Hl Hlive. split.
  - intros dirname H. cbn [Index.resolve] in H. rewrite Hl in H.
    exact (all_answers _ _ _ _ _ _ _ _ _ H eq_refl Hlive).
  - intros source H. cbn [IndexSrc.resolve] in H. rewrite Hl in H.
    exact (all_answers _ _ _ _ _ _ _ _ _ H eq_refl Hlive).
Qed.

Lemma resolve_array_elementwise_witness :
  exists l' items',
    VRef 2 = VRef l'
    /\ ({[ 0 := CArr [VNum 7; VStr "@c.json"] ]} : gmap nat cell) !! l' = None
    /\ (<[ 2 := CArr [VNum 7; VRef 1] ]>
          (<[ 1 := CObj [("v", VNum 1)] ]>
             {[ 0 := CArr [VNum 7; VStr "@c.json"] ]}) : gmap nat cell)
       !! l' = Some (CArr items')
    /\ Forall2 (fun i r =>
                  answers (Index.start_link Demo.demo_world ∅)
                    (Index.complete Demo.demo_world)
                    {[ 0 := CArr [VNum 7; VStr "@c.json"] ]}
                    (<[ 2 := CArr [VNum 7; VRef 1] ]>
                       (<[ 1 := CObj [("v", VNum 1)] ]>
                          {[ 0 := CArr [VNum 7; VStr "@c.json"] ]}))
                    i "/x" r)
         [VNum 7; VStr "@c.json"] items'.
Proof.
  apply (proj1 (resolve_array_elementwise 4 Demo.demo_world 0
                  [VNum 7; VStr "@c.json"] ∅
                  (State {[ 0 := CArr [VNum 7; VStr "@c.json"] ]} [])
                  (State
                     (<[ 2 := CArr [VNum 7; VRef 1] ]>
                        (<[ 1 := CObj [("v", VNum 1)] ]>
                           {[ 0 := CArr [VNum 7; VStr "@c.json"] ]}))
                     ["/x/c.json"])
                  (VRef 2)
                  ltac:(apply lookup_singleton_eq)
                  ltac:(repeat constructor)) "/x").
  vm_compute. reflexivity.
Defined.

(** Two links in one array, the second served first: the object of
    the second document is made first, and the array still has the
    object of the first document at the first place. *)
Example resolve_array_second_first :
  Index.resolve 3 DemoRace.second_first (VRef 0) "/x" ∅
    (State {[ 0 := CArr [VStr "@b.json"; VStr "@c.json"] ]} [])
  = Ret (VRef 4)
      (State
         (<[ 4 := CArr [VRef 2; VRef 1] ]>
            (<[ 3 := CObj [("v", VNum 1)] ]>
               (<[ 2 := CObj [("c", VRef 3)] ]>
                  (<[ 1 := CObj [("v", VNum 1)] ]>
                     {[ 0 := CArr [VStr "@b.json"; VStr "@c.json"] ]}))))
         ["/x/b.json"; "/x/c.json"; "/x/c.json"]).
Proof. vm_compute. reflexivity. Qed.

Lemma get_field_in (fields : list (string * value)) (name : string) :
  In name (map fst fields) -> In (name, get_field fields name) fields.
Proof.
  induction fields as [|[k x] fields IH]; [intros []|].
  intros Hin. cbn [get_field]. destruct (String.eqb_spec k name) as [->|Hne].
  - now left.
  - right. apply IH. destruct Hin as [Hk|Hin]; [contradiction|assumption].
Qed.

Lemma set_get_field (fields : list (string * value)) (name : string) :
  In name (map fst fields) ->
  set_field fields name (get_field fields name) = fields.
Proof.
  induction fields as [|[k x] fields IH]; [intros []|].
  intros Hin. cbn [set_field get_field].
  destruct (String.eqb_spec k name) as [->|Hne]; [reflexivity|].
  f_equal. apply IH. destruct Hin as [Hk|Hin]; [contradiction|assumption].
Qed.

(** The loop over the properties of an object whose values the
    resolver returns as they are, without touching the state. *)
Lemma resolve_props_inert (f : value -> state -> result value) (l : nat)
    (fields : list (string * value)) (s : state) :
  heap s !! l = Some (CObj fields) ->
  forall names,
    (forall name, In name names ->
       In name (map fst fields)
       /\ f (get_field fields name) s = Ret (get_field fields name) s) ->
    Index.resolve_props f l names s = Ret tt s.
Proof.
  intros Hl. induction names as [|name names IH]; intros H; [reflexivity|].
  cbn [Index.resolve_props]. unfold get_prop. rewrite Hl.
  destruct (H name (or_introl eq_refl)) as [Hin Hf]. rewrite Hf.
  unfold set_prop. rewrite Hl, set_get_field, insert_id by assumption.
  destruct s as [h r]. cbn [heap reads]. apply IH.
  intros n Hn. apply H. now right.
Qed.

Lemma Index_resolve_inert (w : world) (n : nat) :
  forall fuel v dirname env s,
    n <= fuel -> Inert.inert n (heap s) v = true ->
    Index.resolve fuel w v dirname env s = Ret v s.
Proof.
  induction n as [|n IH]; intros fuel v dirname env s Hle Hi; [discriminate|].
  destruct fuel as [|fuel]; [lia|]. cbn [Index.resolve Inert.inert] in *.
  destruct v as [| |b|k|str|l]; try reflexivity.
  - apply negb_true_iff in Hi. now rewrite Hi.
  - destruct (heap s !! l) as [[fields|items]|] eqn:Hl;
      [|discriminate|reflexivity].
    rewrite (resolve_props_inert _ l fields s Hl); [reflexivity|].
    intros name Hin. split; [assumption|]. apply IH; [lia|].
    rewrite forallb_forall in Hi.
    apply (Hi (name, get_field fields name)). now apply get_field_in.
Qed.

Lemma IndexSrc_resolve_inert (w : world) (n : nat) :
  forall fuel v source env s,
    n <= fuel -> Inert.inert n (heap s) v = true ->
    IndexSrc.resolve fuel w v source env s = Ret v s.
Proof.
  induction n as [|n IH]; intros fuel v source env s Hle Hi; [discriminate|].
  destruct fuel as [|fuel]; [lia|]. cbn [IndexSrc.resolve Inert.inert] in *.
  destruct v as [| |b|k|str|l]; try reflexivity.
  - apply negb_true_iff in Hi. now rewrite Hi.
  - destruct (heap s !! l) as [[fields|items]|] eqn:Hl;
      [|discriminate|reflexivity].
    rewrite (resolve_props_inert _ l fields s Hl); [reflexivity|].
    intros name Hin. split; [assumption|]. apply IH; [lia|].
    rewrite forallb_forall in Hi.
    apply (Hi (name, get_field fields name)). now apply get_field_in.
Qed.

(** Property X11.  A value without links and without arrays is returned as it is,
    by both revisions of the resolver: no file is read, no git
    command is run and the store is left as it was, whatever the
    world, the context and the place the value is resolved against. *)
Theorem resolve_inert (w : world) (n fuel : nat) (v : value)
    (env : gmap string string) (s : state) :
  n <= fuel -> Inert.inert n (heap s) v = true ->
  (forall dirname, Index.resolve fuel w v dirname env s = Ret v s)
  /\ (forall source, IndexSrc.resolve fuel w v source env s = Ret v s).
Proof.
  intros Hle Hi. split.
  - intros dirname. now apply (Index_resolve_inert w n).
  - intros source. now apply (IndexSrc_resolve_inert w n).
Qed.

Lemma resolve_inert_witness :
  Index.resolve 3 Demo.demo_world (VRef 0) "/x" ∅
    (State (<[ 1 := CObj [("v", VNum 1); ("t", VStr "a@b")] ]>
              {[ 0 := CObj [("n", VNull); ("c", VRef 1)] ]}) [])
  = Ret (VRef 0)
      (State (<[ 1 := CObj [("v", VNum 1); ("t", VStr "a@b")] ]>
                {[ 0 := CObj [("n", VNull); ("c", VRef 1)] ]}) []).
Proof.
  apply (proj1 (resolve_inert Demo.demo_world 3 3 (VRef 0) ∅
                  (State (<[ 1 := CObj [("v", VNum 1); ("t", VStr "a@b")] ]>
                            {[ 0 := CObj [("n", VNull); ("c", VRef 1)] ]}) [])
                  ltac:(lia) ltac:(vm_compute; reflexivity)) "/x").
Defined.

Lemma Index_self_link (w : world) (path text k name : string)
    (env : gmap string string) :
  Index.readFile w path = inr text ->
  json_parse w text = Some (JObj [(k, JStr (String "@" name))]) ->
  Path.resolve (cwd w) (Path.dirname path) name = path ->
  forall fuel required s,
    Index.loadJSON fuel w path env required s = NoOutcome.
Proof.
  intros Hr Hp Hself fuel.
  induction fuel as [fuel IH] using lt_wf_ind. intros required s.
  unfold Index.loadJSON, Index.loadJSON_with. rewrite Hr, Hp.
  cbn [alloc set_field alloc_cell heap reads].
  destruct fuel as [|fuel]; [reflexivity|].
  cbn [Index.resolve heap]. rewrite lookup_insert_eq.
  cbn [map fst Index.resolve_props heap]. unfold get_prop.
  rewrite lookup_insert_eq. cbn [get_field]. rewrite String.eqb_refl.
  destruct fuel as [|fuel]; [reflexivity|].
  cbn [Index.resolve]. change (first_is "@" (String "@" name)) with true.
  cbv iota. rewrite Index_link_eq. cbn [substring1]. rewrite Hself.
  change (Index.loadJSON_with (Index.resolve fuel w) w path env ?r ?s)
    with (Index.loadJSON fuel w path env r s).
  rewrite IH by lia. reflexivity.
Qed.

Lemma IndexSrc_self_link (w : world) (source : Source.t)
    (text k name : string) (env : gmap string string) :
  Source.read w source = Fulfilled text ->
  json_parse w text = Some (JObj [(k, JStr (String "@" name))]) ->
  Source.resolve source
    (Source.RefString (IndexSrc.link (String "@" name) env).1) = source ->
  forall fuel required s,
    IndexSrc.loadJSON fuel w (Source.RefSource source) env required s
    = NoOutcome.
Proof.
  intros Hr Hp Hself fuel.
  induction fuel as [fuel IH] using lt_wf_ind. intros required s.
  unfold IndexSrc.loadJSON, IndexSrc.loadJSON_with.
  cbn [Source.parseSource]. rewrite Hr, Hp.
  cbn [alloc set_field alloc_cell heap reads].
  destruct fuel as [|fuel]; [reflexivity|].
  cbn [IndexSrc.resolve heap]. rewrite lookup_insert_eq.
  cbn [map fst Index.resolve_props heap]. unfold get_prop.
  rewrite lookup_insert_eq. cbn [get_field]. rewrite String.eqb_refl.
  destruct fuel as [|fuel]; [reflexivity|].
  cbn [IndexSrc.resolve]. change (first_is "@" (String "@" name)) with true.
  cbv iota. destruct (IndexSrc.link (String "@" name) env) as [p r].
  cbn [fst] in Hself. rewrite Hself.
  change (IndexSrc.loadJSON_with (IndexSrc.resolve fuel w) w ?x env ?r ?s)
    with (IndexSrc.loadJSON fuel w x env r s).
  rewrite IH by lia. reflexivity.
Qed.

(** Property X12.  A document that links to itself is loaded again and again: the
    loader keeps no record of the files it is working on, and the
    call has no outcome, whatever the fuel.  The document is an
    object whose single property holds the link; the link leads
    back to the path of the document, or to its descriptor in the
    later revision. *)
Theorem loadJSON_self_link (w : world) (text k name : string)
    (env : gmap string string) :
  json_parse w text = Some (JObj [(k, JStr (String "@" name))]) ->
  (forall path,
     Index.readFile w path = inr text ->
     Path.resolve (cwd w) (Path.dirname path) name = path ->
     forall fuel required s,
       Index.loadJSON fuel w path env required s = NoOutcome)
  /\ (forall source,
       Source.read w source = Fulfilled text ->
       Source.resolve source
         (Source.RefString (IndexSrc.link (String "@" name) env).1) = source ->
       forall fuel required s,
         IndexSrc.loadJSON fuel w (Source.RefSource source) env required s
         = NoOutcome).
Proof.
  intros Hp. split.
  - intros path Hr Hs. now apply (Index_self_link w path text k name).
  - intros source Hr Hs. now apply (IndexSrc_self_link w source text k name).
Qed.

Lemma loadJSON_self_link_witness :
  Index.loadJSON 1000 DemoLoop.loop_world "/x/loop.json" ∅ true Demo.s0
  = NoOutcome
  /\ IndexSrc.loadJSON 1000 DemoLoop.loop_world
       (Source.RefSource (Source.Make None "/x/loop.json" None)) ∅ true
       Demo.s0
     = NoOutcome.
Proof.
  split.
  - apply (proj1 (loadJSON_self_link DemoLoop.loop_world
                    "{'self': '@loop.json'}" "self" "loop.json" ∅ eq_refl)
             "/x/loop.json"); reflexivity.
  - apply (proj2 (loadJSON_self_link DemoLoop.loop_world
                    "{'self': '@loop.json'}" "self" "loop.json" ∅ eq_refl)
             (Source.Make None "/x/loop.json" None)); reflexivity.
Defined.

End ResolverMore.

(** ** Where a link leads *)

Section LinkTargets.

Import Js JsString Store Path PathShape GitTrace.

Lemma resolve_onto_dir (cwd : string) (dirs : list string) (ref : string) :
  ref <> "" -> first_is "/" ref = false ->
  Path.resolve cwd (abs_path dirs) ref
  = "/" +:+ normalizeString (abs_path dirs +:+ "/" +:+ ref +:+ "/" +:+ "") false.
Proof.
  intros Hr Hf. unfold Path.resolve. cbn [fold_left].
  rewrite (resolve_step_first "" ref), Hf by assumption.
  rewrite resolve_step_first by discriminate.
  change (first_is "/" (abs_path dirs)) with true. reflexivity.
Qed.

(** [path.resolve] of a clean absolute directory and a relative path
    that climbs [k] levels and then descends along plain names. *)
Lemma path_resolve_relative (cwd : string) (dirs names : list string)
    (k : nat) :
  Forall (fun s => plain s = true) dirs ->
  Forall (fun s => plain s = true) names -> names <> [] ->
  Path.resolve cwd (abs_path dirs) (join "/" (repeat ".." k ++ names))
  = abs_path (firstn (length dirs - k) dirs ++ names).
Proof.
  intros Hd Hn Hne.
  assert (Hall : Forall (fun s => contains "/" s = false)
                   (repeat ".." k ++ names)).
  { apply Forall_app. split.
    - apply List.Forall_forall. intros x Hx.
      apply repeat_spec in Hx. now subst.
    - now apply Forall_plain_noslash. }
  assert (Hr : join "/" (repeat ".." k ++ names) <> "").
  { destruct (exists_last Hne) as (init & a & ->).
    apply Forall_app in Hn as [_ Ha]. inversion Ha as [|? ? Hp _]; subst.
    rewrite app_assoc. apply join_last_nonempty. now apply plain_inv in Hp. }
  rewrite resolve_onto_dir by (assumption || now apply first_is_relative).
  unfold normalizeString.
  rewrite !split_app_any, !fold_left_app, fold_split_dirs by assumption.
  rewrite split_join by (assumption || now destruct k, names).
  rewrite fold_left_app, fold_normalize_ups by (now apply List.Forall_rev).
  rewrite (fold_normalize_plain _ names) by assumption.
  rewrite fold_normalize_empty, rev_app_distr, rev_involutive.
  rewrite skipn_rev, rev_involutive. reflexivity.
Qed.

(** Property X13.  A link is looked up from the directory of the document that
    holds it: for a document in the clean absolute directory
    [/d1/.../dn], a link that climbs [k] levels with [..] and then
    names the plain segments [names] is loaded from the first
    [n - k] directories followed by [names], whatever the working
    directory of the process; climbing stops at the root. *)
Theorem link_relative_to_document (fuel : nat) (w : world)
    (dirs names : list string) (k : nat) (env : gmap string string)
    (s : state) :
  Forall (fun s => plain s = true) dirs ->
  Forall (fun s => plain s = true) names -> names <> [] ->
  let ref := join "/" (repeat ".." k ++ names) in
  Index.resolve (S fuel) w (VStr ("@" +:+ ref)) (abs_path dirs) env s
  = Index.loadJSON fuel w (abs_path (firstn (length dirs - k) dirs ++ names))
      env (first_is "!" (Expander.replace ref env)) s.
Proof.
  intros Hd Hn Hne ref. rewrite append_cons, append_nil_l.
  rewrite Index_resolve_link. unfold ref.
  now rewrite path_resolve_relative.
Qed.

Lemma link_relative_to_document_witness :
  Index.resolve 3 Demo.demo_world (VStr "@../../lib/c.json") "/x/y" ∅ Demo.s0
  = Index.loadJSON 2 Demo.demo_world "/lib/c.json" ∅ false Demo.s0.
Proof.
  apply (link_relative_to_document 2 Demo.demo_world ["x"; "y"]
           ["lib"; "c.json"] 2 ∅ Demo.s0);
    [repeat constructor|repeat constructor|discriminate].
Defined.

Lemma contains_indexOf (c : ascii) (s : string) :
  contains c s = true -> (indexOf c s >? -1)%Z = true.
Proof.
  intros H. destruct (contains_split _ _ H) as (pre & post & -> & Hp).
  rewrite indexOf_app by assumption. apply Z.gtb_lt. lia.
Qed.

Lemma path_resolve_marked (cwd : string) (dirs : list string)
    (name revision : string) :
  Forall (fun s => plain s = true) dirs -> plain name = true ->
  contains "/" revision = false ->
  Path.resolve cwd (abs_path dirs) (name +:+ "#" +:+ revision)
  = abs_path (dirs ++ [name]) +:+ "#" +:+ revision.
Proof.
  intros Hd Hn Hrev.
  pose proof (plain_inv _ Hn) as (Hn1 & Hn2 & Hn3 & _).
  set (seg := name +:+ "#" +:+ revision).
  assert (Hseg : seg <> "").
  { unfold seg. intros E. apply (f_equal String.length) in E.
    rewrite !length_append in E. simpl in E. lia. }
  assert (Hslash : contains "/" seg = false).
  { unfold seg. rewrite !contains_app, Hn2, Hrev. reflexivity. }
  assert (Hmark : contains "#" seg = true).
  { unfold seg. rewrite !contains_app. simpl. now rewrite orb_true_r. }
  assert (Hfirst : first_is "/" seg = false).
  { unfold seg. rewrite first_is_app by assumption.
    now apply PathShape_plain_first. }
  rewrite resolve_onto_dir by assumption. unfold normalizeString.
  rewrite !split_app_any, !fold_left_app, fold_split_dirs by assumption.
  rewrite (split_plain seg) by assumption. cbn [fold_left].
  rewrite normalize_step_marked by assumption.
  rewrite fold_normalize_empty. cbn [rev]. rewrite rev_involutive.
  unfold abs_path. rewrite append_assoc. f_equal.
  destruct dirs as [|d dirs]; [reflexivity|].
  rewrite !join_snoc by discriminate. unfold seg.
  now rewrite !append_assoc.
Qed.

(** Property X14.  In src/lib/index.js a path with a [#] cannot be loaded: the
    branch of [readFile] that would hand it to git reads a variable
    that is not declared, and the [ReferenceError] is thrown whether
    the reference is required or not and whether the file is there
    or not.  So a link with a revision fails, after its path has
    been re-based. *)
Theorem revision_path_is_fatal (fuel : nat) (w : world)
    (env : gmap string string) (s : state) :
  (forall path required,
     contains "#" path = true ->
     Index.loadJSON fuel w path env required s
     = Throw Index.ReferenceError_i (State (heap s) (reads s ++ [path])))
  /\ (forall dirs name revision,
       Forall (fun s => plain s = true) dirs -> plain name = true ->
       contains "/" revision = false ->
       Index.resolve (S fuel) w (VStr ("@" +:+ name +:+ "#" +:+ revision))
         (abs_path dirs) env s
       = Throw Index.ReferenceError_i
           (State (heap s)
              (reads s ++ [abs_path (dirs ++ [name]) +:+ "#" +:+ revision]))).
Proof.
  assert (H1 : forall path required,
             contains "#" path = true ->
             Index.loadJSON fuel w path env required s
             = Throw Index.ReferenceError_i
                 (State (heap s) (reads s ++ [path]))).
  { intros path required Hc.
    unfold Index.loadJSON, Index.loadJSON_with, Index.readFile.
    rewrite (contains_indexOf _ _ Hc). reflexivity. }
  split; [exact H1|].
  intros dirs name revision Hd Hn Hrev.
  rewrite append_cons, append_nil_l, Index_resolve_link.
  rewrite path_resolve_marked by assumption. apply H1.
  rewrite !contains_app. simpl. now rewrite orb_true_r.
Qed.

Lemma revision_path_is_fatal_witness :
  Index.loadJSON 3 Demo.demo_world "/x/c.json#v1" ∅ false Demo.s0
  = Throw Index.ReferenceError_i (State ∅ ["/x/c.json#v1"])
  /\ Index.resolve 3 Demo.demo_world (VStr "@c.json#v1") "/x" ∅ Demo.s0
     = Throw Index.ReferenceError_i (State ∅ ["/x/c.json#v1"]).
Proof.
  split.
  - apply (proj1 (revision_path_is_fatal 3 Demo.demo_world ∅ Demo.s0)).
    reflexivity.
  - apply (proj2 (revision_path_is_fatal 2 Demo.demo_world ∅ Demo.s0)
             ["x"] "c.json" "v1"); [repeat constructor|reflexivity|reflexivity].
Defined.

Lemma resolve_plain_name (source : Source.t) (dirs : list string)
    (file name : string) :
  Forall (fun s => plain s = true) dirs -> plain file = true ->
  plain name = true ->
  Source.filePath source = abs_path (dirs ++ [file]) ->
  Source.resolve source (Source.RefString name)
  = Source.Make (Source.repoPath source) (abs_path (dirs ++ [name]))
      (Source.commitish source).
Proof.
  intros Hd Hf Hn Hs. unfold Source.resolve.
  rewrite (PathShape_plain_first _ Hn). cbn [negb].
  rewrite Hs, dirname_abs, join2_abs by assumption.
  apply new_plain, abs_path_no_revision, Forall_app.
  split; [assumption|now constructor].
Qed.

(** Property X15.  In the later revision a link in a document of a repository is
    read from the same repository at the same revision: the path is
    joined onto the directory of the document and handed to
    [git show revision:path], run in the root of the repository, and
    what the command printed is parsed, whatever its exit status.
    With a target that is not in the repository the command prints
    nothing, and the link fails with the [SyntaxError] of
    [JSON.parse], whether it is required or not. *)
Theorem link_in_repository (fuel : nat) (w : world) (repo : string)
    (dirs : list string) (file name : string) (c : option string)
    (required : bool) (env : gmap string string)
    (pre post : list proc_event) (code : option Z) (s : state) :
  repo <> "" ->
  Forall (fun s => plain s = true) dirs -> plain file = true ->
  plain name = true -> Expander.count_tokens name = 0 ->
  first_is "!" name = false ->
  forallb is_data pre = true ->
  let target := Source.Make (Some repo) (abs_path (dirs ++ [name])) c in
  let s1 := State (heap s) (reads s ++ [Source.toString target]) in
  spawn w "git"
    ["show"; revision_or_master c +:+ ":" +:+ abs_path (dirs ++ [name])] repo
  = pre ++ CloseEv code :: post ->
  IndexSrc.resolve (S fuel) w
    (VStr ("@" +:+ (if required then "!" else "") +:+ name))
    (Source.Make (Some repo) (abs_path (dirs ++ [file])) c) env s
  = match json_parse w (stdout_of pre) with
    | Some j =>
        IndexSrc.resolve fuel w (alloc j (heap s)).1 target env
          (State (alloc j (heap s)).2 (reads s1))
    | None => Throw Index.SyntaxError s1
    end.
Proof.
  intros Hrepo Hd Hf Hn Htok Hbang Hpre target s1 Hspawn.
  rewrite append_cons, append_nil_l, IndexSrc_resolve_link.
  assert (Hrep : Expander.replace ((if required then "!" else "") +:+ name) env
                 = (if required then "!" else "") +:+ name).
  { apply replace_no_token. destruct required.
    - rewrite append_cons, append_nil_l. cbn [Expander.count_tokens].
      now rewrite Htok.
    - now rewrite append_nil_l. }
  cbv zeta. rewrite Hrep.
  assert (E : first_is "!" ((if required then "!" else "") +:+ name) = required).
  { destruct required; [reflexivity|]. now rewrite append_nil_l. }
  rewrite E.
  replace (if required
           then substring1 ((if required then "!" else "") +:+ name)
           else (if required then "!" else "") +:+ name)
    with name by (destruct required; [reflexivity|now rewrite append_nil_l]).
  rewrite (resolve_plain_name _ dirs file name) by (assumption || reflexivity).
  cbn [Source.repoPath Source.commitish]. fold target.
  unfold IndexSrc.loadJSON, IndexSrc.loadJSON_with.
  cbn [Source.parseSource]. fold s1.
  assert (R : Source.read w target = Fulfilled (stdout_of pre)).
  { assert (Ht : truthy (Some repo) = true) by (now destruct repo).
    unfold Source.read, target.
    cbn [Source.repoPath Source.filePath Source.commitish]. rewrite Ht.
    change (default EmptyString (Some repo)) with repo.
    rewrite read_unfold. unfold Git.git. rewrite Hspawn.
    rewrite git_listen_close by assumption. reflexivity. }
  rewrite R. destruct (json_parse w (stdout_of pre)) as [j|].
  - change (heap s1) with (heap s). now destruct (alloc j (heap s)).
  - unfold Index.loadJSON_catch. reflexivity.
Qed.

Lemma link_in_repository_witness :
  IndexSrc.resolve 3 DemoRepo.repo_world (VStr "@missing.json")
    (Source.Make (Some "/repo") "/conf/opt.json" None) ∅ Demo.s0
  = Throw Index.SyntaxError (State ∅ ["(/repo):/conf/missing.json"]).
Proof.
  apply (link_in_repository 2 DemoRepo.repo_world "/repo" ["conf"]
           "opt.json" "missing.json" None false ∅
           [StderrData "fatal: path does not exist"] [] (Some 128%Z) Demo.s0);
    try reflexivity; try discriminate; repeat constructor.
Defined.

End LinkTargets.

(** ** The class [Source] of src/lib/index.js *)

Section SchemeSourceFacts.

Import Js JsString Expander SchemeSource.

Lemma span_path_app (s p r : string) :
  span_path s = (p, r) ->
  s = p +:+ r /\ contains "#" p = false
  /\ (r = "" \/ exists g, r = String "#" g).
Proof.
  revert p r. induction s as [|c s IH]; cbn [span_path]; intros p r H.
  - injection H as <- <-. auto.
  - destruct (Ascii.eqb c "#") eqn:E.
    + injection H as <- <-. apply Ascii.eqb_eq in E as ->.
      split; [reflexivity|]. split; [reflexivity|]. right. eauto.
    + destruct (span_path s) as [p' r'] eqn:Es. injection H as <- <-.
      destruct (IH _ _ eq_refl) as (-> & Hp & Hr).
      split; [reflexivity|]. split; [|exact Hr]. cbn [contains].
      now rewrite E, Hp.
Qed.

Lemma span_path_stop (p r : string) :
  contains "#" p = false -> (r = "" \/ exists g, r = String "#" g) ->
  span_path (p +:+ r) = (p, r).
Proof.
  intros Hp Hr. induction p as [|c p IH].
  - rewrite append_nil_l. destruct Hr as [->|(g & ->)]; reflexivity.
  - cbn [contains] in Hp. apply orb_false_iff in Hp as [Hc Hp].
    rewrite append_cons. cbn [span_path]. now rewrite Hc, (IH Hp).
Qed.

Lemma match_rest_sound (s p : string) (f : option string) :
  match_rest s = Some (p, f) ->
  s = p +:+ default "" f /\ path_ok p = true /\ fragment_ok f = true.
Proof.
  unfold match_rest. destruct (span_path s) as [p' r] eqn:E.
  apply span_path_app in E as (-> & Hp & Hr).
  destruct p' as [|c p']; [discriminate|].
  assert (Hok : path_ok (String c p') = true)
    by (unfold path_ok; now rewrite Hp).
  destruct r as [|d r].
  - intros [= <- <-]. cbn [default id]. auto.
  - destruct Hr as [Hr|(g & Hg)]; [discriminate|]. injection Hg as -> ->.
    destruct (dot_star_eol g) eqn:Hd; [|discriminate].
    intros [= <- <-]. auto.
Qed.

Lemma fragment_ok_inv (f : option string) :
  fragment_ok f = true ->
  default "" f = ""
  /\ f = None
  \/ exists g, f = Some (String "#" g) /\ dot_star_eol g = true.
Proof.
  destruct f as [[|c g]|]; [discriminate| |auto].
  cbn [fragment_ok]. intros H. right. exists g.
  destruct (ascii_dec c "#") as [->|Hne]; [auto|].
  destruct c as [[] [] [] [] [] [] [] []]; try discriminate; congruence.
Qed.

Lemma match_rest_complete (p : string) (f : option string) :
  path_ok p = true -> fragment_ok f = true ->
  match_rest (p +:+ default "" f) = Some (p, f).
Proof.
  unfold path_ok. intros Hp Hf.
  apply andb_true_iff in Hp as [Hne Hc].
  apply negb_true_iff in Hne, Hc. apply String.eqb_neq in Hne.
  unfold match_rest.
  destruct (fragment_ok_inv f Hf) as [[E ->]|(g & -> & Hg)].
  - cbn [default id]. rewrite append_nil_r.
    rewrite <- (append_nil_r p) at 1.
    rewrite span_path_stop by auto. now destruct p.
  - cbn [default id]. rewrite span_path_stop by eauto.
    destruct p; [congruence|]. now rewrite Hg.
Qed.

Lemma match_scheme_sound (s sch rest : string) :
  match_scheme s = Some (sch, rest) ->
  s = sch +:+ rest /\ scheme_ok (Some sch) = true.
Proof.
  unfold match_scheme. destruct (span_word s) as [w r] eqn:E.
  destruct w as [|c w]; [discriminate|].
  destruct r as [|d r]; [discriminate|].
  destruct (ascii_dec d ":") as [->|Hne].
  2:{ destruct d as [[] [] [] [] [] [] [] []]; try discriminate; congruence. }
  intros [= <- <-]. pose proof (span_word_all _ _ _ E) as Hw.
  apply span_word_app in E as ->. split.
  - now rewrite append_assoc.
  - cbn [scheme_ok]. rewrite (span_word_stop (String c w) "" ":") by auto.
    reflexivity.
Qed.

Lemma scheme_ok_inv (x : string) :
  scheme_ok (Some x) = true ->
  exists w, x = w +:+ ":" /\ w <> "" /\ all_word w = true.
Proof.
  cbn [scheme_ok]. destruct (span_word x) as [w r] eqn:E.
  destruct w as [|c w]; [discriminate|].
  destruct r as [|d r]; [discriminate|].
  destruct (ascii_dec d ":") as [->|Hne].
  2:{ destruct d as [[] [] [] [] [] [] [] []]; try discriminate; congruence. }
  destruct r; [|discriminate]. intros _. exists (String c w).
  split; [now apply span_word_app in E|]. split; [discriminate|].
  now apply span_word_all in E.
Qed.

Lemma match_scheme_complete (w rest : string) :
  w <> "" -> all_word w = true ->
  match_scheme (w +:+ ":" +:+ rest) = Some (w +:+ ":", rest).
Proof.
  intros Hne Hw. unfold match_scheme.
  change (":" +:+ rest) with (String ":" rest).
  rewrite span_word_stop by auto. now destruct w.
Qed.

Lemma contains_word (w : string) :
  all_word w = true -> contains "#" w = false.
Proof.
  induction w as [|c w IH]; [reflexivity|]. cbn [all_word contains].
  intros H. apply andb_true_iff in H as [Hc Hw]. rewrite (IH Hw).
  destruct (Ascii.eqb_spec c "#") as [->|]; [discriminate|reflexivity].
Qed.

(** Every text of the three shapes matches from its start, the
    scheme counted with the path. *)
Lemma match_rest_text (sch : option string) (p : string) (f : option string) :
  scheme_ok sch = true -> path_ok p = true -> fragment_ok f = true ->
  match_rest (text sch p f) = Some (default "" sch +:+ p, f).
Proof.
  intros Hs Hp Hf. unfold text. rewrite <- append_assoc.
  apply match_rest_complete; [|assumption].
  unfold path_ok in *. apply andb_true_iff in Hp as [Hne Hc].
  apply negb_true_iff in Hne, Hc. apply String.eqb_neq in Hne.
  apply andb_true_iff. split; apply negb_true_iff.
  - apply String.eqb_neq. intros E. apply (f_equal String.length) in E.
    rewrite length_append in E. destruct p; [congruence|]. simpl in E. lia.
  - rewrite contains_app, Hc, orb_false_r.
    destruct sch as [x|]; [|reflexivity]. cbn [default id].
    destruct (scheme_ok_inv x Hs) as (w & -> & _ & Hw).
    rewrite contains_app, (contains_word _ Hw). reflexivity.
Qed.

(** Property X16.  [parseSource] cuts a text into its parts and nothing else: the
    scheme, the path and the fragment of the source it returns, one
    after the other, are the text, and each has its shape; it throws
    exactly for the texts that cannot be cut in this way (the empty
    text, a text that begins with [#], a text with a line terminator
    after its first [#]); and a text that begins with a word and a
    colon, before a path, is given that scheme. *)
Theorem SchemeSource_parseSource_parts :
  (forall s,
     match parseSource (ArgString s) with
     | inr src =>
         s = text (scheme src) (path src) (fragment src)
         /\ scheme_ok (scheme src) = true /\ path_ok (path src) = true
         /\ fragment_ok (fragment src) = true
     | inl e =>
         e = Error "Error" None ("Invalid source: " +:+ s)
         /\ forall sch p f,
              scheme_ok sch = true -> path_ok p = true ->
              fragment_ok f = true -> s <> text sch p f
     end)
  /\ (forall w p f,
        w <> "" -> all_word w = true -> path_ok p = true ->
        fragment_ok f = true ->
        parseSource (ArgString (text (Some (w +:+ ":")) p f))
        = inr (Make (Some (w +:+ ":")) p f)).
Proof.
  split.
  - intros s. cbn [parseSource]. unfold exec_source.
    assert (Hwithout :
      match match_rest s with
      | Some (p, f) =>
          s = text None p f /\ path_ok p = true /\ fragment_ok f = true
      | None =>
          forall sch p f,
            scheme_ok sch = true -> path_ok p = true ->
            fragment_ok f = true -> s <> text sch p f
      end).
    { destruct (match_rest s) as [[p f]|] eqn:E.
      - now apply match_rest_sound in E.
      - intros sch p f Hs Hp Hf ->.
        rewrite match_rest_text in E by assumption. discriminate. }
    destruct (match_scheme s) as [[sch rest]|] eqn:Es.
    + apply match_scheme_sound in Es as (Hs & Hok).
      destruct (match_rest rest) as [[p f]|] eqn:Er.
      * apply match_rest_sound in Er as (-> & Hp & Hf).
        cbn [scheme path fragment]. auto.
      * destruct (match_rest s) as [[p f]|]; cbn [scheme path fragment].
        -- destruct Hwithout as (H1 & H2 & H3). auto.
        -- auto.
    + destruct (match_rest s) as [[p f]|]; cbn [scheme path fragment].
      * destruct Hwithout as (H1 & H2 & H3). auto.
      * auto.
  - intros w p f Hne Hw Hp Hf. cbn [parseSource]. unfold exec_source, text.
    cbn [default id]. rewrite append_assoc.
    rewrite match_scheme_complete by assumption.
    now rewrite match_rest_complete.
Qed.

Lemma SchemeSource_parseSource_parts_witness :
  parseSource (ArgString "git:conf/a.json#v1")
  = inr (Make (Some "git:") "conf/a.json" (Some "#v1")).
Proof.
  apply (proj2 SchemeSource_parseSource_parts "git" "conf/a.json" (Some "#v1"));
    [discriminate|reflexivity|reflexivity|reflexivity].
Defined.

Lemma resolve_is_absolute (cwd a b : string) :
  first_is "/" cwd = true -> first_is "/" (Path.resolve cwd a b) = true.
Proof.
  intros Hc. unfold Path.resolve. cbn [fold_left].
  destruct (Path.resolve_step (Path.resolve_step ("", false) b) a)
    as [x flag].
  destruct flag.
  - reflexivity.
  - rewrite resolve_step_first by (destruct cwd; [discriminate|congruence]).
    now rewrite Hc.
Qed.

Lemma loose_eq_iff (a b : option string) : loose_eq a b = true <-> a = b.
Proof.
  destruct a as [x|], b as [y|]; cbn [loose_eq];
    try (split; congruence).
  rewrite String.eqb_eq. split; congruence.
Qed.

(** Property X17.  [resolve] returns a source whose path is absolute as it is, for
    every reference.  A source whose path is relative is re-based on
    the path of the reference when the two have the same scheme, and
    on the working directory when its scheme is [file:]; the result
    has the scheme and the fragment of the source and an absolute
    path, so that resolving it again changes nothing.  In the one
    case left the call throws. *)
Theorem SchemeSource_resolve_cases (w : world) (this ref : t) :
  first_is "/" (cwd w) = true ->
  (first_is "/" (path this) = true -> resolve w this ref = inr this)
  /\ (forall r,
        resolve w this ref = inr r ->
        scheme r = scheme this /\ fragment r = fragment this
        /\ first_is "/" (path r) = true
        /\ forall ref', resolve w r ref' = inr r)
  /\ (forall e,
        resolve w this ref = inl e <->
        (e = Error "Error" None
               ("Can't resolve " +:+ show (scheme this)
                +:+ " source against " +:+ show (scheme ref)
                +:+ " reference")
         /\ first_is "/" (path this) = false
         /\ scheme this <> scheme ref /\ scheme this <> Some "file:")).
Proof.
  intros Hcwd. unfold resolve. split; [|split].
  - intros ->. reflexivity.
  - intros r H.
    assert (Habs : first_is "/" (path r) = true
                   /\ scheme r = scheme this /\ fragment r = fragment this).
    { destruct (first_is "/" (path this)) eqn:Hp.
      - injection H as <-. auto.
      - destruct (loose_eq (scheme this) (scheme ref)).
        + injection H as <-. cbn [path scheme fragment].
          split; [now apply resolve_is_absolute|auto].
        + destruct (loose_eq (scheme this) (Some "file:")); [|discriminate].
          injection H as <-. cbn [path scheme fragment].
          split; [now apply resolve_is_absolute|auto]. }
    destruct Habs as (Ha & Hs & Hf). repeat split; try assumption.
    intros ref'. now rewrite Ha.
  - intros e. destruct (first_is "/" (path this)).
    + split; [discriminate|]. intros (_ & H & _). discriminate.
    + destruct (loose_eq (scheme this) (scheme ref)) eqn:E1.
      * split; [discriminate|]. intros (_ & _ & H & _).
        apply loose_eq_iff in E1. contradiction.
      * destruct (loose_eq (scheme this) (Some "file:")) eqn:E2.
        -- split; [discriminate|]. intros (_ & _ & _ & H).
           apply loose_eq_iff in E2. contradiction.
        -- split.
           ++ intros [= <-]. repeat split.
              ** intros H. apply loose_eq_iff in H. congruence.
              ** intros H. apply loose_eq_iff in H. congruence.
           ++ intros (-> & _). reflexivity.
Qed.

Lemma SchemeSource_resolve_cases_witness :
  resolve Demo.demo_world (Make (Some "file:") "/x/a.json" None)
    (Make (Some "git:") "/repo" None)
  = inr (Make (Some "file:") "/x/a.json" None).
Proof.
  apply (proj1 (SchemeSource_resolve_cases Demo.demo_world
                  (Make (Some "file:") "/x/a.json" None)
                  (Make (Some "git:") "/repo" None) eq_refl)).
  reflexivity.
Defined.

End SchemeSourceFacts.

(** ** What a load depends on *)

Section TaskExt.

Import Js Store Tasks.

Context {C L : Type}.
Variable start_link : C -> string -> L * string.
Variables complete complete' : L -> completion C.

(** The places and the loads a run can come to. *)
Variable P : C -> Prop.
Variable Q : L -> Prop.
Hypothesis start_link_Q : forall c str, P c -> Q (start_link c str).1.
Hypothesis complete_P : forall l j c, Q l -> complete l = CDoc j c -> P c.
Hypothesis complete_ext : forall l, Q l -> complete l = complete' l.

Lemma places_map_TRun (items : list value) (c : C) :
  Forall P (flat_map (places (C:=C) (L:=L)) (map (fun i => TRun i c) items))
  <-> (items = [] \/ P c).
Proof.
  induction items as [|i items IH]; cbn.
  - split; [now left|constructor].
  - split.
    + intros H. right. now inversion H.
    + intros [[=]|H]. constructor; [exact H|]. apply IH. now right.
Qed.

Lemma step_sided (t t' : task C L) (s s' : state) :
  step start_link complete t s t' s' ->
  Forall P (places t) -> Forall Q (loads t) ->
  Forall P (places t') /\ Forall Q (loads t').
Proof.
  induction 1 as [v c s|l s|l name r rest c s|l name e rest c s
                 |l name t t' rest c s s' _ IH|ts e s Ht|ts vs s Hr
                 |pre t t' post s s' _ IH|t s]; intros HP HQ.
  - cbn [places] in HP. inversion HP as [|? ? Hc _]; subst.
    unfold start. destruct v as [| |b|n|str|l];
      try (split; constructor).
    + destruct (JsString.first_is "@" str); [|split; constructor].
      pose proof (start_link_Q c str Hc) as Hq.
      destruct (start_link c str) as [ld entry]. cbn [fst snd] in *.
      split; [constructor|]. constructor; [exact Hq|constructor].
    + destruct (heap s !! l) as [[fields|items]|]; cbn [fst snd];
        [| |split; constructor].
      * unfold next_prop. destruct (map fst fields); cbn;
          split; try constructor; auto.
      * cbn [places loads]. split.
        -- apply places_map_TRun. now right.
        -- clear. induction items; [constructor|assumption].
  - cbn [loads] in HQ. inversion HQ as [|? ? Hl _]; subst.
    unfold finish. pose proof (complete_P l) as HPl.
    destruct (complete l) as [e| |j c|]; cbn [fst snd].
    + split; constructor.
    + split; constructor.
    + destruct (alloc j (heap s)) as [data h]. cbn [fst snd places loads].
      split; [|constructor]. constructor; [|constructor].
      now apply (HPl j c).
    + split; [constructor|exact HQ].
  - cbn [places] in HP. inversion HP as [|? ? Hc _]; subst.
    unfold next_prop. destruct rest; cbn; split; try constructor; auto.
  - split; constructor.
  - cbn [places loads] in *. inversion HP as [|? ? Hc HPt]; subst.
    destruct (IH HPt HQ) as [H1 H2]. split; [|exact H2]. now constructor.
  - split; constructor.
  - split; constructor.
  - cbn [places loads] in *. rewrite !flat_map_app in *. cbn [flat_map] in *.
    apply Forall_app in HP as [HP1 HP2]. apply Forall_app in HP2 as [HP2 HP3].
    apply Forall_app in HQ as [HQ1 HQ2]. apply Forall_app in HQ2 as [HQ2 HQ3].
    destruct (IH HP2 HQ2) as [H1 H2].
    split; (apply Forall_app; split; [assumption|];
            apply Forall_app; split; assumption).
  - now split.
Qed.

(** One turn is the same turn when the loads come to the same. *)
Lemma advance_ext (n : nat) (t : task C L) (s : state) :
  Forall Q (loads t) ->
  advance start_link complete n t s = advance start_link complete' n t s.
Proof.
  revert n s. induction t as [v c|l|l name t rest c IH|ts IH|v|e]
    using task_induction; intros n s HQ.
  - reflexivity.
  - cbn [advance]. unfold finish. cbn [loads] in HQ.
    inversion HQ as [|? ? Hl _]; subst. now rewrite (complete_ext l Hl).
  - cbn [advance]. cbn [loads] in HQ.
    destruct t; try reflexivity; now rewrite (IH n s HQ).
  - cbn [advance]. destruct (first_throw ts); [reflexivity|].
    destruct (all_ret ts); [reflexivity|].
    set (m := waiting ts). generalize (n mod m) as k. generalize (n / m) as n'.
    clear m. intros n' k.
    assert (H : forall k,
      (fix pick (k : nat) (ts : list (task C L)) : list (task C L) * state :=
         match ts with
         | [] => ([], s)
         | t0 :: rest =>
             if settled t0 then
               let '(rest', s') := pick k rest in (t0 :: rest', s')
             else
               match k with
               | 0 =>
                   let '(t0', s') := advance start_link complete n' t0 s in
                   (t0' :: rest, s')
               | S k' =>
                   let '(rest', s') := pick k' rest in (t0 :: rest', s')
               end
         end) k ts
      = (fix pick (k : nat) (ts : list (task C L)) : list (task C L) * state :=
         match ts with
         | [] => ([], s)
         | t0 :: rest =>
             if settled t0 then
               let '(rest', s') := pick k rest in (t0 :: rest', s')
             else
               match k with
               | 0 =>
                   let '(t0', s') := advance start_link complete' n' t0 s in
                   (t0' :: rest, s')
               | S k' =>
                   let '(rest', s') := pick k' rest in (t0 :: rest', s')
               end
         end) k ts).
    { cbn [loads] in HQ. clear k. induction ts as [|t ts IHts]; intros k.
      - reflexivity.
      - inversion IH as [|? ? Ht Hts]; subst. cbn [flat_map] in HQ.
        apply Forall_app in HQ as [HQ1 HQ2].
        destruct (settled t).
        + now rewrite (IHts Hts HQ2 k).
        + destruct k as [|k].
          * now rewrite (Ht n' s HQ1).
          * now rewrite (IHts Hts HQ2 k). }
    now rewrite (H k).
  - reflexivity.
  - reflexivity.
Qed.

Lemma run_ext (turns : list nat) :
  forall t s,
    Forall P (places t) -> Forall Q (loads t) ->
    run start_link complete turns t s = run start_link complete' turns t s.
Proof.
  induction turns as [|n turns IH]; intros t s HP HQ.
  - destruct t; reflexivity.
  - assert (H : (let '(t', s') := advance start_link complete n t s in
                 run start_link complete turns t' s')
                = (let '(t', s') := advance start_link complete' n t s in
                   run start_link complete' turns t' s')).
    { rewrite <- (advance_ext n t s HQ).
      pose proof (advance_step start_link complete n t s) as Hs.
      destruct (advance start_link complete n t s) as [t' s'].
      cbn [fst snd] in Hs. destruct (step_sided _ _ _ _ Hs HP HQ) as [HP' HQ'].
      now apply IH. }
    destruct t; cbn [run]; try exact H; reflexivity.
Qed.

Lemma all_ext (turns : list nat) (items : list value) (c : C) (s : state) :
  P c ->
  all start_link complete turns items c s
  = all start_link complete' turns items c s.
Proof.
  intros Hc. unfold all. apply run_ext.
  - cbn [places]. apply places_map_TRun. now right.
  - cbn [loads]. clear. induction items; [constructor|assumption].
Qed.

End TaskExt.

Section OneSide.

Import Js JsString Store Sides Tasks.

Lemma resolve_props_ext (f g : value -> state -> result value) (l : nat) :
  (forall v s, f v s = g v s) ->
  forall names s,
    Index.resolve_props f l names s = Index.resolve_props g l names s.
Proof.
  intros H. induction names as [|n names IH]; intros s; [reflexivity|].
  cbn [Index.resolve_props]. rewrite H.
  destruct (g _ s) as [v s1|e s1|]; try reflexivity. now rewrite IH.
Qed.

Lemma new_repoPath (rp : option string) (fp : string) (c : option string) :
  Source.repoPath (Source.new rp fp c) = rp.
Proof. unfold Source.new. now destruct (_ >? _)%Z. Qed.

Lemma resolve_repoPath (source : Source.t) (r : Source.ref) :
  Source.repoPath (Source.resolve source r) = Source.repoPath source.
Proof. unfold Source.resolve. apply new_repoPath. Qed.

Lemma same_side_resolve (w w' : world) (source : Source.t) (r : Source.ref) :
  same_side w w' source -> same_side w w' (Source.resolve source r).
Proof. unfold same_side. now rewrite resolve_repoPath. Qed.

Lemma same_side_read (w w' : world) (source : Source.t) :
  same_side w w' source -> Source.read w source = Source.read w' source.
Proof.
  intros (_ & _ & H). unfold Source.read.
  destruct (truthy (Source.repoPath source)).
  - unfold Git.read, Git.git. now rewrite H.
  - now rewrite H.
Qed.

Lemma same_side_complete (w w' : world) (l : Source.t * bool) :
  same_side w w' l.1 -> IndexSrc.complete w l = IndexSrc.complete w' l.
Proof.
  destruct l as [source required]. intros Hs. unfold IndexSrc.complete.
  rewrite (same_side_read w w' source Hs). destruct Hs as (<- & _).
  reflexivity.
Qed.

Lemma same_side_all (w w' : world) (env : gmap string string)
    (turns : list nat) (items : list value) (source : Source.t) (s : state) :
  same_side w w' source ->
  all (IndexSrc.start_link env) (IndexSrc.complete w) turns items source s
  = all (IndexSrc.start_link env) (IndexSrc.complete w') turns items source s.
Proof.
  apply (all_ext (IndexSrc.start_link env) (IndexSrc.complete w)
           (IndexSrc.complete w') (same_side w w')
           (fun l => same_side w w' l.1)).
  - intros c str Hc. unfold IndexSrc.start_link.
    destruct (IndexSrc.link str env) as [path required]. cbn [fst].
    now apply same_side_resolve.
  - intros [source0 required] j c Hl. unfold IndexSrc.complete.
    unfold Index.catch.
    destruct (Source.read w source0) as [text|e|];
      [|destruct (_ && _); discriminate|discriminate].
    destruct (json_parse w text); [|destruct (_ && _); discriminate].
    now intros [= _ <-].
  - intros l. apply same_side_complete.
Qed.

Lemma same_side_load (w w' : world) (fuel : nat) :
  forall source, same_side w w' source ->
    (forall v env s,
       IndexSrc.resolve fuel w v source env s
       = IndexSrc.resolve fuel w' v source env s)
    /\ (forall env required s,
          IndexSrc.loadJSON fuel w (Source.RefSource source) env required s
          = IndexSrc.loadJSON fuel w' (Source.RefSource source) env required s).
Proof.
  induction fuel as [|fuel IH]; intros source Hs.
  - split; [reflexivity|]. intros env required s.
    unfold IndexSrc.loadJSON, IndexSrc.loadJSON_with.
    cbn [Source.parseSource]. rewrite (same_side_read w w' source Hs).
    destruct Hs as [<- _].
    destruct (Source.read w' source) as [text|e|]; reflexivity.
  - assert (Hres : forall v env s,
              IndexSrc.resolve (S fuel) w v source env s
              = IndexSrc.resolve (S fuel) w' v source env s).
    { intros v env s. cbn [IndexSrc.resolve].
      destruct v as [| |b|n|str|l]; try reflexivity.
      - destruct (first_is "@" str); [|reflexivity].
        destruct (IndexSrc.link str env) as [p required].
        apply (IH _ (same_side_resolve w w' source (Source.RefString p) Hs)).
      - destruct (heap s !! l) as [[fields|items]|]; [| |reflexivity].
        + rewrite (resolve_props_ext _
                     (fun v => IndexSrc.resolve fuel w' v source env) l);
            [reflexivity|].
          intros v s0. apply (IH source Hs).
        + pose proof Hs as (_ & <- & _). now apply same_side_all. }
    split; [exact Hres|]. intros env required s.
    unfold IndexSrc.loadJSON, IndexSrc.loadJSON_with.
    cbn [Source.parseSource]. rewrite (same_side_read w w' source Hs).
    pose proof Hs as [Hj _]. rewrite <- Hj.
    destruct (Source.read w' source) as [text|e|]; try reflexivity.
    destruct (json_parse w text) as [j|]; [|reflexivity].
    cbn [heap reads]. destruct (alloc j (heap s)). apply Hres.
Qed.

(** Property X18.  In the later revision a document is read from one side only,
    and so is everything it links to: the load of a descriptor with
    a repository runs git commands and never reads the file system,
    so that the files of the work tree do not count, and the load of
    a descriptor without repository reads the file system and never
    runs a git command.  The outcome, the store and the references
    read are the same in two worlds that differ on the other side
    only: they have the same working directory, the same
    [JSON.parse] and the same turns, and the same git commands in
    the first case, the same file system in the second. *)
Theorem load_from_one_side (fuel : nat) (w : world) (source : Source.t)
    (env : gmap string string) (required : bool) (s : state) :
  (truthy (Source.repoPath source) = true ->
   forall fs,
     IndexSrc.loadJSON fuel w (Source.RefSource source) env required s
     = IndexSrc.loadJSON fuel
         (MkWorld (cwd w) fs (spawn w) (json_parse w) (schedule w))
         (Source.RefSource source) env required s)
  /\ (truthy (Source.repoPath source) = false ->
      forall spawn',
        IndexSrc.loadJSON fuel w (Source.RefSource source) env required s
        = IndexSrc.loadJSON fuel
            (MkWorld (cwd w) (fs_readFile w) spawn' (json_parse w)
               (schedule w))
            (Source.RefSource source) env required s).
Proof.
  split.
  - intros T fs. apply same_side_load. unfold same_side. now rewrite T.
  - intros T spawn'. apply same_side_load. unfold same_side.
    now rewrite T.
Qed.

Lemma load_from_one_side_witness :
  IndexSrc.loadJSON 4 DemoRepo.repo_world
    (Source.RefSource (Source.Make (Some "/repo") "/conf/a.json" None)) ∅ true
    Demo.s0
  = IndexSrc.loadJSON 4
      (MkWorld (cwd DemoRepo.repo_world) (fun _ => inl Demo.EACCES)
         (spawn DemoRepo.repo_world) (json_parse DemoRepo.repo_world)
         (schedule DemoRepo.repo_world))
      (Source.RefSource (Source.Make (Some "/repo") "/conf/a.json" None)) ∅
      true Demo.s0.
Proof.
  apply (proj1 (load_from_one_side 4 DemoRepo.repo_world
                  (Source.Make (Some "/repo") "/conf/a.json" None) ∅ true
                  Demo.s0) eq_refl (fun _ => inl Demo.EACCES)).
Defined.

End OneSide.

(** ** What a run leaves of the store *)

Section StoreInvariants.

#[local] Set Warnings "-clear-no-such-hyp".

Import Js JsString Store Shape Footprint.

(** Property X19.  A run that returns has removed nothing and reshaped nothing:
    every array that was in the store is there as it was, and every
    object is at its location with the property names it had, in
    their order; only the values of properties change, and cells are
    added.  This holds for [resolve] and for [loadJSON], in both
    revisions. *)
Theorem run_keeps_shapes (fuel : nat) (w : world) (env : gmap string string)
    (s s' : state) (r : value) :
  (forall v dirname,
     Index.resolve fuel w v dirname env s = Ret r s' ->
     kept (heap s) (heap s'))
  /\ (forall path required,
        Index.loadJSON fuel w path env required s = Ret r s' ->
        kept (heap s) (heap s'))
  /\ (forall v source,
        IndexSrc.resolve fuel w v source env s = Ret r s' ->
        kept (heap s) (heap s'))
  /\ (forall ref required,
        IndexSrc.loadJSON fuel w ref env required s = Ret r s' ->
        kept (heap s) (heap s')).
Proof.
  split; [|split; [|split]].
  - intros v dirname H. exact (resolve_kept w fuel dirname env _ _ _ _ H).
  - intros path required H.
    exact (loadJSON_with_kept w _ path env required (resolve_kept w fuel)
             _ _ _ H).
  - intros v source H.
    exact (IndexSrc_resolve_kept w fuel source env _ _ _ _ H).
  - intros ref required H.
    exact (IndexSrc_loadJSON_with_kept w _ ref env required
             (IndexSrc_resolve_kept w fuel) _ _ _ H).
Qed.

Lemma run_keeps_shapes_witness :
  kept {[ 0 := CArr [VNum 7; VStr "@c.json"] ]}
    (<[ 2 := CArr [VNum 7; VRef 1] ]>
       (<[ 1 := CObj [("v", VNum 1)] ]>
          {[ 0 := CArr [VNum 7; VStr "@c.json"] ]})).
Proof.
  assert (E : Index.resolve 5 Demo.demo_world (VRef 0) "/x" ∅
                (State {[ 0 := CArr [VNum 7; VStr "@c.json"] ]} [])
              = Ret (VRef 2)
                  (State
                     (<[ 2 := CArr [VNum 7; VRef 1] ]>
                        (<[ 1 := CObj [("v", VNum 1)] ]>
                           {[ 0 := CArr [VNum 7; VStr "@c.json"] ]}))
                     ["/x/c.json"]))
    by (vm_compute; reflexivity).
  exact (proj1 (run_keeps_shapes 5 Demo.demo_world ∅ _ _ _) _ _ E).
Defined.

(** Property X20.  [resolve] stays within what its argument reaches: when the
    locations [F] hold the value and everything reachable from it,
    every cell of the store outside [F] is after the call as it was
    before, and the result reaches only cells of [F] and cells that
    are new. *)
Theorem resolve_leaves_the_rest (fuel : nat) (w : world) (v : value)
    (dirname : string) (env : gmap string string) (s s' : state)
    (r : value) (F : gset nat) :
  Index.resolve fuel w v dirname env s = Ret r s' ->
  value_in F v -> closed (heap s) F ->
  (forall l, l ∉ F -> is_Some (heap s !! l) -> heap s' !! l = heap s !! l)
  /\ exists F',
       F ⊆ F' /\ (forall l, l ∈ F' -> l ∉ F -> heap s !! l = None)
       /\ closed (heap s') F' /\ value_in F' r.
Proof.
  intros H Hv Hc.
  destruct (resolve_framed w fuel dirname env v s r s' F H Hv Hc)
    as (F' & (Hsub & Hnew & Hc' & Hrest) & Hr).
  split; [exact Hrest|]. exists F'. auto.
Qed.

Lemma resolve_leaves_the_rest_witness :
  (<[ 2 := CObj [("v", VNum 1)] ]>
     (<[ 1 := CObj [("c", VRef 2)] ]>
        {[ 0 := CObj [("b", VStr "@b.json")] ]}) : gmap nat cell) !! 0
  = ({[ 0 := CObj [("b", VStr "@b.json")] ]}
     ∪ {[ 1 := CObj [("c", VStr "@c.json")] ]} : gmap nat cell) !! 0.
Proof.
  assert (E : Index.resolve 5 Demo.demo_world (VRef 1) "/x" ∅
                (State ({[ 0 := CObj [("b", VStr "@b.json")] ]}
                        ∪ {[ 1 := CObj [("c", VStr "@c.json")] ]}) [])
              = Ret (VRef 1)
                  (State
                     (<[ 2 := CObj [("v", VNum 1)] ]>
                        (<[ 1 := CObj [("c", VRef 2)] ]>
                           {[ 0 := CObj [("b", VStr "@b.json")] ]}))
                     ["/x/c.json"]))
    by (vm_compute; reflexivity).
  refine (proj1 (resolve_leaves_the_rest 5 Demo.demo_world (VRef 1) "/x" ∅
                   _ _ _ {[ 1 ]} E _ _) 0 _ _).
  - cbn. set_solver.
  - intros l Hl. apply elem_of_singleton in Hl as ->.
    exists (CObj [("c", VStr "@c.json")]). split; [reflexivity|].
    repeat constructor.
  - set_solver.
  - eexists. reflexivity.
Defined.

End StoreInvariants.
